(** * jupyterhealth-client: pagination walker and anonymization engine

    A shallow embedding of [jupyterhealth_client/_client.py]
    ([_fhir_list_api_request]) and [jupyterhealth_client/_anonymize.py]
    in Rocq, with the properties stated in the specification.

    Conventions.
    - Python [int] is [Z]; a finite Python [float] is the rational it
      stands for, and its arithmetic rounds as binary64 does ([Py.of_Q]).
    - JSON documents are trees ([json]); Python dicts keep insertion order
      and are association lists.
    - A call either returns, raises a Python exception, or is cut off because
      the model ran out of fuel or of oracle tape ([outcome]).
    - [random] and [faker] are oracles: finite tapes of draws held in the
      state. *)

From Stdlib Require Import ZArith QArith Qabs Qround Qcanon String Ascii DecimalString DecimalZ
  DecimalPos Lqa.
From stdpp Require Import base gmap sets list strings.

Set Warnings "-register-all".
Local Open Scope string_scope.
Local Open Scope Z_scope.
Local Open Scope list_scope.

(** ** Outcomes of Python calls *)

Inductive exn : Set :=
| KeyError | TypeError | ValueError | AttributeError | HTTPError | OverflowError.

Inductive outcome (A : Type) : Type :=
| Ret (a : A)      (* normal return *)
| Raise (e : exn)  (* a Python exception propagates *)
| Cut.             (* the model has no answer: fuel or oracle tape exhausted *)
Arguments Ret {A} a.
Arguments Raise {A} e.
Arguments Cut {A}.

#[global] Instance outcome_ret : MRet outcome := @Ret.
#[global] Instance outcome_bind : MBind outcome := λ A B f m,
  match m with Ret a => f a | Raise e => Raise e | Cut => Cut end.

(** ** Python builtins on strings and integers *)

Module Py.

(** [str(z)], also [f"{z}"]. *)
Definition str_of_int (z : Z) : string := NilEmpty.string_of_int (Z.to_int z).

(** ASCII whitespace as [str.strip] and [int] see it. *)
Definition is_space (c : ascii) : bool :=
  let n := nat_of_ascii c in
  ((9 <=? n) && (n <=? 13) || (28 <=? n) && (n <=? 32))%nat.

Fixpoint lstrip (s : string) : string :=
  match s with
  | EmptyString => EmptyString
  | String c s' => if is_space c then lstrip s' else s
  end.

Fixpoint rstrip (s : string) : string :=
  match s with
  | EmptyString => EmptyString
  | String c s' =>
      match rstrip s' with
      | EmptyString => if is_space c then EmptyString else String c EmptyString
      | r => String c r
      end
  end.

Definition strip (s : string) : string := rstrip (lstrip s).

Definition digit (c : ascii) : option (Decimal.uint → Decimal.uint) :=
  match c with
  | "0"%char => Some Decimal.D0 | "1"%char => Some Decimal.D1
  | "2"%char => Some Decimal.D2 | "3"%char => Some Decimal.D3
  | "4"%char => Some Decimal.D4 | "5"%char => Some Decimal.D5
  | "6"%char => Some Decimal.D6 | "7"%char => Some Decimal.D7
  | "8"%char => Some Decimal.D8 | "9"%char => Some Decimal.D9
  | _ => None
  end.

(** Decimal digits with single underscores between them. *)
Fixpoint digits (s : string) (after_digit : bool) : option Decimal.uint :=
  match s with
  | EmptyString => if after_digit then Some Decimal.Nil else None
  | String c s' =>
      if Ascii.eqb c "_" then
        if after_digit then digits s' false else None
      else
        match digit c, digits s' true with
        | Some d, Some u => Some (d u)
        | _, _ => None
        end
  end.

(** [int(s)] in base 10. *)
Definition int (s : string) : outcome Z :=
  let s := strip s in
  let '(neg, body) :=
    match s with
    | String "-" r => (true, r)
    | String "+" r => (false, r)
    | _ => (false, s)
    end in
  match digits body false with
  | Some u => Ret (if neg : bool then - Z.of_uint u else Z.of_uint u)
  | None => Raise ValueError
  end.

(** [s.partition(sep)] for a one-character separator. *)
Fixpoint partition (sep : ascii) (s : string) : string * string * string :=
  match s with
  | EmptyString => (EmptyString, EmptyString, EmptyString)
  | String c s' =>
      if Ascii.eqb c sep then (EmptyString, String sep EmptyString, s')
      else let '(a, m, b) := partition sep s' in (String c a, m, b)
  end.

Definition lower_char (c : ascii) : ascii :=
  let n := nat_of_ascii c in
  if ((65 <=? n) && (n <=? 90))%nat then ascii_of_nat (n + 32) else c.

(** [s.lower()] on ASCII letters. *)
Fixpoint lower (s : string) : string :=
  match s with
  | EmptyString => EmptyString
  | String c s' => String (lower_char c) (lower s')
  end.

(** [needle in s] for strings. *)
Fixpoint contains (needle s : string) : bool :=
  String.prefix needle s ||
  match s with
  | EmptyString => false
  | String _ s' => contains needle s'
  end.

(** [round(z, -1)] on an [int]: nearest multiple of ten, ties to the even
    multiple. *)
Definition round_tens (z : Z) : Z :=
  let q := z / 10 in
  let r := z mod 10 in
  if r <? 5 then 10 * q
  else if 5 <? r then 10 * (q + 1)
  else if Z.even q then 10 * q else 10 * (q + 1).

(** All characters of a string pass a test. *)
Fixpoint all_chars (P : ascii → bool) (s : string) : bool :=
  match s with
  | EmptyString => true
  | String c s' => P c && all_chars P s'
  end.

(** The string holds no [sep]. *)
Definition lacks (sep : ascii) (s : string) : bool :=
  all_chars (λ c, negb (Ascii.eqb c sep)) s.

(** Neither whitespace, nor a slash, nor an underscore. *)
Definition plain_char (c : ascii) : bool :=
  negb (is_space c) && negb (Ascii.eqb c "/") && negb (Ascii.eqb c "_").

(** *** Floats *)

(** The nearest integer, ties to the even one. *)
Definition round_half_even (x : Q) : Z :=
  let f := Qfloor x in
  let d := (x - inject_Z f)%Q in
  if Qlt_le_dec d (1 # 2) then f
  else if Qlt_le_dec (1 # 2) d then f + 1
  else if Z.even f then f else f + 1.

(** A Python [float] is an IEEE 754 binary64. A finite one is given by its
    value, a rational [m * 2^e] with [|m| < 2^53] and [-1074 <= e <= 971];
    [0.0] and [-0.0] are the one number zero. *)
Inductive float : Type :=
| Fin (x : Q)
| Inf (negative : bool)
| NaN.

(** [2^1074]: [1.0] in units of the smallest positive float. *)
Definition ulps : Z := 2 ^ 1074.

(** The distance between the floats around [a], both in units of
    [2^-1074], for [a >= 0]: [1] up to [2^53], and twice as much with every
    further bit. *)
Definition spacing (a : Q) : Z := 2 ^ Z.max 0 (Z.log2 (Qfloor a) - 52).

(** [a >= 0] rounded to the nearest multiple of its spacing, ties to the
    even multiple. *)
Definition round_ulps (a : Q) : Z :=
  round_half_even (a / inject_Z (spacing a)) * spacing a.

(** [x] rounded to 53 significant bits, to the nearest and ties to even,
    whatever its size. *)
Definition round64 (x : Q) : Q :=
  let r := Qred (inject_Z (round_ulps (Qabs x * inject_Z ulps)) / inject_Z ulps) in
  if Qlt_le_dec x 0 then (- r)%Q else r.

Definition negative (x : Q) : bool := if Qlt_le_dec x 0 then true else false.

(** The float an operation returns when its exact result is [x]:
    an infinity from [2^1024] on. *)
Definition of_Q (x : Q) : float :=
  let r := round64 x in
  if Qlt_le_dec (Qabs r) (inject_Z (2 ^ 1024)) then Fin r else Inf (negative x).

(** [a * b] *)
Definition fmul (a b : float) : float :=
  match a, b with
  | NaN, _ | _, NaN => NaN
  | Fin x, Fin y => of_Q (x * y)
  | Inf s, Fin y | Fin y, Inf s => if Qeq_bool y 0 then NaN else Inf (xorb s (negative y))
  | Inf s, Inf s' => Inf (xorb s s')
  end.

(** [a + b] *)
Definition fadd (a b : float) : float :=
  match a, b with
  | NaN, _ | _, NaN => NaN
  | Fin x, Fin y => of_Q (x + y)
  | Inf s, Fin _ | Fin _, Inf s => Inf s
  | Inf s, Inf s' => if Bool.eqb s s' then Inf s else NaN
  end.

(** [a - b] *)
Definition fsub (a b : float) : float :=
  match a, b with
  | NaN, _ | _, NaN => NaN
  | Fin x, Fin y => of_Q (x - y)
  | Inf s, Fin _ => Inf s
  | Fin _, Inf s => Inf (negb s)
  | Inf s, Inf s' => if Bool.eqb s s' then NaN else Inf s
  end.

(** [float(z)], as [int * float] and [int + float] convert the [int]. *)
Definition float_of_int (z : Z) : outcome Q :=
  match of_Q (inject_Z z) with
  | Fin x => Ret x
  | _ => Raise OverflowError
  end.

(** [int(x)] on a finite [float]: truncation toward zero. *)
Definition trunc (x : Q) : Z :=
  if Qlt_le_dec x 0 then Qceiling x else Qfloor x.

(** [int(a)] *)
Definition int_of_float (a : float) : outcome Z :=
  match a with
  | Fin x => Ret (trunc x)
  | Inf _ => Raise OverflowError
  | NaN => Raise ValueError
  end.

(** [bool(a)] *)
Definition bool_of_float (a : float) : bool :=
  match a with
  | Fin x => negb (Qeq_bool x 0)
  | _ => true
  end.

(** [round(x, -1)] on a finite [float]: the float nearest to the nearest
    multiple of ten, ties to the even multiple. *)
Definition round_tens_float (x : Q) : outcome Q :=
  match of_Q (inject_Z (10 * round_half_even (x / 10))) with
  | Fin y => Ret y
  | _ => Raise OverflowError
  end.

End Py.

(** ** JSON values *)

Inductive json : Type :=
| JNull
| JBool (b : bool)
| JInt (z : Z)
| JFloat (q : Q)
| JStr (s : string)
| JArr (xs : list json)
| JObj (kvs : list (string * json)).

(** [d.get(k)] on an insertion-ordered dict. *)
Fixpoint dict_get {A : Type} (k : string) (kvs : list (string * A)) : option A :=
  match kvs with
  | [] => None
  | (k', v) :: rest => if String.eqb k k' then Some v else dict_get k rest
  end.

(** [d[k] = v]: overwrite in place, or append a new key. *)
Fixpoint dict_set {A : Type} (k : string) (v : A) (kvs : list (string * A))
  : list (string * A) :=
  match kvs with
  | [] => [(k, v)]
  | (k', v') :: rest =>
      if String.eqb k k' then (k', v) :: rest else (k', v') :: dict_set k v rest
  end.

(** The one-character strings of [s], as [for c in s] produces them. *)
Fixpoint chars (s : string) : list string :=
  match s with
  | EmptyString => []
  | String c s' => String c EmptyString :: chars s'
  end.

Module Json.

(** [v[k]] with a string subscript. *)
Definition getitem (v : json) (k : string) : outcome json :=
  match v with
  | JObj kvs => match dict_get k kvs with Some x => Ret x | None => Raise KeyError end
  | _ => Raise TypeError
  end.

(** [for x in v]. *)
Definition iter (v : json) : outcome (list json) :=
  match v with
  | JArr xs => Ret xs
  | JObj kvs => Ret ((λ kv, JStr (fst kv)) <$> kvs)
  | JStr s => Ret (JStr <$> chars s)
  | _ => Raise TypeError
  end.

(** Python truth value. *)
Definition truthy (v : json) : bool :=
  match v with
  | JNull => false
  | JBool b => b
  | JInt z => negb (z =? 0)
  | JFloat q => negb (Qeq_bool q 0)
  | JStr s => negb (String.eqb s "")
  | JArr xs => match xs with [] => false | _ => true end
  | JObj kvs => match kvs with [] => false | _ => true end
  end.

(** A value that is neither a list nor a dict. *)
Definition leaf (v : json) : bool :=
  match v with
  | JObj _ | JArr _ => false
  | _ => true
  end.

(** Every entry of [record["identifier"]] has a leaf under ["value"]. *)
Definition identifier_values (record : json) : bool :=
  match getitem record "identifier" ≫= iter with
  | Ret entries =>
      forallb (λ entry,
                 match getitem entry "value" with
                 | Ret value => leaf value
                 | _ => false
                 end) entries
  | _ => false
  end.

(** The keys under which [anonymize_observation] writes. *)
Definition identifying (k : string) : bool :=
  String.eqb k "id" || String.eqb k "value" || String.eqb k "reference"
  || String.eqb k "data".

(** A record without the leaves under the identifying keys: every key,
    every list and every other value stays. *)
Fixpoint redact (v : json) : json :=
  match v with
  | JObj kvs =>
      JObj ((λ kv, (kv.1, if identifying kv.1 && leaf kv.2 then JNull
                          else redact kv.2)) <$> kvs)
  | JArr xs => JArr (redact <$> xs)
  | _ => v
  end.

(** [v == text] for a string literal [text]. *)
Definition eq_str (v : json) (text : string) : bool :=
  match v with
  | JStr x => String.eqb x text
  | _ => false
  end.

End Json.

(** ** Pagination walker ([_client.py], [_fhir_list_api_request]) *)

Module Walker.

(** Members of [seen_ids]: hashable JSON scalars up to Python equality
    ([1 == 1.0 == True]). *)
Inductive hkey : Type :=
| KNull
| KNum (q : Qc)
| KStr (s : string).

#[global] Instance hkey_eq_dec : EqDecision hkey.
Proof. solve_decision. Defined.

#[global] Instance hkey_countable : Countable hkey.
Proof.
  refine (inj_countable'
    (λ k, match k with
          | KNull => inl (inl ())
          | KNum q => inl (inr q)
          | KStr s => inr s
          end)
    (λ x, match x with
          | inl (inl _) => KNull
          | inl (inr q) => KNum q
          | inr s => KStr s
          end) _).
  by intros [].
Defined.

(** Hashing [entry["id"]] for the set lookup; containers are unhashable. *)
Definition hash_key (v : json) : outcome hkey :=
  match v with
  | JNull => Ret KNull
  | JBool b => Ret (KNum (Q2Qc (inject_Z (if b then 1 else 0))))
  | JInt z => Ret (KNum (Q2Qc (inject_Z z)))
  | JFloat q => Ret (KNum (Q2Qc q))
  | JStr s => Ret (KStr s)
  | JArr _ | JObj _ => Raise TypeError
  end.

(** [if isinstance(entry, dict) and len(entry) == 1:
       entry = list(entry.values())[0]] *)
Definition unwrap (entry : json) : json :=
  match entry with
  | JObj [(_, v)] => v
  | _ => entry
  end.

Definition entry_key (entry : json) : outcome hkey :=
  Json.getitem entry "id" ≫= hash_key.

(** [limit and records >= limit] *)
Definition limit_reached (limit : option Z) (records : Z) : bool :=
  match limit with
  | None => false
  | Some l => negb (l =? 0) && (l <=? records)
  end.

(** How the [for entry in r["entry"]] loop ends. *)
Inductive scan_result : Type :=
| ScanDone (seen_ids : gset hkey) (records : Z) (new_records : bool)
| ScanReturn               (* [return] inside the loop: limit reached *)
| ScanRaise (e : exn).

(** The body of the [for] loop; the first component lists the entries
    yielded, in order. *)
Fixpoint scan_entries (limit : option Z) (entries : list json)
    (seen_ids : gset hkey) (records : Z) (new_records : bool)
  : list json * scan_result :=
  match entries with
  | [] => ([], ScanDone seen_ids records new_records)
  | entry :: rest =>
      let entry := unwrap entry in
      match entry_key entry with
      | Raise e => ([], ScanRaise e)
      | Cut => ([], ScanRaise TypeError)
      | Ret k =>
          if decide (k ∈ seen_ids) then
            scan_entries limit rest seen_ids records new_records
          else
            let seen_ids := {[k]} ∪ seen_ids in
            let records := records + 1 in
            if limit_reached limit records then ([entry], ScanReturn)
            else
              let '(ys, res) := scan_entries limit rest seen_ids records true in
              (entry :: ys, res)
      end
  end.

(** [next_url = None
     for link in r.get("link") or []:
         if link["relation"] == "next": next_url = link["url"]] *)
Fixpoint scan_links (links : list json) (next_url : json) : outcome json :=
  match links with
  | [] => Ret next_url
  | link :: rest =>
      rel ← Json.getitem link "relation";
      if Json.eq_str rel "next" then
        url ← Json.getitem link "url"; scan_links rest url
      else scan_links rest next_url
  end.

Definition find_next (r : json) : outcome json :=
  match r with
  | JObj kvs =>
      let links := default JNull (dict_get "link" kvs) in
      if Json.truthy links then ls ← Json.iter links; scan_links ls JNull
      else Ret JNull
  | _ => Raise AttributeError
  end.

(** A call of [self._api_request]: the path or URL, the [fhir] flag and the
    remaining keyword arguments. *)
Record request : Type := Request {
  req_path : string;
  req_fhir : bool;
  req_kwargs : list (string * json)
}.

(** What a consumer of the generator observes. *)
Inductive event : Type :=
| EvRequest (rq : request)
| EvYield (entry : json).

(** [kwargs.pop("params", None)] *)
Definition pop_params (kwargs : list (string * json)) : list (string * json) :=
  filter (λ kv, fst kv ≠ "params") kwargs.

Section WithTransport.

(** The HTTP collaborator: the response to the [n]-th request (counting
    from 0), as decoded by [_api_request]. *)
Variable _api_request : nat → request → outcome json.

(** The [while True] loop, entered with page [r]; [requests] pages have
    been processed before. [fuel] bounds the number of pages. *)
Fixpoint walk (fuel : nat) (limit : option Z) (kwargs : list (string * json))
    (r : json) (requests : nat) (records : Z) (seen_ids : gset hkey)
  : list event * outcome unit :=
  match fuel with
  | O => ([], Cut)
  | S fuel' =>
      let requests := S requests in
      match Json.getitem r "entry" ≫= Json.iter with
      | Raise e => ([], Raise e)
      | Cut => ([], Cut)
      | Ret entries =>
          let '(ys, res) := scan_entries limit entries seen_ids records false in
          let out := EvYield <$> ys in
          match res with
          | ScanReturn => (out, Ret ())
          | ScanRaise e => (out, Raise e)
          | ScanDone seen_ids records new_records =>
              match find_next r with
              | Raise e => (out, Raise e)
              | Cut => (out, Cut)
              | Ret next_url =>
                  if Json.truthy next_url && new_records then
                    let kwargs := pop_params kwargs in
                    match next_url with
                    | JStr url =>
                        let rq := Request url false kwargs in
                        match _api_request requests rq with
                        | Raise e => (out ++ [EvRequest rq], Raise e)
                        | Cut => (out ++ [EvRequest rq], Cut)
                        | Ret r' =>
                            let '(tr, st) :=
                              walk fuel' limit kwargs r' requests records seen_ids in
                            (out ++ EvRequest rq :: tr, st)
                        end
                    | _ => (out, Raise TypeError)
                    end
                  else (out, Ret ())
              end
          end
      end
  end.

Definition _fhir_list_api_request (fuel : nat) (path : string)
    (limit : option Z) (kwargs : list (string * json))
  : list event * outcome unit :=
  let rq := Request path true kwargs in
  match _api_request 0 rq with
  | Raise e => ([EvRequest rq], Raise e)
  | Cut => ([EvRequest rq], Cut)
  | Ret r =>
      let '(tr, st) := walk fuel limit kwargs r 0 0 ∅ in
      (EvRequest rq :: tr, st)
  end.

End WithTransport.

(** Observations on traces. *)
Definition yields (tr : list event) : list json :=
  omap (λ ev, match ev with EvYield e => Some e | EvRequest _ => None end) tr.

Definition requests_of (tr : list event) : list request :=
  omap (λ ev, match ev with EvRequest rq => Some rq | EvYield _ => None end) tr.

Definition key_of (entry : json) : option hkey :=
  match entry_key entry with Ret k => Some k | _ => None end.

(** The prefix of a trace that ends with its [k]-th yield. *)
Fixpoint upto_yield (tr : list event) (k : nat) : list event :=
  match tr with
  | [] => []
  | ev :: tr' =>
      match k with
      | O => []
      | S k' =>
          match ev with
          | EvYield _ => ev :: upto_yield tr' k'
          | EvRequest _ => ev :: upto_yield tr' k
          end
      end
  end.

(** Every request but the first event of the trace comes directly after a
    yield. *)
Definition fetch_follows_yield (tr : list event) : Prop :=
  ∀ (i : nat) rq, tr !! S i = Some (EvRequest rq) →
    ∃ e, tr !! i = Some (EvYield e).

(** Pacing of requests: [paced b tr] holds when no request of [tr] comes
    directly after another one, nor first unless [b]. *)
Fixpoint paced (after_yield : bool) (tr : list event) : bool :=
  match tr with
  | [] => true
  | EvYield _ :: tr' => paced true tr'
  | EvRequest _ :: tr' => after_yield && paced false tr'
  end.

(** The two-page scenario of the specification. *)
Definition page1 : json :=
  JObj [("entry", JArr [JObj [("resource", JObj [("id", JStr "1")])];
                        JObj [("resource", JObj [("id", JStr "2")])]]);
        ("link", JArr [JObj [("relation", JStr "next");
                             ("url", JStr "https://jhe.example/fhir/r5/Observation?page=2")]])].

Definition page2 : json :=
  JObj [("entry", JArr [JObj [("resource", JObj [("id", JStr "2")])];
                        JObj [("resource", JObj [("id", JStr "3")])]])].

(** A page that only repeats the entries of [page1] and still carries a
    "next" link. *)
Definition stale_page : json :=
  JObj [("entry", JArr [JObj [("resource", JObj [("id", JStr "2")])];
                        JObj [("resource", JObj [("id", JStr "1")])]]);
        ("link", JArr [JObj [("relation", JStr "next");
                             ("url", JStr "https://jhe.example/fhir/r5/Observation?page=3")]])].

Definition two_pages (n : nat) (rq : request) : outcome json :=
  match n with
  | O => Ret page1
  | _ => Ret page2
  end.

(** The ids of the entries of a page. *)
Definition page_keys (r : json) : list hkey :=
  match Json.getitem r "entry" ≫= Json.iter with
  | Ret entries => omap (λ entry, key_of (unwrap entry)) entries
  | _ => []
  end.

(** A server that sends its first page twice before the last one. *)
Definition repeated_page : json :=
  JObj [("entry", JArr [JObj [("resource", JObj [("id", JStr "1")])]]);
        ("link", JArr [JObj [("relation", JStr "next");
                             ("url", JStr "https://jhe.example/fhir/r5/Observation?page=2")]])].

Definition last_page : json :=
  JObj [("entry", JArr [JObj [("resource", JObj [("id", JStr "2")])];
                        JObj [("resource", JObj [("id", JStr "3")])]])].

Definition repeating_pages (n : nat) (rq : request) : outcome json :=
  match n with
  | 0%nat | 1%nat => Ret repeated_page
  | _ => Ret last_page
  end.

End Walker.

(** ** Python objects: a store of dicts and lists *)

Definition loc := positive.

(** Values held in variables and in containers; containers are referenced. *)
Inductive val : Type :=
| VNone
| VBool (b : bool)
| VInt (z : Z)
| VFloat (q : Q)
| VStr (s : string)
| VRef (l : loc).

Inductive obj : Type :=
| ODict (kvs : list (string * val))
| OList (xs : list val).

(** A calendar date, as [faker] returns it. *)
Record date : Type := Date { year : Z; month : Z; day : Z }.

(** ** Anonymization engine ([_anonymize.py]) *)

Module Anon.

(** The interpreter state the module reads and writes: the object store,
    the two module-level caches, the counter [_random_uuid.n], and the
    draws still to come from [random] and [faker]. *)
Record state : Type := State {
  heap : gmap loc obj;
  _jhe_id_cache : gmap string Z;
  _reverse_id_cache : gmap Z string;
  uuid_n : Z;
  randint_tape : list Z;
  random_tape : list Q;
  first_names : list string;
  last_names : list string;
  dates : list date
}.

Definition set_heap (h : gmap loc obj) (s : state) : state :=
  State h (_jhe_id_cache s) (_reverse_id_cache s) (uuid_n s) (randint_tape s)
    (random_tape s) (first_names s) (last_names s) (dates s).

(** State and exception monad. *)
Definition M (A : Type) : Type := state → outcome A * state.

#[global] Instance M_ret : MRet M := λ A a s, (Ret a, s).
#[global] Instance M_bind : MBind M := λ A B f m s,
  match m s with
  | (Ret a, s') => f a s'
  | (Raise e, s') => (Raise e, s')
  | (Cut, s') => (Cut, s')
  end.

Definition raise {A : Type} (e : exn) : M A := λ s, (Raise e, s).
Definition cut {A : Type} : M A := λ s, (Cut, s).
Definition lift {A : Type} (o : outcome A) : M A := λ s, (o, s).

(** Triples: started in a state that satisfies [P], the call [m] ends in a
    state that satisfies [Q a] when it returns [a], and [E] when it raises
    or is cut off. *)
Definition hoare {A : Type} (P : state → Prop) (m : M A)
    (Q : A → state → Prop) (E : state → Prop) : Prop :=
  ∀ s, P s →
    match m s with
    | (Ret a, s') => Q a s'
    | (_, s') => E s'
    end.

(** [for x in xs: body(x)] *)
Fixpoint for_each {A : Type} (xs : list A) (body : A → M unit) : M unit :=
  match xs with
  | [] => mret ()
  | x :: rest => body x;; for_each rest body
  end.

(** *** Operations on objects *)

(** An operation that only reads the object store. *)
Definition reads {A : Type} (f : gmap loc obj → outcome A) : M A :=
  λ s, (f (heap s), s).

(** [v[k]] with a string subscript. *)
Definition getitem_in (h : gmap loc obj) (v : val) (k : string) : outcome val :=
  match v with
  | VRef l =>
      match h !! l with
      | Some (ODict kvs) =>
          match dict_get k kvs with
          | Some x => Ret x
          | None => Raise KeyError
          end
      | Some (OList _) => Raise TypeError
      | None => Cut
      end
  | _ => Raise TypeError
  end.

Definition getitem (v : val) (k : string) : M val :=
  reads (λ h, getitem_in h v k).

(** [v[k] = x] with a string subscript. *)
Definition setitem (v : val) (k : string) (x : val) : M unit := λ s,
  match v with
  | VRef l =>
      match heap s !! l with
      | Some (ODict kvs) =>
          (Ret (), set_heap (<[l := ODict (dict_set k x kvs)]> (heap s)) s)
      | Some (OList _) => (Raise TypeError, s)
      | None => (Cut, s)
      end
  | _ => (Raise TypeError, s)
  end.

(** A new container object. *)
Definition alloc (o : obj) : M val := λ s,
  let l := fresh (dom (heap s)) in
  (Ret (VRef l), set_heap (<[l := o]> (heap s)) s).

(** Python truth value. *)
Definition truthy_in (h : gmap loc obj) (v : val) : outcome bool :=
  match v with
  | VNone => Ret false
  | VBool b => Ret b
  | VInt z => Ret (negb (z =? 0))
  | VFloat q => Ret (negb (Qeq_bool q 0))
  | VStr x => Ret (negb (String.eqb x ""))
  | VRef l =>
      match h !! l with
      | Some (ODict kvs) => Ret (match kvs with [] => false | _ => true end)
      | Some (OList xs) => Ret (match xs with [] => false | _ => true end)
      | None => Cut
      end
  end.

Definition truthy (v : val) : M bool := reads (λ h, truthy_in h v).

(** [for x in v] *)
Definition iter_in (h : gmap loc obj) (v : val) : outcome (list val) :=
  match v with
  | VRef l =>
      match h !! l with
      | Some (OList xs) => Ret xs
      | Some (ODict kvs) => Ret ((λ kv, VStr (fst kv)) <$> kvs)
      | None => Cut
      end
  | VStr x => Ret (VStr <$> chars x)
  | _ => Raise TypeError
  end.

Definition iter (v : val) : M (list val) := reads (λ h, iter_in h v).

(** [f"{v}"]; the text of floats and containers is outside the model. *)
Definition str_of_val (v : val) : option string :=
  match v with
  | VNone => Some "None"
  | VBool b => Some (if b then "True" else "False")
  | VInt z => Some (Py.str_of_int z)
  | VStr x => Some x
  | VFloat _ | VRef _ => None
  end.

(** [copy.deepcopy]: the object graph under [v] is rebuilt from fresh
    objects. The library's memo table, which keeps sharing and cycles, is
    not modelled: records come from [r.json()] and are trees. [fuel]
    bounds the nesting depth. *)
Fixpoint copy_list (copy : val → gmap loc obj → option (val * gmap loc obj))
    (xs : list val) (h : gmap loc obj) : option (list val * gmap loc obj) :=
  match xs with
  | [] => Some ([], h)
  | x :: rest =>
      match copy x h with
      | Some (x', h1) =>
          match copy_list copy rest h1 with
          | Some (rest', h2) => Some (x' :: rest', h2)
          | None => None
          end
      | None => None
      end
  end.

Fixpoint copy_fields (copy : val → gmap loc obj → option (val * gmap loc obj))
    (kvs : list (string * val)) (h : gmap loc obj)
  : option (list (string * val) * gmap loc obj) :=
  match kvs with
  | [] => Some ([], h)
  | (k, x) :: rest =>
      match copy x h with
      | Some (x', h1) =>
          match copy_fields copy rest h1 with
          | Some (rest', h2) => Some ((k, x') :: rest', h2)
          | None => None
          end
      | None => None
      end
  end.

Fixpoint deepcopy_in (fuel : nat) (v : val) (h : gmap loc obj)
  : option (val * gmap loc obj) :=
  match v with
  | VRef l =>
      match fuel with
      | O => None
      | S fuel' =>
          match h !! l with
          | Some (ODict kvs) =>
              match copy_fields (deepcopy_in fuel') kvs h with
              | Some (kvs', h') =>
                  let l' := fresh (dom h') in
                  Some (VRef l', <[l' := ODict kvs']> h')
              | None => None
              end
          | Some (OList xs) =>
              match copy_list (deepcopy_in fuel') xs h with
              | Some (xs', h') =>
                  let l' := fresh (dom h') in
                  Some (VRef l', <[l' := OList xs']> h')
              | None => None
              end
          | None => None
          end
      end
  | _ => Some (v, h)
  end.

Definition deepcopy (fuel : nat) (v : val) : M val := λ s,
  match deepcopy_in fuel v (heap s) with
  | Some (v', h') => (Ret v', set_heap h' s)
  | None => (Cut, s)
  end.

(** The tree an object graph unfolds to; [==] on records compares these.
    [fuel] bounds the nesting depth. *)
Definition to_json (v : val) : option json :=
  match v with
  | VNone => Some JNull
  | VBool b => Some (JBool b)
  | VInt z => Some (JInt z)
  | VFloat q => Some (JFloat q)
  | VStr x => Some (JStr x)
  | VRef _ => None
  end.

Fixpoint snapshot_list (snap : val → option json) (xs : list val)
  : option (list json) :=
  match xs with
  | [] => Some []
  | x :: rest =>
      match snap x, snapshot_list snap rest with
      | Some t, Some ts => Some (t :: ts)
      | _, _ => None
      end
  end.

Fixpoint snapshot_fields (snap : val → option json) (kvs : list (string * val))
  : option (list (string * json)) :=
  match kvs with
  | [] => Some []
  | (k, x) :: rest =>
      match snap x, snapshot_fields snap rest with
      | Some t, Some ts => Some ((k, t) :: ts)
      | _, _ => None
      end
  end.

Fixpoint snapshot (fuel : nat) (h : gmap loc obj) (v : val) : option json :=
  match v with
  | VRef l =>
      match fuel with
      | O => None
      | S fuel' =>
          match h !! l with
          | Some (ODict kvs) => JObj <$> snapshot_fields (snapshot fuel' h) kvs
          | Some (OList xs) => JArr <$> snapshot_list (snapshot fuel' h) xs
          | None => None
          end
      end
  | _ => to_json v
  end.

(** The fields of a dict object. *)
Definition obj_fields (o : obj) : list (string * val) :=
  match o with
  | ODict kvs => kvs
  | OList _ => []
  end.

(** [record["subject"]["reference"]] in the store [h]. *)
Definition subject_reference (h : gmap loc obj) (record : val) : outcome val :=
  getitem_in h record "subject" ≫= λ subject, getitem_in h subject "reference".

(** The keys of a dict, in order. *)
Definition keys_in (h : gmap loc obj) (v : val) : option (list string) :=
  match v with
  | VRef l =>
      match h !! l with
      | Some (ODict kvs) => Some kvs.*1
      | _ => None
      end
  | _ => None
  end.

(** The caller's record [record] is as it was in [s]: no object of [s]
    has changed, and the record unfolds to the same tree. *)
Definition unmodified (s s' : state) (record : val) : Prop :=
  heap s ⊆ heap s'
  ∧ ∀ n t, snapshot n (heap s) record = Some t → snapshot n (heap s') record = Some t.

(** A value that is no reference to a list or a dict. *)
Definition scalar (v : val) : Prop :=
  match v with
  | VRef _ => False
  | _ => True
  end.

(** [o'] is [o] up to new scalars in place of scalars, under the keys [k]
    of the object [l] with [allowed l k]. *)
Definition kept_obj (allowed : loc → string → Prop) (l : loc) (o o' : obj) : Prop :=
  match o, o' with
  | ODict kvs, ODict kvs' =>
      Forall2 (λ kv kv', kv.1 = kv'.1
                         ∧ (kv.2 = kv'.2 ∨ (allowed l kv.1 ∧ scalar kv.2 ∧ scalar kv'.2)))
        kvs kvs'
  | OList xs, OList xs' => xs = xs'
  | _, _ => False
  end.

(** Every object of [h] is in [h'], changed in the allowed slots at most. *)
Definition rewritten_only (allowed : loc → string → Prop) (h h' : gmap loc obj) : Prop :=
  ∀ l o, h !! l = Some o → ∃ o', h' !! l = Some o' ∧ kept_obj allowed l o o'.

(** The slots [anonymize_observation] writes in its copy [record]:
    [record["id"]], [record["subject"]["reference"]],
    [record["valueAttachment"]["data"]] and [entry["value"]] for the
    entries of [record["identifier"]]. *)
Definition observation_slot (h : gmap loc obj) (record : val) (l : loc) (k : string)
  : Prop :=
  (record = VRef l ∧ k = "id")
  ∨ (getitem_in h record "subject" = Ret (VRef l) ∧ k = "reference")
  ∨ (getitem_in h record "valueAttachment" = Ret (VRef l) ∧ k = "data")
  ∨ (∃ entries, getitem_in h record "identifier" ≫= iter_in h = Ret entries
                ∧ VRef l ∈ entries ∧ k = "value").

(** *** Oracles *)

(** [random.randint(a, b)]: the next raw draw, brought into [a..b]. *)
Definition randint (a b r : Z) : Z := a + r mod (b - a + 1).

(** [random.random()] *)
Definition random_random : M Q := λ s,
  match random_tape s with
  | [] => (Cut, s)
  | r :: rest =>
      (Ret r, State (heap s) (_jhe_id_cache s) (_reverse_id_cache s) (uuid_n s)
                (randint_tape s) rest (first_names s) (last_names s) (dates s))
  end.

(** [_faker.first_name()] *)
Definition faker_first_name : M string := λ s,
  match first_names s with
  | [] => (Cut, s)
  | n :: rest =>
      (Ret n, State (heap s) (_jhe_id_cache s) (_reverse_id_cache s) (uuid_n s)
                (randint_tape s) (random_tape s) rest (last_names s) (dates s))
  end.

(** [_faker.last_name()] *)
Definition faker_last_name : M string := λ s,
  match last_names s with
  | [] => (Cut, s)
  | n :: rest =>
      (Ret n, State (heap s) (_jhe_id_cache s) (_reverse_id_cache s) (uuid_n s)
                (randint_tape s) (random_tape s) (first_names s) rest (dates s))
  end.

(** [_faker.date_between(date(1950, 1, 1), date(2005, 1, 1))] *)
Definition faker_date_between : M date := λ s,
  match dates s with
  | [] => (Cut, s)
  | d :: rest =>
      (Ret d, State (heap s) (_jhe_id_cache s) (_reverse_id_cache s) (uuid_n s)
                (randint_tape s) (random_tape s) (first_names s) (last_names s) rest)
  end.

Definition pad2 (n : Z) : string :=
  if n <? 10 then "0" +:+ Py.str_of_int n else Py.str_of_int n.

(** [d.strftime("%Y-%m-%d")], for four-digit years. *)
Definition strftime_ymd (d : date) : string :=
  Py.str_of_int (year d) +:+ "-" +:+ pad2 (month d) +:+ "-" +:+ pad2 (day d).

(** *** The identifier cache *)

(** [deanonymize_id] *)
Definition deanonymize_id (id : Z) : M Z := λ s,
  match _reverse_id_cache s !! id with
  | None => (Ret id, s)
  | Some id_key =>
      let '(kind, _, real_id) := Py.partition "/" id_key in
      (Py.int real_id, s)
  end.

(** [new_id = random.randint(start, start + 10_000)
     while new_id in _reverse_id_cache:
         new_id = random.randint(start, start + 10_000)]
    The loop runs on the tape of draws and stops at the first free id. *)
Fixpoint draw_id (start : Z) (rev : gmap Z string) (tape : list Z)
  : option (Z * list Z) :=
  match tape with
  | [] => None
  | r :: rest =>
      let new_id := randint start (start + 10000) r in
      match rev !! new_id with
      | Some _ => draw_id start rev rest
      | None => Some (new_id, rest)
      end
  end.

(** [_random_id] *)
Definition _random_id (id : val) (kind : string) (start : Z) : M Z := λ s,
  match str_of_val id with
  | None => (Cut, s)
  | Some id_text =>
      let id_key := kind +:+ "/" +:+ id_text in
      match _jhe_id_cache s !! id_key with
      | Some cached => (Ret cached, s)
      | None =>
          match draw_id start (_reverse_id_cache s) (randint_tape s) with
          | None => (Cut, s)
          | Some (new_id, rest) =>
              (Ret new_id,
               State (heap s) (<[id_key := new_id]> (_jhe_id_cache s))
                 (<[new_id := id_key]> (_reverse_id_cache s)) (uuid_n s)
                 rest (random_tape s) (first_names s) (last_names s) (dates s))
          end
      end
  end.

(** The kinds the transforms pass to [_random_id]: the literals ["User"],
    ["Patient"] and ["Observation"], and the part of a subject reference
    before its first ["/"]. *)
Definition mapped_kind (kind : string) : Prop :=
  kind ∈ ["User"; "Patient"; "Observation"]
  ∨ ∃ reference, kind = (Py.partition "/" reference).1.1.

(** The two caches mirror each other. *)
Definition cache_inv (s : state) : Prop :=
  ∀ key v, _jhe_id_cache s !! key = Some v ↔ _reverse_id_cache s !! v = Some key.

(** [s'] holds every cache entry of [s]: a later state of the process. *)
Definition later (s s' : state) : Prop :=
  _jhe_id_cache s ⊆ _jhe_id_cache s' ∧ _reverse_id_cache s ⊆ _reverse_id_cache s'.

(** [v] is not an object of the state [s0]. *)
Definition is_new (s0 : state) (v : val) : Prop :=
  match v with
  | VRef l => heap s0 !! l = None
  | _ => True
  end.

Definition obj_vals (o : obj) : list val :=
  match o with
  | ODict kvs => kvs.*2
  | OList xs => xs
  end.

(** Since [s0], cache entries were only added and no object of [s0] was
    changed. *)
Definition kept (s0 s : state) : Prop :=
  later s0 s ∧ heap s0 ⊆ heap s.

(** The objects of [h] that are not objects of [s0] refer to no object of
    [s0]. *)
Definition sep (s0 : state) (h : gmap loc obj) : Prop :=
  ∀ l o, h !! l = Some o → heap s0 !! l = None → Forall (is_new s0) (obj_vals o).

(** Moreover, the objects made since [s0] refer to no object of [s0]. *)
Definition isolated (s0 s : state) : Prop :=
  kept s0 s ∧ sep s0 (heap s).

(** What a copying function has to ensure: it only adds objects, the
    objects it adds are apart from those of [s0], and the copy unfolds to
    the same tree as the original. *)
Definition copy_ok (s0 : state)
    (copy : val → gmap loc obj → option (val * gmap loc obj)) : Prop :=
  ∀ v h v' h', copy v h = Some (v', h') →
    h ⊆ h'
    ∧ (heap s0 ⊆ h → sep s0 h → sep s0 h' ∧ is_new s0 v')
    ∧ (∀ m t, snapshot m h v = Some t → snapshot m h' v' = Some t).

(** [I] looks at the object store and the caches only, and survives new
    cache entries. *)
Definition stable (I : state → Prop) : Prop :=
  ∀ s s', heap s' = heap s → later s s' → I s → I s'.

(** [m] maintains [I], also when it fails, and returns values in [φ]. *)
Definition keeps {A : Type} (I : state → Prop) (m : M A) (φ : A → Prop) : Prop :=
  hoare I m (λ a s, I s ∧ φ a) I.

(** [_random_uuid] *)
Definition _random_uuid : M string := λ s,
  let n := uuid_n s + 1 in
  (Ret ("u-u-i-d-" +:+ Py.str_of_int n),
   State (heap s) (_jhe_id_cache s) (_reverse_id_cache s) n (randint_tape s)
     (random_tape s) (first_names s) (last_names s) (dates s)).

(** *** Users and patients *)

(** [f"{first}.{last}@example.edu".lower()] *)
Definition synthetic_email (first last : val) : M string :=
  match str_of_val first, str_of_val last with
  | Some a, Some b => mret (Py.lower (a +:+ "." +:+ b +:+ "@example.edu"))
  | _, _ => cut
  end.

(** [anonymize_user] *)
Definition anonymize_user (user : val) : M val :=
  new_user ← alloc (ODict []);
  name ← faker_first_name;
  setitem new_user "firstName" (VStr name);;
  name ← faker_last_name;
  setitem new_user "lastName" (VStr name);;
  first ← getitem new_user "firstName";
  last ← getitem new_user "lastName";
  email ← synthetic_email first last;
  setitem new_user "email" (VStr email);;
  setitem new_user "patient" VNone;;
  id ← getitem user "id";
  new_id ← _random_id id "User" 10000;
  setitem new_user "id" (VInt new_id);;
  mret new_user.

(** [anonymize_patient] *)
Definition anonymize_patient (patient : val) : M val :=
  org ← getitem patient "organizationId";
  new_patient ← alloc (ODict [("organizationId", org)]);
  name ← faker_first_name;
  setitem new_patient "nameGiven" (VStr name);;
  name ← faker_last_name;
  setitem new_patient "nameFamily" (VStr name);;
  phone ← getitem patient "telecomPhone";
  has_phone ← truthy phone;
  (if has_phone : bool then setitem new_patient "telecomPhone" (VStr "(510) 555-1234")
   else mret ());;
  mail ← getitem patient "telecomEmail";
  has_mail ← truthy mail;
  (if has_mail : bool then
     first ← getitem new_patient "nameGiven";
     last ← getitem new_patient "nameFamily";
     email ← synthetic_email first last;
     setitem new_patient "telecomEmail" (VStr email)
   else mret ());;
  d ← faker_date_between;
  setitem new_patient "birthDate" (VStr (strftime_ymd d));;
  ident ← getitem patient "identifier";
  has_ident ← truthy ident;
  (if has_ident : bool then
     u ← _random_uuid;
     setitem new_patient "identifier" (VStr u)
   else mret ());;
  id ← getitem patient "id";
  new_id ← _random_id id "Patient" 40000;
  setitem new_patient "id" (VInt new_id);;
  id ← getitem patient "jheUserId";
  new_id ← _random_id id "User" 10000;
  setitem new_patient "jheUserId" (VInt new_id);;
  mret new_patient.

(** The fields [anonymize_patient] writes, in the order it writes them;
    [b1], [b2], [b3] tell whether the input had a phone number, an email
    address and an identifier. *)
Definition patient_fields (org : val) (fn ln : string) (d : date) (n v1 v2 : Z)
    (b1 b2 b3 : bool) : list (string * val) :=
  [("organizationId", org); ("nameGiven", VStr fn); ("nameFamily", VStr ln)]
  ++ (if b1 then [("telecomPhone", VStr "(510) 555-1234")] else [])
  ++ (if b2 then [("telecomEmail",
                   VStr (Py.lower (fn +:+ "." +:+ ln +:+ "@example.edu")))] else [])
  ++ [("birthDate", VStr (strftime_ymd d))]
  ++ (if b3 then [("identifier", VStr ("u-u-i-d-" +:+ Py.str_of_int (n + 1)))] else [])
  ++ [("id", VInt v1); ("jheUserId", VInt v2)].

(** *** Observations *)

(** [round_value + round_value * offset * noise_scale] in binary64, where
    [offset] is [random.random() - 0.5]. *)
Definition noisy_at (round_value offset noise_scale : Py.float) : Py.float :=
  Py.fadd round_value (Py.fmul (Py.fmul round_value offset) noise_scale).

Definition noisy (round_value r noise_scale : Q) : Py.float :=
  noisy_at (Py.Fin round_value) (Py.fsub (Py.Fin r) (Py.Fin (1 # 2)))
    (Py.Fin noise_scale).

(** [x] lies between [a] and [b], whichever of the two is the smaller. *)
Definition between (a b x : Q) : Prop :=
  (a <= x <= b)%Q ∨ (b <= x <= a)%Q.

(** [_scale_value]; the last step is [type(value)(new_value)]. An [int] is
    converted when it meets a [float]; for a [float] the model has no
    answer when the result is infinite, which no JSON value of the model
    is. *)
Definition _scale_value (value : json) (noise_scale : Q) : M json :=
  match value with
  | JInt z =>
      let round_value := Py.round_tens z in
      r ← random_random;
      round_value ← lift (Py.float_of_int round_value);
      new_value ← lift (Py.int_of_float (noisy round_value r noise_scale));
      mret (JInt new_value)
  | JFloat x =>
      round_value ← lift (Py.round_tens_float x);
      r ← random_random;
      match noisy round_value r noise_scale with
      | Py.Fin new_value => mret (JFloat new_value)
      | _ => cut
      end
  | JBool b =>
      let round_value := Py.round_tens (if b then 1 else 0) in
      r ← random_random;
      round_value ← lift (Py.float_of_int round_value);
      mret (JBool (Py.bool_of_float (noisy round_value r noise_scale)))
  | _ => raise TypeError
  end.

(** [if isinstance(original_value, int): new_value = int(new_value)] *)
Definition cast_like (original_value new_value : json) : json :=
  match original_value, new_value with
  | JBool _, JBool b => JInt (if b then 1 else 0)
  | _, _ => new_value
  end.

(** ["value" in content] *)
Definition has_value (content : json) : outcome bool :=
  match content with
  | JObj kvs => Ret (bool_decide (is_Some (dict_get "value" kvs)))
  | JStr x => Ret (Py.contains "value" x)
  | JArr xs =>
      Ret (existsb (λ x, Json.eq_str x "value") xs)
  | _ => Raise TypeError
  end.

(** [content["value"] = new_value] *)
Definition set_value (content new_value : json) : outcome json :=
  match content with
  | JObj kvs => Ret (JObj (dict_set "value" new_value kvs))
  | _ => Raise TypeError
  end.

(** One round of [for field, content in value_data["body"].items()]. *)
Definition scale_content (noise_scale : Q) (content : json) : M json :=
  present ← lift (has_value content);
  if present : bool then
    original_value ← lift (Json.getitem content "value");
    new_value ← _scale_value original_value noise_scale;
    lift (set_value content (cast_like original_value new_value))
  else mret content.

Fixpoint scale_body (noise_scale : Q) (items : list (string * json))
  : M (list (string * json)) :=
  match items with
  | [] => mret []
  | (field, content) :: rest =>
      content' ← scale_content noise_scale content;
      rest' ← scale_body noise_scale rest;
      mret ((field, content') :: rest')
  end.

(** [if field in value_data["header"]:
        value_data["header"][field] = _random_uuid()] *)
Definition replace_uuid (field : string) (value_data : json) : M json :=
  header ← lift (Json.getitem value_data "header");
  present ←
    lift (match header with
          | JObj kvs => Ret (bool_decide (is_Some (dict_get field kvs)))
          | JStr x => Ret (Py.contains field x)
          | JArr xs =>
              Ret (existsb (λ x, Json.eq_str x field) xs)
          | _ => Raise TypeError
          end);
  if present : bool then
    header ← lift (Json.getitem value_data "header");
    u ← _random_uuid;
    match header, value_data with
    | JObj hkvs, JObj kvs =>
        mret (JObj (dict_set "header" (JObj (dict_set field (JStr u) hkvs)) kvs))
    | _, _ => raise TypeError
    end
  else mret value_data.

(** The rewriting of the decoded attachment. *)
Definition anonymize_value_data (noise_scale : Q) (value_data : json) : M json :=
  body ← lift (Json.getitem value_data "body");
  match body, value_data with
  | JObj items, JObj kvs =>
      items' ← scale_body noise_scale items;
      let value_data := JObj (dict_set "body" (JObj items') kvs) in
      value_data ← replace_uuid "uuid" value_data;
      replace_uuid "source_data_point_id" value_data
  | _, _ => raise AttributeError
  end.

Section WithCodec.

(** The attachment codec, from the standard library: [None] stands for
    the [ValueError] these functions raise on malformed input.
    [str.encode] and [bytes.decode] are the identity on the model's
    byte strings. *)
Variable base64_decodebytes : string → option string.
Variable base64_encodebytes : string → string.
Variable json_loads : string → option json.
Variable json_dumps : json → string.

Definition decode_attachment (data : val) : M json :=
  match data with
  | VStr b64 =>
      match base64_decodebytes b64 ≫= json_loads with
      | Some value_data => mret value_data
      | None => raise ValueError
      end
  | _ => raise AttributeError
  end.

Definition encode_attachment (value_data : json) : string :=
  base64_encodebytes (json_dumps value_data).

(** [anonymize_observation]; [fuel] is the nesting depth [deepcopy] may
    descend. *)
Definition anonymize_observation (fuel : nat) (observation : val)
    (noise_scale : Q) : M val :=
  observation ← deepcopy fuel observation;
  id ← getitem observation "id";
  new_id ← _random_id id "Observation" 60000;
  setitem observation "id" (VInt new_id);;
  identifiers ← getitem observation "identifier" ≫= iter;
  for_each identifiers (λ identifier,
    u ← _random_uuid;
    setitem identifier "value" (VStr u));;
  reference ← getitem observation "subject" ≫= (λ subject, getitem subject "reference");
  match reference with
  | VStr reference =>
      let '(kind, _, id) := Py.partition "/" reference in
      id ← lift (Py.int id);
      new_id ← _random_id (VInt id) kind 40000;
      subject ← getitem observation "subject";
      setitem subject "reference" (VStr (kind +:+ "/" +:+ Py.str_of_int new_id));;
      data ← getitem observation "valueAttachment" ≫= (λ va, getitem va "data");
      value_data ← decode_attachment data;
      value_data ← anonymize_value_data noise_scale value_data;
      attachment ← getitem observation "valueAttachment";
      setitem attachment "data" (VStr (encode_attachment value_data));;
      mret observation
  | _ => raise AttributeError
  end.

End WithCodec.

(** The state of a freshly started interpreter holding objects [h]. *)
Definition fresh_state (h : gmap loc obj) (ints : list Z) (reals : list Q)
    (firsts lasts : list string) (ds : list date) : state :=
  State h ∅ ∅ 0 ints reals firsts lasts ds.

End Anon.

(** ** The records of [tests/testdata.py] *)

Module Testdata.
Import Anon.

Definition bp_attachment : json :=
  JObj [("body", JObj [
           ("effective_time_frame", JObj [("date_time", JStr "2024-04-10T08:36:00-01:00")]);
           ("systolic_blood_pressure", JObj [("unit", JStr "mmHg"); ("value", JInt 120)]);
           ("diastolic_blood_pressure", JObj [("unit", JStr "mmHg"); ("value", JInt 80)])]);
        ("header", JObj [
           ("uuid", JStr "ca29b9bd-a1ba-4157-8770-dad441df26e9");
           ("modality", JStr "sensed");
           ("schema_id", JObj [("name", JStr "blood-pressure"); ("version", JStr "3.1");
                               ("namespace", JStr "omh")]);
           ("creation_date_time", JStr "2024-04-10T08:36:00-01:00");
           ("external_datasheets", JArr [
              JObj [("datasheet_type", JStr "manufacturer");
                    ("datasheet_reference", JStr "https://ihealthlabs.com/products")]]);
           ("source_data_point_id", JStr "0b16ba05-1267-46cf-9d4a-9248c6958758");
           ("source_creation_date_time", JStr "2024-04-10T08:36:00-01:00")])].

(** A stand-in codec for running the model: the encoded text of
    [bp_attachment] is the token ["bp_attachment"]. *)
Definition base64_decodebytes (b64 : string) : option string := Some b64.
Definition base64_encodebytes (text : string) : string := text.
Definition json_loads (text : string) : option json :=
  if String.eqb text "bp_attachment" then Some bp_attachment else None.
Definition json_dumps (j : json) : string := "anonymized_attachment".

Definition user : obj :=
  ODict [("id", VInt 10001); ("email", VStr "user@real.example.org");
         ("firstName", VStr "User"); ("lastName", VStr "Name");
         ("patient", VInt 40001)].

Definition patient : obj :=
  ODict [("id", VInt 45439); ("jheUserId", VInt 19259);
         ("identifier", VStr "some-external-id");
         ("nameFamily", VStr "Williams"); ("nameGiven", VStr "Heather");
         ("birthDate", VStr "1967-12-09");
         ("telecomPhone", VStr "(801) 555-1233");
         ("telecomEmail", VStr "heather.williams@example.edu");
         ("organizationId", VInt 20026)].

(** The example of the [get_patient] docstring: no phone number. *)
Definition patient_without_phone : obj :=
  ODict [("id", VInt 45439); ("jheUserId", VInt 19259);
         ("identifier", VStr "some-external-id");
         ("nameFamily", VStr "Williams"); ("nameGiven", VStr "Heather");
         ("birthDate", VStr "1955-06-01");
         ("telecomPhone", VNone);
         ("telecomEmail", VStr "heather.williams@example.edu");
         ("organizationId", VInt 20026)].

(** A patient whose phone number is the placeholder itself. *)
Definition patient_with_placeholder_phone : obj :=
  ODict [("id", VInt 45440); ("jheUserId", VInt 19260);
         ("identifier", VStr "another-external-id");
         ("nameFamily", VStr "Dorsey"); ("nameGiven", VStr "Brittany");
         ("birthDate", VStr "1977-02-08");
         ("telecomPhone", VStr "(510) 555-1234");
         ("telecomEmail", VStr "brittany.dorsey@example.edu");
         ("organizationId", VInt 20026)].

(** [bp_record], one object per location. *)
Definition bp_record : list (loc * obj) :=
  [(10, ODict [("resourceType", VStr "Observation"); ("id", VStr "54322");
               ("identifier", VRef 11); ("meta", VRef 13); ("status", VStr "final");
               ("subject", VRef 14); ("code", VRef 15); ("valueAttachment", VRef 18)]);
   (11, OList [VRef 12]);
   (12, ODict [("value", VStr "abc-1234"); ("system", VStr "https://commonhealth.org")]);
   (13, ODict [("lastUpdated", VStr "2024-10-09T17:04:36.617988+00:00")]);
   (14, ODict [("reference", VStr "Patient/12345")]);
   (15, ODict [("coding", VRef 16)]);
   (16, OList [VRef 17]);
   (17, ODict [("code", VStr "omh:blood-pressure:4.0");
               ("system", VStr "https://w3id.org/openmhealth")]);
   (18, ODict [("data", VStr "bp_attachment"); ("contentType", VStr "application/json")])]%positive.

Definition objects : gmap loc obj :=
  list_to_map ([(1, user); (2, patient); (3, patient_without_phone);
                (4, patient_with_placeholder_phone)]%positive ++ bp_record).

Definition start : state :=
  fresh_state objects [4321; 9; 9; 777; 12345] [1 # 16; 3 # 4]%Q
    ["Alice"; "Carol"] ["Baker"; "Doe"] [Date 1980 2 29; Date 2001 11 5].

(** A later observation of [patient], and a state that holds both. *)
Definition followup : list (loc * obj) :=
  [(20, ODict [("resourceType", VStr "Observation"); ("id", VInt 63500);
               ("identifier", VRef 21); ("status", VStr "final");
               ("subject", VRef 23); ("valueAttachment", VRef 24)]);
   (21, OList [VRef 22]);
   (22, ODict [("value", VStr "def-5678"); ("system", VStr "https://commonhealth.org")]);
   (23, ODict [("reference", VStr "Patient/45439")]);
   (24, ODict [("data", VStr "bp_attachment"); ("contentType", VStr "application/json")])]%positive.

Definition visit : state :=
  fresh_state (list_to_map ((2%positive, patient) :: followup))
    [4321; 9; 777] [1 # 16; 3 # 4]%Q ["Alice"] ["Baker"] [Date 1980 2 29].

(** An observation whose identifier has no ["value"]. *)
Definition unnamed : list (loc * obj) :=
  [(30, ODict [("resourceType", VStr "Observation"); ("id", VInt 63501);
               ("identifier", VRef 31); ("subject", VRef 33);
               ("valueAttachment", VRef 34)]);
   (31, OList [VRef 32]);
   (32, ODict [("system", VStr "https://commonhealth.org")]);
   (33, ODict [("reference", VStr "Patient/45439")]);
   (34, ODict [("data", VStr "bp_attachment"); ("contentType", VStr "application/json")])]%positive.

Definition unnamed_start : state :=
  fresh_state (list_to_map unnamed) [4321; 9] [1 # 16; 3 # 4]%Q [] [] [].

(** A state whose next [random.random()] is [0.0625]. *)
Definition noise_state : state :=
  fresh_state ∅ [] [1 # 16]%Q [] [] [].

(** A state whose next [random.random()] is the largest there is,
    [1 - 2^-53]. *)
Definition last_draw_state : state :=
  fresh_state ∅ [] [9007199254740991 # 9007199254740992]%Q [] [] [].

End Testdata.

Section WalkerFacts.
Import Walker.

Lemma limit_zero_never_reached records :
  limit_reached (Some 0) records = limit_reached None records.
Proof. reflexivity. Qed.

Lemma scan_entries_limit_zero entries seen records nr :
  scan_entries (Some 0) entries seen records nr
  = scan_entries None entries seen records nr.
Proof.
  revert seen records nr.
  induction entries as [|e es IH]; intros seen records nr; simpl; [done|].
  destruct (entry_key (unwrap e)); try done.
  destruct (decide _); [apply IH|].
  by rewrite IH.
Qed.

Lemma walk_limit_zero api fuel kwargs r requests records seen :
  walk api fuel (Some 0) kwargs r requests records seen
  = walk api fuel None kwargs r requests records seen.
Proof.
  revert kwargs r requests records seen.
  induction fuel as [|fuel IH]; intros; simpl; [done|].
  destruct (Json.getitem r "entry" ≫= Json.iter) as [entries| |]; try done.
  rewrite scan_entries_limit_zero.
  destruct (scan_entries None entries seen records false) as [ys [seen' records' nr| |e]];
    try done.
  destruct (find_next r) as [next_url| |]; try done.
  destruct (Json.truthy next_url && nr); [|done].
  destruct next_url; try done.
  destruct (api _ _); try done.
  by rewrite IH.
Qed.

Lemma key_of_Some e k : key_of e = Some k ↔ entry_key e = Ret k.
Proof. unfold key_of. destruct (entry_key e); naive_solver. Qed.

(** What one pass over a page does. *)
Lemma scan_entries_spec limit entries seen records nr ys res :
  scan_entries limit entries seen records nr = (ys, res) →
  let ks := omap key_of ys in
  length ks = length ys ∧ NoDup ks ∧ (∀ k, k ∈ ks → k ∉ seen) ∧
  ys `sublist_of` (unwrap <$> entries) ∧
  match res with
  | ScanDone seen' records' nr' =>
      seen' = list_to_set ks ∪ seen ∧
      records' = records + Z.of_nat (length ys) ∧
      nr' = nr || bool_decide (ys ≠ []) ∧
      Forall (λ e, ∃ k, key_of (unwrap e) = Some k ∧ k ∈ seen') entries
  | _ => True
  end.
Proof.
  revert seen records nr ys res.
  induction entries as [|e es IH]; intros seen records nr ys res; simpl.
  { intros [= <- <-]. simpl. repeat split; try constructor; try set_solver; try lia.
    by destruct nr. }
  destruct (entry_key (unwrap e)) as [k| |] eqn:Hk.
  2,3: intros [= <- <-]; simpl; repeat split; try constructor; try set_solver;
       apply sublist_nil_l.
  apply key_of_Some in Hk.
  destruct (decide (k ∈ seen)) as [Hin|Hnin].
  - intros H. apply IH in H as (Hlen & Hnd & Hfresh & Hsub & Hres).
    repeat split; try done.
    + by apply sublist_cons.
    + destruct res as [seen' records' nr'| |]; try done.
      destruct Hres as (-> & -> & -> & Hall). repeat split; try done.
      constructor; [|done]. exists k. split; [done|set_solver].
  - destruct (limit_reached limit (records + 1)).
    + intros [= <- <-].
      assert (Hom : omap key_of [unwrap e] = [k]) by (simpl; by rewrite Hk).
      cbv zeta. rewrite Hom. repeat split; try done.
      * apply NoDup_singleton.
      * intros k' ->%list_elem_of_singleton. done.
      * apply sublist_skip, sublist_nil_l.
    + destruct (scan_entries limit es ({[k]} ∪ seen) (records + 1) true)
        as [ys' res'] eqn:Hscan.
      intros [= <- <-]. apply IH in Hscan as (Hlen & Hnd & Hfresh & Hsub & Hres).
      assert (Hom : omap key_of (unwrap e :: ys') = k :: omap key_of ys')
        by (simpl; by rewrite Hk).
      cbv zeta. rewrite Hom. repeat split.
      * cbn [length]. by rewrite Hlen.
      * constructor; [|done]. intros Hin. apply Hfresh in Hin. set_solver.
      * intros k' [->|Hin]%elem_of_cons; [done|]. apply Hfresh in Hin. set_solver.
      * by apply sublist_skip.
      * destruct res' as [seen' records' nr'| |]; try done.
        destruct Hres as (-> & -> & -> & Hall). repeat split.
        -- set_solver.
        -- cbn [length]. lia.
        -- by rewrite orb_true_r.
        -- constructor; [|done]. exists k. split; [done|set_solver].
Qed.

Lemma yields_app tr1 tr2 : yields (tr1 ++ tr2) = yields tr1 ++ yields tr2.
Proof. apply omap_app. Qed.

Lemma yields_map_yield ys : yields (EvYield <$> ys) = ys.
Proof. induction ys as [|y ys IH]; [done|]. unfold yields in *. cbn. by rewrite IH. Qed.

Lemma yields_page ys rq tr :
  yields ((EvYield <$> ys) ++ EvRequest rq :: tr) = ys ++ yields tr.
Proof. by rewrite yields_app, yields_map_yield. Qed.

(** Keys of the entries a walk yields: all present, all distinct, none
    seen before. *)
Lemma walk_keys api fuel limit kwargs r requests records seen tr st :
  walk api fuel limit kwargs r requests records seen = (tr, st) →
  let ks := omap key_of (yields tr) in
  length ks = length (yields tr) ∧ NoDup ks ∧ ∀ k, k ∈ ks → k ∉ seen.
Proof.
  revert kwargs r requests records seen tr st.
  induction fuel as [|fuel IH]; intros kwargs r requests records seen tr st; simpl.
  { intros [= <- <-]. repeat split; [constructor|set_solver]. }
  destruct (Json.getitem r "entry" ≫= Json.iter) as [entries| |].
  2,3: intros [= <- <-]; repeat split; [constructor|set_solver].
  destruct (scan_entries limit entries seen records false) as [ys res] eqn:Hscan.
  apply scan_entries_spec in Hscan as (Hlen & Hnd & Hfresh & _ & Hres).
  assert (Hpage : ∀ tr0 st0, (EvYield <$> ys, st0) = (tr0, st) →
    length (omap key_of (yields tr0)) = length (yields tr0)
    ∧ NoDup (omap key_of (yields tr0))
    ∧ ∀ k, k ∈ omap key_of (yields tr0) → k ∉ seen).
  { intros tr0 st0 [= <- _]. by rewrite yields_map_yield. }
  destruct res as [seen' records' nr| |e]; [|by apply Hpage..].
  destruct Hres as (-> & -> & -> & _).
  destruct (find_next r) as [next_url| |]; [|by apply Hpage..].
  destruct (Json.truthy next_url && _); [|by apply Hpage].
  destruct next_url; try by apply Hpage.
  destruct (api _ _) as [r'| |].
  2,3: intros [= <- <-]; rewrite yields_app, yields_map_yield; simpl;
       by rewrite app_nil_r.
  destruct (walk api fuel _ _ _ _ _ _) as [tr' st'] eqn:Hwalk.
  apply IH in Hwalk as (Hlen' & Hnd' & Hfresh').
  intros [= <- <-]. cbv zeta. rewrite yields_page, omap_app. repeat split.
  - rewrite !length_app. by rewrite Hlen, Hlen'.
  - apply NoDup_app. repeat split; try done.
    intros k Hk Hk'. apply Hfresh' in Hk'. set_solver.
  - intros k [Hk|Hk]%elem_of_app; [by apply Hfresh|].
    apply Hfresh' in Hk. set_solver.
Qed.

Lemma paced_lookup b tr :
  paced b tr = true → fetch_follows_yield tr.
Proof.
  revert b. induction tr as [|ev tr IH]; intros b Hp i rq Hi; [done|].
  destruct i as [|i].
  - destruct tr as [|ev' tr]; [done|]. simpl in Hi. injection Hi as ->.
    destruct ev as [rq'|e]; [|by exists e].
    simpl in Hp. by rewrite andb_false_r in Hp.
  - simpl in Hi. change ((ev :: tr) !! S i) with (tr !! i).
    destruct ev; simpl in Hp.
    + apply andb_true_iff in Hp as [_ Hp]. by eapply IH.
    + by eapply IH.
Qed.

Lemma paced_yields ys b tr :
  ys ≠ [] → paced true tr = true → paced b ((EvYield <$> ys) ++ tr) = true.
Proof.
  intros Hne Hp. destruct ys as [|y ys]; [done|]. simpl. clear Hne.
  induction ys as [|y' ys IH]; [done|]. done.
Qed.

Lemma paced_only_yields ys b : paced b (EvYield <$> ys) = true.
Proof. revert b. induction ys as [|y ys IH]; intros b; [done|]. simpl. apply IH. Qed.

Lemma walk_paced api fuel limit kwargs r requests records seen tr st :
  walk api fuel limit kwargs r requests records seen = (tr, st) →
  paced false tr = true.
Proof.
  revert kwargs r requests records seen tr st.
  induction fuel as [|fuel IH]; intros kwargs r requests records seen tr st; simpl.
  { by intros [= <- <-]. }
  destruct (Json.getitem r "entry" ≫= Json.iter) as [entries| |].
  2,3: by intros [= <- <-].
  destruct (scan_entries limit entries seen records false) as [ys res] eqn:Hscan.
  apply scan_entries_spec in Hscan as (_ & _ & _ & _ & Hres).
  destruct res as [seen' records' nr| |e].
  2,3: intros [= <- <-]; apply paced_only_yields.
  destruct Hres as (_ & _ & -> & _). simpl.
  destruct (find_next r) as [next_url| |].
  2,3: intros [= <- <-]; apply paced_only_yields.
  destruct (Json.truthy next_url); simpl.
  2: intros [= <- <-]; apply paced_only_yields.
  case_bool_decide as Hne; simpl.
  2: intros [= <- <-]; apply paced_only_yields.
  destruct next_url; try (intros [= <- <-]; apply paced_only_yields).
  destruct (api _ _) as [r'| |].
  2,3: intros [= <- <-]; by apply paced_yields.
  destruct (walk api fuel _ _ _ _ _ _) as [tr' st'] eqn:Hwalk.
  apply IH in Hwalk. intros [= <- <-]. apply paced_yields; [done|].
  simpl. done.
Qed.

Lemma scan_links_not_cut links next_url : scan_links links next_url ≠ Cut.
Proof.
  revert next_url. induction links as [|l ls IH]; intros u; [done|]. simpl.
  destruct (Json.getitem l "relation") as [rel| |] eqn:Hrel; simpl; try done.
  - destruct (Json.eq_str rel "next"); [|apply IH].
    destruct (Json.getitem l "url") as [url| |] eqn:Hurl; simpl; try done.
    destruct l; try done. simpl in Hurl. by destruct (dict_get _ _).
  - destruct l; try done. simpl in Hrel. by destruct (dict_get _ _).
Qed.

Lemma find_next_not_cut r : find_next r ≠ Cut.
Proof.
  destruct r as [| | | | | |kvs]; try done. simpl.
  destruct (Json.truthy _); [|done].
  destruct (Json.iter _) as [ls| |] eqn:Hiter; simpl; try done.
  - apply scan_links_not_cut.
  - by destruct (default JNull (dict_get "link" kvs)).
Qed.

(** A page without a single new entry ends the walk at once. *)
Lemma walk_stale_page api fuel limit kwargs r requests records seen entries :
  Json.getitem r "entry" ≫= Json.iter = Ret entries →
  Forall (λ e, ∃ k, key_of (unwrap e) = Some k ∧ k ∈ seen) entries →
  ∃ st, walk api (S fuel) limit kwargs r requests records seen = ([], st)
        ∧ st ≠ Cut
        ∧ (st = Ret () ∨ ∃ e, st = Raise e ∧ find_next r = Raise e).
Proof.
  intros Hentries Hall. simpl. rewrite Hentries.
  assert (Hscan : scan_entries limit entries seen records false
                  = ([], ScanDone seen records false)).
  { generalize false. clear Hentries.
    induction Hall as [|e es (k & Hk & Hin) _ IH]; intros nr; [done|].
    simpl. apply key_of_Some in Hk. rewrite Hk.
    rewrite decide_True by done. apply IH. }
  rewrite Hscan. simpl.
  destruct (find_next r) as [next_url|e|] eqn:Hnext.
  - rewrite andb_false_r. eauto.
  - eauto 10.
  - by apply find_next_not_cut in Hnext.
Qed.

Lemma upto_yield_yields ys tr n :
  (n ≤ length ys)%nat →
  upto_yield ((EvYield <$> ys) ++ tr) n = EvYield <$> take n ys.
Proof.
  revert n. induction ys as [|y ys IH]; intros n Hn.
  - assert (n = 0%nat) as -> by (simpl in Hn; lia). by destruct tr.
  - destruct n as [|n]; [done|]. cbn. f_equal. apply IH. simpl in Hn. lia.
Qed.

Lemma upto_yield_page ys rq tr n :
  (length ys < n)%nat →
  upto_yield ((EvYield <$> ys) ++ EvRequest rq :: tr) n
  = (EvYield <$> ys) ++ EvRequest rq :: upto_yield tr (n - length ys).
Proof.
  revert n. induction ys as [|y ys IH]; intros n Hn.
  - destruct n as [|n]; [simpl in Hn; lia|]. done.
  - destruct n as [|n]; [simpl in Hn; lia|]. cbn. f_equal.
    apply IH. simpl in Hn. lia.
Qed.

(** A limit [k] cuts one pass over a page exactly where the count of
    records reaches [k]. *)
Lemma scan_entries_limit entries seen records nr ys res k :
  0 ≤ records < k →
  scan_entries None entries seen records nr = (ys, res) →
  scan_entries (Some k) entries seen records nr
  = if decide (records + Z.of_nat (length ys) < k) then (ys, res)
    else (take (Z.to_nat (k - records)) ys, ScanReturn).
Proof.
  revert seen records nr ys res.
  induction entries as [|e es IH]; intros seen records nr ys res Hk; simpl.
  { intros [= <- <-]. simpl. rewrite decide_True by lia. done. }
  destruct (entry_key (unwrap e)) as [key| |].
  2,3: intros [= <- <-]; simpl; by rewrite decide_True by lia.
  destruct (decide (key ∈ seen)); [by apply IH|].
  destruct (scan_entries None es _ _ _) as [ys' res'] eqn:Hscan.
  intros [= <- <-]. cbn [length].
  destruct (decide (k = records + 1)) as [->|Hne].
  - assert ((records + 1 =? 0) = false) as -> by (apply Z.eqb_neq; lia).
    rewrite Z.leb_refl. simpl.
    rewrite decide_False by lia.
    replace (Z.to_nat (records + 1 - records)) with 1%nat by lia. done.
  - assert ((k <=? records + 1) = false) as -> by (apply Z.leb_gt; lia).
    rewrite andb_false_r.
    rewrite (IH _ (records + 1) _ _ _ ltac:(lia) Hscan).
    destruct (decide (records + 1 + _ < k)).
    + by rewrite decide_True by lia.
    + rewrite decide_False by lia.
      replace (Z.to_nat (k - records)) with (S (Z.to_nat (k - (records + 1)))) by lia.
      done.
Qed.

(** The trace of a walk starts with the yields of its first page. *)
Lemma walk_first_page api fuel limit kwargs r requests records seen entries tr st :
  Json.getitem r "entry" ≫= Json.iter = Ret entries →
  walk api (S fuel) limit kwargs r requests records seen = (tr, st) →
  ∃ rest, tr = (EvYield <$> (scan_entries limit entries seen records false).1) ++ rest.
Proof.
  simpl. intros ->.
  destruct (scan_entries limit entries seen records false) as [ys res]. simpl.
  assert (Hpage : ∀ st0, (EvYield <$> ys, st0) = (tr, st) →
            ∃ rest, tr = (EvYield <$> ys) ++ rest).
  { intros st0 [= <- _]. exists []. by rewrite app_nil_r. }
  destruct res as [seen' records' nr| |e]; [|by apply Hpage..].
  destruct (find_next r) as [next_url| |]; [|by apply Hpage..].
  destruct (Json.truthy next_url && nr); [|by apply Hpage].
  destruct next_url; try by apply Hpage.
  destruct (api _ _) as [r'| |]; [|intros [= <- _]; eauto..].
  destruct (walk api fuel _ _ _ _ _ _) as [tr' st'].
  intros [= <- _]; eauto.
Qed.

(** The same for a whole walk: with a limit, the trace is the unlimited
    one cut right after the yield that reaches the limit. *)
Lemma walk_limit api fuel kwargs r requests records seen tr st k :
  0 ≤ records < k →
  walk api fuel None kwargs r requests records seen = (tr, st) →
  walk api fuel (Some k) kwargs r requests records seen
  = if decide (records + Z.of_nat (length (yields tr)) < k) then (tr, st)
    else (upto_yield tr (Z.to_nat (k - records)), Ret ()).
Proof.
  revert kwargs r requests records seen tr st.
  induction fuel as [|fuel IH]; intros kwargs r requests records seen tr st Hk; simpl.
  { intros [= <- <-]. simpl. by rewrite decide_True by lia. }
  destruct (Json.getitem r "entry" ≫= Json.iter) as [entries| |] eqn:Hentries.
  2,3: intros [= <- <-]; simpl; by rewrite decide_True by lia.
  intros Hwalk.
  pose proof (walk_first_page api fuel None kwargs r requests records seen
                entries tr st Hentries) as Hfirst.
  simpl in Hfirst. rewrite Hentries in Hfirst. specialize (Hfirst Hwalk).
  destruct (scan_entries None entries seen records false) as [ys res] eqn:Hscan.
  rewrite (scan_entries_limit _ _ _ _ _ _ _ Hk Hscan).
  apply scan_entries_spec in Hscan as (_ & _ & _ & _ & Hres).
  destruct Hfirst as [rest Htr]. simpl in Htr.
  destruct (decide (records + Z.of_nat (length ys) < k)) as [Hlt|Hge].
  2: { rewrite decide_False.
       - rewrite Htr, upto_yield_yields by lia. done.
       - rewrite Htr, yields_app, yields_map_yield, length_app. lia. }
  assert (Hpage : ∀ st0, (EvYield <$> ys, st0) = (tr, st) →
    (EvYield <$> ys, st0)
    = if decide (records + Z.of_nat (length (yields tr)) < k) then (tr, st)
      else (upto_yield tr (Z.to_nat (k - records)), Ret ())).
  { intros st0 [= <- <-]. rewrite yields_map_yield. by rewrite decide_True. }
  revert Hwalk.
  destruct res as [seen' records' nr| |e]; [|by apply Hpage..].
  destruct Hres as (-> & -> & -> & _).
  destruct (find_next r) as [next_url| |]; [|by apply Hpage..].
  destruct (Json.truthy next_url && _); [|by apply Hpage].
  destruct next_url; try by apply Hpage.
  destruct (api _ _) as [r'| |].
  2,3: intros [= <- <-]; rewrite yields_app, yields_map_yield; simpl;
       rewrite app_nil_r; by rewrite decide_True.
  destruct (walk api fuel None _ _ _ _ _) as [tr' st'] eqn:Hwalk'.
  rewrite (IH _ _ _ (records + Z.of_nat (length ys)) _ _ _ ltac:(lia) Hwalk').
  intros [= <- <-]. rewrite yields_page, length_app.
  destruct (decide (records + Z.of_nat (length ys) + _ < k)).
  - by rewrite decide_True by lia.
  - rewrite decide_False by lia.
    rewrite upto_yield_page by lia. do 4 f_equal. lia.
Qed.

Lemma yields_cons_yield e tr : yields (EvYield e :: tr) = e :: yields tr.
Proof. reflexivity. Qed.

Lemma yields_cons_request rq tr : yields (EvRequest rq :: tr) = yields tr.
Proof. reflexivity. Qed.

Lemma upto_yield_count tr n :
  (n ≤ length (yields tr))%nat → length (yields (upto_yield tr n)) = n.
Proof.
  revert n. induction tr as [|ev tr IH]; intros n Hn.
  - simpl in Hn. by assert (n = 0%nat) as -> by lia.
  - destruct n as [|n]; [done|]. destruct ev as [rq|e]; cbn [upto_yield].
    + rewrite yields_cons_request in *. by apply IH.
    + rewrite yields_cons_yield in *. cbn [length] in *. f_equal. apply IH. lia.
Qed.

Lemma upto_yield_ends_with_yield tr n :
  (1 ≤ n ≤ length (yields tr))%nat →
  ∃ pre e, upto_yield tr n = pre ++ [EvYield e].
Proof.
  revert n. induction tr as [|ev tr IH]; intros n Hn.
  - simpl in Hn. lia.
  - destruct n as [|n]; [lia|]. destruct ev as [rq|e]; cbn [upto_yield].
    + rewrite yields_cons_request in Hn.
      destruct (IH (S n)) as (pre & e & ->); [exact Hn|]. by exists (EvRequest rq :: pre), e.
    + rewrite yields_cons_yield in Hn. cbn [length] in Hn. destruct n as [|n].
      * exists [], e. by destruct tr.
      * destruct (IH (S n)) as (pre & e' & ->); [lia|].
        by exists (EvYield e :: pre), e'.
Qed.

Lemma upto_yield_prefix tr n : upto_yield tr n `prefix_of` tr.
Proof.
  revert n. induction tr as [|ev tr IH]; intros n; [done|].
  destruct n as [|n]; [apply prefix_nil|].
  destruct ev; cbn; by apply prefix_cons.
Qed.

(** C10. Called with [limit=0] (or [limit=None]) the walker never takes the
    limit exit: the run is, event for event, the run without a limit, and
    yields every entry instead of none. *)
Theorem limit_zero_is_no_limit api fuel path kwargs :
  _fhir_list_api_request api fuel path (Some 0) kwargs
  = _fhir_list_api_request api fuel path None kwargs
  ∧ (∀ entries seen records nr,
       (scan_entries (Some 0) entries seen records nr).2 ≠ ScanReturn
       ∧ (scan_entries None entries seen records nr).2 ≠ ScanReturn)
  ∧ yields (_fhir_list_api_request two_pages 2 "Observation" (Some 0) []).1
    = [JObj [("id", JStr "1")]; JObj [("id", JStr "2")]; JObj [("id", JStr "3")]].
Proof.
  split; [|split].
  - unfold _fhir_list_api_request. destruct (api 0%nat _); try done.
    by rewrite walk_limit_zero.
  - intros entries seen records nr. rewrite scan_entries_limit_zero.
    assert (H : (scan_entries None entries seen records nr).2 ≠ ScanReturn); [|done].
    revert seen records nr. induction entries as [|e es IH]; intros; simpl; [done|].
    destruct (entry_key _); try done.
    destruct (decide _); [apply IH|].
    specialize (IH ({[a]} ∪ seen) (records + 1) true).
    by destruct (scan_entries None es _ _ _).
  - by vm_compute.
Qed.

(** C5. In one run of the walker no entry id is yielded twice: every
    yielded entry has an id, and these ids are pairwise distinct. One pass
    over a page yields a subsequence of the page's entries, none of them
    seen before, and each entry of the page is either yielded or was seen
    already. On the pages ["1","2"] and ["2","3"] the walker yields
    ["1","2","3"] in that order and stops. *)
Theorem walker_never_yields_twice api fuel path limit kwargs :
  (let tr := (_fhir_list_api_request api fuel path limit kwargs).1 in
   length (omap key_of (yields tr)) = length (yields tr)
   ∧ NoDup (omap key_of (yields tr)))
  ∧ (∀ entries seen records nr,
       let '(ys, res) := scan_entries limit entries seen records nr in
       ys `sublist_of` (unwrap <$> entries)
       ∧ length (omap key_of ys) = length ys
       ∧ (∀ k, k ∈ omap key_of ys → k ∉ seen)
       ∧ match res with
         | ScanDone seen' _ _ =>
             seen' = list_to_set (omap key_of ys) ∪ seen
             ∧ Forall (λ e, ∃ k, key_of (unwrap e) = Some k ∧ k ∈ seen') entries
         | _ => True
         end)
  ∧ _fhir_list_api_request two_pages 2 "Observation" None []
    = ([EvRequest (Request "Observation" true []);
        EvYield (JObj [("id", JStr "1")]);
        EvYield (JObj [("id", JStr "2")]);
        EvRequest (Request "https://jhe.example/fhir/r5/Observation?page=2" false []);
        EvYield (JObj [("id", JStr "3")])],
       Ret ()).
Proof.
  split; [|split].
  - unfold _fhir_list_api_request. destruct (api 0%nat _) as [r| |]; simpl.
    2,3: split; [done|constructor].
    destruct (walk api fuel limit kwargs r 0 0 ∅) as [tr st] eqn:Hwalk.
    apply walk_keys in Hwalk as (Hlen & Hnd & _). simpl. done.
  - intros entries seen records nr.
    destruct (scan_entries limit entries seen records nr) as [ys res] eqn:Hscan.
    apply scan_entries_spec in Hscan as (Hlen & _ & Hfresh & Hsub & Hres).
    repeat split; try done.
    destruct res as [seen' records' nr'| |]; try done.
    by destruct Hres as (-> & _ & _ & Hall).
  - by vm_compute.
Qed.

(** C3. A page whose entries were all seen before contributes nothing and
    ends the walk there: no event follows, in particular no request, and
    the walk terminates (normally, or with the exception raised by a
    malformed link list). In any run, every request after the first one
    comes directly after the yield of a new entry. *)
Theorem walker_stops_after_stale_page
    api fuel limit kwargs r requests records seen entries :
  Json.getitem r "entry" ≫= Json.iter = Ret entries →
  Forall (λ e, ∃ k, key_of (unwrap e) = Some k ∧ k ∈ seen) entries →
  (∃ st, walk api (S fuel) limit kwargs r requests records seen = ([], st)
         ∧ st ≠ Cut
         ∧ (st = Ret () ∨ ∃ e, st = Raise e ∧ find_next r = Raise e))
  ∧ ∀ path, fetch_follows_yield (_fhir_list_api_request api fuel path limit kwargs).1.
Proof.
  intros Hentries Hall. split; [by eapply walk_stale_page|].
  intros path. apply (paced_lookup true).
  unfold _fhir_list_api_request. destruct (api 0%nat _) as [r0| |]; try done.
  destruct (walk api fuel limit kwargs r0 0 0 ∅) as [tr st] eqn:Hwalk.
  apply walk_paced in Hwalk. simpl. done.
Qed.

Lemma walker_stops_after_stale_page_witness :
  (∃ st, walk two_pages 3 None [] stale_page 1 2 {[KStr "1"; KStr "2"]} = ([], st)
         ∧ st ≠ Cut
         ∧ (st = Ret () ∨ ∃ e, st = Raise e ∧ find_next stale_page = Raise e))
  ∧ ∀ path, fetch_follows_yield (_fhir_list_api_request two_pages 2 path None []).1.
Proof.
  apply (walker_stops_after_stale_page two_pages 2 None [] stale_page 1 2
           {[KStr "1"; KStr "2"]}
           [JObj [("resource", JObj [("id", JStr "2")])];
            JObj [("resource", JObj [("id", JStr "1")])]]).
  - reflexivity.
  - repeat constructor; eexists; (split; [reflexivity|set_solver]).
Defined.

(** C4, amended. With a limit [k >= 1], whenever the walk without a limit
    yields more than [k] entries, the walk with the limit yields exactly
    [k] entries and returns: its trace is the trace of the unlimited run
    cut right after the [k]-th yield, so it ends with that yield (also in
    the middle of a page) and holds no request that the unlimited run
    would not have made before it. *)
Theorem walker_limit_enforced api fuel path kwargs (k : Z) tr st :
  1 ≤ k →
  _fhir_list_api_request api fuel path None kwargs = (tr, st) →
  k < Z.of_nat (length (yields tr)) →
  let tr_k := upto_yield tr (Z.to_nat k) in
  _fhir_list_api_request api fuel path (Some k) kwargs = (tr_k, Ret ())
  ∧ Z.of_nat (length (yields tr_k)) = k
  ∧ (∃ pre e, tr_k = pre ++ [EvYield e])
  ∧ tr_k `prefix_of` tr.
Proof.
  intros Hk Hrun Hmore tr_k. subst tr_k. repeat split.
  - revert Hrun. unfold _fhir_list_api_request.
    destruct (api 0%nat _) as [r| |].
    2,3: intros [= <- <-]; simpl in Hmore; lia.
    destruct (walk api fuel None kwargs r 0 0 ∅) as [tr' st'] eqn:Hwalk.
    intros [= <- <-].
    rewrite (walk_limit _ _ _ _ _ 0 _ _ _ k ltac:(lia) Hwalk).
    change (yields (EvRequest _ :: tr')) with (yields tr') in Hmore.
    rewrite decide_False by lia. rewrite Z.sub_0_r.
    destruct (Z.to_nat k) as [|n] eqn:Hn; [lia|]. done.
  - rewrite upto_yield_count; lia.
  - apply upto_yield_ends_with_yield. lia.
  - apply upto_yield_prefix.
Qed.

Lemma walker_limit_enforced_witness :
  1 ≤ 2
  ∧ 2 < Z.of_nat (length (yields (_fhir_list_api_request two_pages 2 "Observation" None []).1))
  ∧ _fhir_list_api_request two_pages 2 "Observation" (Some 2) []
    = ([EvRequest (Request "Observation" true []);
        EvYield (JObj [("id", JStr "1")]);
        EvYield (JObj [("id", JStr "2")])], Ret ()).
Proof.
  split; [lia|]. split; [vm_compute; reflexivity|].
  apply (walker_limit_enforced two_pages 2 "Observation" [] 2
           (_fhir_list_api_request two_pages 2 "Observation" None []).1
           (_fhir_list_api_request two_pages 2 "Observation" None []).2).
  - lia.
  - reflexivity.
  - vm_compute. reflexivity.
Defined.
(** C4 as stated fails when the server repeats a page: the three pages
    hold the ids 1, 2 and 3, more than the limit 2, and the walk yields
    one entry only, for the second page brings nothing new and ends it. *)
Lemma walker_short_of_limit :
  remove_dups (page_keys repeated_page ++ page_keys repeated_page ++ page_keys last_page)
    = [KStr "1"; KStr "2"; KStr "3"]
  ∧ _fhir_list_api_request repeating_pages 3 "Observation" (Some 2) []
    = ([EvRequest (Request "Observation" true []);
        EvYield (JObj [("id", JStr "1")]);
        EvRequest (Request "https://jhe.example/fhir/r5/Observation?page=2" false [])],
       Ret ())
  ∧ (repeating_pages 0 (Request "Observation" true []),
     repeating_pages 1 (Request "https://jhe.example/fhir/r5/Observation?page=2" false []),
     repeating_pages 2 (Request "https://jhe.example/fhir/r5/Observation?page=2" false []))
    = (Ret repeated_page, Ret repeated_page, Ret last_page).
Proof. by vm_compute. Qed.

End WalkerFacts.

(** ** Facts about the builtins *)

Section PyFacts.

Import Py.

Lemma all_chars_app P a b :
  all_chars P (a +:+ b) = all_chars P a && all_chars P b.
Proof. induction a as [|c a IH]; simpl; [done|]. by rewrite IH, andb_assoc. Qed.

Lemma string_of_uint_plain u : all_chars plain_char (NilEmpty.string_of_uint u) = true.
Proof. induction u; simpl; try done; by rewrite IHu. Qed.

Lemma str_of_int_plain z : all_chars plain_char (Py.str_of_int z) = true.
Proof.
  unfold Py.str_of_int. destruct (Z.to_int z) as [u|u]; simpl.
  - apply string_of_uint_plain.
  - apply string_of_uint_plain.
Qed.

Lemma lstrip_plain s : all_chars plain_char s = true → Py.lstrip s = s.
Proof.
  destruct s as [|c s]; simpl; [done|]. intros H.
  apply andb_true_iff in H as [Hc _]. unfold plain_char in Hc.
  by destruct (Py.is_space c).
Qed.

Lemma rstrip_plain s : all_chars plain_char s = true → Py.rstrip s = s.
Proof.
  induction s as [|c s IH]; simpl; [done|]. intros H.
  apply andb_true_iff in H as [Hc Hs]. rewrite (IH Hs).
  unfold plain_char in Hc. destruct s; [|done]. by destruct (Py.is_space c).
Qed.

Lemma strip_plain s : all_chars plain_char s = true → Py.strip s = s.
Proof. intros H. unfold Py.strip. by rewrite lstrip_plain, rstrip_plain. Qed.

Lemma digits_string_of_uint u b :
  u ≠ Decimal.Nil ∨ b = true →
  Py.digits (NilEmpty.string_of_uint u) b = Some u.
Proof.
  revert b. induction u; intros b Hb; simpl;
    try (rewrite IHu by (by right); done).
  by destruct Hb as [ ? | -> ].
Qed.

Lemma int_string_of_int i :
  match i with Decimal.Pos u | Decimal.Neg u => u ≠ Decimal.Nil end →
  Py.int (NilEmpty.string_of_int i) = Ret (Z.of_int i).
Proof.
  intros Hnil. unfold Py.int. rewrite strip_plain.
  2: { destruct i; simpl; apply string_of_uint_plain. }
  destruct i as [u|u]; simpl.
  - destruct u; try done; simpl;
      rewrite digits_string_of_uint by (by right); done.
  - rewrite digits_string_of_uint by (by left). done.
Qed.

(** [int(str(z)) == z] *)
Lemma int_str_of_int z : Py.int (Py.str_of_int z) = Ret z.
Proof.
  unfold Py.str_of_int. rewrite int_string_of_int; [by rewrite DecimalZ.of_to|].
  destruct z; simpl; try done; apply Unsigned.to_uint_nonnil.
Qed.

Lemma partition_no_sep sep a b :
  lacks sep a = true →
  Py.partition sep (a +:+ String sep b) = (a, String sep EmptyString, b).
Proof.
  unfold lacks. induction a as [|c a IH]; simpl.
  - by rewrite Ascii.eqb_refl.
  - intros [Hc Ha]%andb_true_iff. rewrite (IH Ha).
    by destruct (Ascii.eqb c sep).
Qed.

(** The kind that [partition] splits off holds no separator. *)
Lemma partition_kind sep s kind m rest :
  Py.partition sep s = (kind, m, rest) →
  lacks sep kind = true.
Proof.
  revert kind m rest. induction s as [|c s IH]; simpl; intros kind m rest.
  - by intros [= <- _ _].
  - destruct (Ascii.eqb c sep) eqn:Hc; [by intros [= <- _ _]|].
    destruct (Py.partition sep s) as [[a m'] b]. intros [= <- _ _].
    unfold lacks in *. simpl. rewrite Hc. simpl. by eapply IH.
Qed.

Lemma str_of_int_inj z1 z2 : Py.str_of_int z1 = Py.str_of_int z2 → z1 = z2.
Proof.
  intros H. assert (Ret z1 = Ret z2) as [= ->]; [|done].
  by rewrite <-(int_str_of_int z1), <-(int_str_of_int z2), H.
Qed.

End PyFacts.

(** ** The state monad *)

Section MonadFacts.
Import Anon.
Context {A B : Type}.

Lemma bind_unfold (m : M A) (k : A → M B) s :
  (m ≫= k) s = match m s with
               | (Ret a, s') => k a s'
               | (Raise e, s') => (Raise e, s')
               | (Cut, s') => (Cut, s')
               end.
Proof. reflexivity. Qed.

Lemma bind_Ret_inv (m : M A) (k : A → M B) s b s' :
  (m ≫= k) s = (Ret b, s') →
  ∃ a s1, m s = (Ret a, s1) ∧ k a s1 = (Ret b, s').
Proof.
  rewrite bind_unfold. destruct (m s) as [[a|e|] s1]; try done. eauto.
Qed.

Lemma hoare_bind P (m : M A) (k : A → M B) Q Q' E :
  hoare P m Q E → (∀ a, hoare (Q a) (k a) Q' E) → hoare P (m ≫= k) Q' E.
Proof.
  intros Hm Hk s HP. rewrite bind_unfold. specialize (Hm s HP).
  destruct (m s) as [[a|e|] s1]; try done. by apply Hk.
Qed.

Lemma hoare_weaken (P P' : state → Prop) (m : M A) (Q Q' : A → state → Prop)
    (E E' : state → Prop) :
  hoare P' m Q' E' →
  (∀ s, P s → P' s) → (∀ a s, Q' a s → Q a s) → (∀ s, E' s → E s) →
  hoare P m Q E.
Proof.
  intros Hm HP HQ HE s Hs. specialize (Hm s (HP s Hs)).
  destruct (m s) as [[a|e|] s1]; auto.
Qed.

Lemma hoare_ret P (a : A) (Q : A → state → Prop) E :
  (∀ s, P s → Q a s) → hoare P (mret a) Q E.
Proof. intros H s Hs. by apply H. Qed.

Lemma hoare_raise P e (Q : A → state → Prop) (E : state → Prop) :
  (∀ s, P s → E s) → hoare P (raise e) Q E.
Proof. intros H s Hs. by apply H. Qed.

Lemma hoare_lift P (o : outcome A) (Q : A → state → Prop) (E : state → Prop) :
  (∀ s, P s → E s) → (∀ a s, o = Ret a → P s → Q a s) → hoare P (lift o) Q E.
Proof. intros HE HQ s Hs. unfold lift. destruct o; auto. Qed.

End MonadFacts.

(** ** The identifier cache *)

Section CacheFacts.
Import Anon.

Lemma draw_id_free start rev tape v rest :
  draw_id start rev tape = Some (v, rest) →
  rev !! v = None ∧ start ≤ v ≤ start + 10000.
Proof.
  induction tape as [|r tape IH]; simpl; [done|].
  destruct (rev !! randint start (start + 10000) r) eqn:Hr; [done|].
  intros [= <- <-]. split; [done|]. unfold randint.
  pose proof (Z.mod_pos_bound r (start + 10000 - start + 1) ltac:(lia)). lia.
Qed.

(** The retry loop ends as soon as the tape offers a free id. *)
Lemma draw_id_returns start rev tape r :
  r ∈ tape → rev !! randint start (start + 10000) r = None →
  is_Some (draw_id start rev tape).
Proof.
  intros Hin Hfree. induction tape as [|r' tape IH]; [by apply elem_of_nil in Hin|].
  simpl. destruct (rev !! randint start (start + 10000) r') eqn:Hr'; [|eauto].
  apply elem_of_cons in Hin as [->|Hin]; [congruence|by apply IH].
Qed.

Lemma later_refl s : later s s.
Proof. by split. Qed.

Lemma later_trans s1 s2 s3 : later s1 s2 → later s2 s3 → later s1 s3.
Proof. intros [? ?] [? ?]. split; by etrans. Qed.

Lemma cache_inv_fresh_state h ints reals firsts lasts ds :
  cache_inv (fresh_state h ints reals firsts lasts ds).
Proof. intros key v. simpl. by rewrite !lookup_empty. Qed.

(** What a returning call of [_random_id] has done. *)
Lemma random_id_inv id kind start s v s' :
  _random_id id kind start s = (Ret v, s') →
  ∃ text, str_of_val id = Some text
    ∧ _jhe_id_cache s' !! (kind +:+ "/" +:+ text) = Some v
    ∧ (∀ v0, _jhe_id_cache s !! (kind +:+ "/" +:+ text) = Some v0 → v0 = v ∧ s' = s)
    ∧ later s s'
    ∧ heap s' = heap s ∧ uuid_n s' = uuid_n s
    ∧ first_names s' = first_names s ∧ last_names s' = last_names s
    ∧ dates s' = dates s ∧ random_tape s' = random_tape s
    ∧ (cache_inv s → cache_inv s').
Proof.
  unfold _random_id. destruct (str_of_val id) as [text|]; [|done].
  intros Hrun. exists text. split; [done|]. revert Hrun.
  destruct (_jhe_id_cache s !! (kind +:+ "/" +:+ text)) as [cached|] eqn:Hc.
  { intros [= <- <-]. split_and!; try done; try apply later_refl.
    intros v0 ?; split; congruence. }
  destruct (draw_id _ _ _) as [[new_id rest]|] eqn:Hdraw; [|done].
  apply draw_id_free in Hdraw as [Hfree _].
  intros [= <- <-]. simpl. split_and!; try done.
  - apply lookup_insert_eq.
  - split; by apply insert_subseteq.
  - intros Hinv key v. simpl. rewrite !lookup_insert_Some.
    specialize (Hinv key v). split.
    + intros [[<- <-]|[Hne Hk]]; [by left|]. right. split; [|by apply Hinv].
      intros <-. apply Hinv in Hk. congruence.
    + intros [[<- <-]|[Hne Hk]]; [by left|]. right. split; [|by apply Hinv].
      intros <-. apply Hinv in Hk. congruence.
Qed.

(** The same with the new state spelled out. *)
Lemma random_id_state id kind start s v s' :
  _random_id id kind start s = (Ret v, s') →
  ∃ text jhe rev tape,
    s' = State (heap s) jhe rev (uuid_n s) tape (random_tape s)
           (first_names s) (last_names s) (dates s)
    ∧ str_of_val id = Some text
    ∧ jhe !! (kind +:+ "/" +:+ text) = Some v
    ∧ (∀ v0, _jhe_id_cache s !! (kind +:+ "/" +:+ text) = Some v0 → v0 = v)
    ∧ _jhe_id_cache s ⊆ jhe ∧ _reverse_id_cache s ⊆ rev.
Proof.
  intros H. pose proof H as (text & Htext & Hc & Hold & [Hj Hr] & Hrest)%random_id_inv.
  exists text, (_jhe_id_cache s'), (_reverse_id_cache s'), (randint_tape s').
  split_and!; try done.
  - destruct Hrest as (<- & <- & <- & <- & <- & <- & _). by destruct s'.
  - intros v0 Hv0. by apply Hold in Hv0 as [-> _].
Qed.

(** A cached pair is answered from the cache, whatever [start]. *)
Lemma random_id_cached id kind start s text v :
  str_of_val id = Some text →
  _jhe_id_cache s !! (kind +:+ "/" +:+ text) = Some v →
  _random_id id kind start s = (Ret v, s).
Proof. intros Ht Hc. unfold _random_id. by rewrite Ht, Hc. Qed.

(** [_random_id] returns when the pair is cached or the tape offers a
    free id. *)
Lemma random_id_returns id kind start s text r :
  str_of_val id = Some text →
  r ∈ randint_tape s →
  _reverse_id_cache s !! randint start (start + 10000) r = None →
  ∃ v s', _random_id id kind start s = (Ret v, s').
Proof.
  intros Ht Hin Hfree. unfold _random_id. rewrite Ht.
  destruct (_jhe_id_cache s !! _); [eauto|].
  destruct (draw_id_returns _ _ _ _ Hin Hfree) as [[v rest] ->]. eauto.
Qed.

Lemma random_id_stable id kind start start' s v s' s'' :
  _random_id id kind start s = (Ret v, s') →
  later s' s'' →
  _random_id id kind start' s'' = (Ret v, s'').
Proof.
  intros (text & Ht & Hc & _)%random_id_inv [Hsub _].
  eapply random_id_cached; [done|]. by eapply lookup_weaken.
Qed.

Lemma deanonymize_id_known v s kind id :
  Py.lacks "/" kind = true →
  _reverse_id_cache s !! v = Some (kind +:+ "/" +:+ Py.str_of_int id) →
  deanonymize_id v s = (Ret id, s).
Proof.
  intros Hkind Hrev. unfold deanonymize_id. rewrite Hrev.
  change (kind +:+ "/" +:+ Py.str_of_int id)
    with (kind +:+ String "/" (Py.str_of_int id)).
  rewrite partition_no_sep by done. by rewrite int_str_of_int.
Qed.

Lemma deanonymize_id_unknown x s :
  _reverse_id_cache s !! x = None → deanonymize_id x s = (Ret x, s).
Proof. intros H. unfold deanonymize_id. by rewrite H. Qed.

Lemma mapped_kind_lacks kind : mapped_kind kind → Py.lacks "/" kind = true.
Proof.
  intros [Hin|[reference ->]].
  - repeat (apply elem_of_cons in Hin as [->|Hin]; [done|]). by apply elem_of_nil in Hin.
  - destruct (Py.partition "/" reference) as [[kind m] rest] eqn:Hpart.
    by eapply partition_kind.
Qed.

(** C1. For every pair of a kind the transforms pass and a numeric id that
    [_random_id] has mapped through the cache, [deanonymize_id] gives back
    the original id from the synthetic id, now and in every later state of
    the caches; and an integer that the cache has never produced as a
    synthetic id is returned unchanged. The caches are those of the module:
    they mirror each other, as they do from the start and after every
    call. *)
Theorem deanonymize_id_inverts_random_id kind (id : Z) start s v s' :
  cache_inv s →
  mapped_kind kind →
  _random_id (VInt id) kind start s = (Ret v, s') →
  cache_inv s'
  ∧ (∀ s'', later s' s'' → deanonymize_id v s'' = (Ret id, s''))
  ∧ (∀ s0 x, cache_inv s0 → (∀ key, _jhe_id_cache s0 !! key ≠ Some x) →
       deanonymize_id x s0 = (Ret x, s0)).
Proof.
  intros Hinv Hkind%mapped_kind_lacks
    (text & [= <-] & Hc & _ & _ & _ & _ & _ & _ & _ & _ & Hinv')%random_id_inv.
  specialize (Hinv' Hinv). split_and!; [done| |].
  - intros s'' [_ Hsub]. apply (deanonymize_id_known _ _ kind); [done|].
    eapply lookup_weaken; [|done]. by apply Hinv'.
  - intros s0 x Hinv0 Hnever. apply deanonymize_id_unknown.
    destruct (_reverse_id_cache s0 !! x) as [key|] eqn:Hx; [|done].
    apply Hinv0 in Hx. by apply Hnever in Hx.
Qed.

Lemma deanonymize_id_inverts_random_id_witness :
  cache_inv Testdata.start
  ∧ _random_id (VInt 45439) "Patient" 40000 Testdata.start
    = (Ret 44321, (_random_id (VInt 45439) "Patient" 40000 Testdata.start).2)
  ∧ deanonymize_id 44321 (_random_id (VInt 45439) "Patient" 40000 Testdata.start).2
    = (Ret 45439, (_random_id (VInt 45439) "Patient" 40000 Testdata.start).2).
Proof.
  split; [apply cache_inv_fresh_state|]. split; [reflexivity|].
  apply (deanonymize_id_inverts_random_id "Patient" 45439 40000 Testdata.start 44321
           (_random_id (VInt 45439) "Patient" 40000 Testdata.start).2).
  - apply cache_inv_fresh_state.
  - left. right. left.
  - reflexivity.
  - apply later_refl.
Defined.

End CacheFacts.

(** ** Invariants of the transforms *)

Section FrameFacts.
Import Anon.

Lemma keeps_bind {A B} I (m : M A) (k : A → M B) φ ψ :
  keeps I m φ → (∀ a, φ a → keeps I (k a) ψ) → keeps I (m ≫= k) ψ.
Proof.
  intros Hm Hk. unfold keeps. eapply hoare_bind; [exact Hm|].
  intros a s [HI Hφ]. by apply (Hk a Hφ s).
Qed.

Lemma keeps_weaken {A} I (m : M A) (φ ψ : A → Prop) :
  keeps I m φ → (∀ a, φ a → ψ a) → keeps I m ψ.
Proof.
  intros Hm Hφ s HI. specialize (Hm s HI).
  destruct (m s) as [[a|e|] s1]; naive_solver.
Qed.

Lemma keeps_ret {A} I (a : A) (φ : A → Prop) : φ a → keeps I (mret a) φ.
Proof. intros Ha s HI. by split. Qed.

Lemma keeps_raise {A} I e (φ : A → Prop) : keeps I (raise e) φ.
Proof. by intros s HI. Qed.

Lemma keeps_cut {A} I (φ : A → Prop) : keeps I cut φ.
Proof. by intros s HI. Qed.

Lemma keeps_lift {A} I (o : outcome A) (φ : A → Prop) :
  (∀ a, o = Ret a → φ a) → keeps I (lift o) φ.
Proof. intros Ho s HI. unfold lift. destruct o; naive_solver. Qed.

Lemma keeps_lift_any {A} I (o : outcome A) : keeps I (lift o) (λ _, True).
Proof. by apply keeps_lift. Qed.

Lemma keeps_reads {A} I (f : gmap loc obj → outcome A) (φ : A → Prop) :
  (∀ s a, I s → f (heap s) = Ret a → φ a) → keeps I (reads f) φ.
Proof.
  intros Hf s HI. unfold reads. specialize (Hf s).
  destruct (f (heap s)); naive_solver.
Qed.

Lemma keeps_for_each {A} I (xs : list A) (body : A → M unit) :
  (∀ x, x ∈ xs → keeps I (body x) (λ _, True)) →
  keeps I (for_each xs body) (λ _, True).
Proof.
  induction xs as [|x xs IH]; intros Hbody; simpl.
  - by apply keeps_ret.
  - eapply keeps_bind; [apply Hbody; by left|]. intros _ _.
    apply IH. intros y Hy. apply Hbody. by right.
Qed.

(** Calls that leave the store alone and at most add cache entries. *)
Lemma keeps_stable {A} I (m : M A) :
  stable I → (∀ s, heap (m s).2 = heap s ∧ later s (m s).2) →
  keeps I m (λ _, True).
Proof.
  intros HI Hm s Hs. destruct (Hm s) as [Hh Hl].
  destruct (m s) as [[a|e|] s1]; simpl in *; eauto.
Qed.

Lemma keeps_random_random I : stable I → keeps I random_random (λ _, True).
Proof.
  intros HI. apply keeps_stable; [done|]. intros s. unfold random_random.
  destruct (random_tape s); simpl; split; try done; apply later_refl.
Qed.

Lemma keeps_faker_first_name I : stable I → keeps I faker_first_name (λ _, True).
Proof.
  intros HI. apply keeps_stable; [done|]. intros s. unfold faker_first_name.
  destruct (first_names s); simpl; split; try done; apply later_refl.
Qed.

Lemma keeps_faker_last_name I : stable I → keeps I faker_last_name (λ _, True).
Proof.
  intros HI. apply keeps_stable; [done|]. intros s. unfold faker_last_name.
  destruct (last_names s); simpl; split; try done; apply later_refl.
Qed.

Lemma keeps_faker_date_between I : stable I → keeps I faker_date_between (λ _, True).
Proof.
  intros HI. apply keeps_stable; [done|]. intros s. unfold faker_date_between.
  destruct (dates s); simpl; split; try done; apply later_refl.
Qed.

Lemma keeps_random_uuid I : stable I → keeps I _random_uuid (λ _, True).
Proof.
  intros HI. apply keeps_stable; [done|]. intros s. simpl. split; [done|by split].
Qed.

Lemma keeps_random_id I id kind start :
  stable I → keeps I (_random_id id kind start) (λ _, True).
Proof.
  intros HI. apply keeps_stable; [done|]. intros s.
  destruct (_random_id id kind start s) as [[v|e|] s'] eqn:Hrun.
  - apply random_id_inv in Hrun as (? & ? & ? & ? & ? & ? & _). done.
  - unfold _random_id in Hrun. repeat case_match; simplify_eq.
  - unfold _random_id in Hrun. repeat case_match; simplify_eq;
      (split; [done|apply later_refl]).
Qed.

Lemma keeps_synthetic_email I first last :
  keeps I (synthetic_email first last) (λ _, True).
Proof.
  unfold synthetic_email. repeat case_match; (by apply keeps_ret) || apply keeps_cut.
Qed.

Variable s0 : state.

Lemma kept_stable : stable (kept s0).
Proof.
  intros s s' Hh Hl [Hc Hs]. split; [by eapply later_trans|]. by rewrite Hh.
Qed.

Lemma isolated_stable : stable (isolated s0).
Proof.
  intros s s' Hh Hl [Hk Hsep]. split; [by eapply kept_stable|]. by rewrite Hh.
Qed.

Lemma kept_set_heap s h :
  kept s0 s → heap s0 ⊆ h → kept s0 (set_heap h s).
Proof. intros [Hl _] Hh. by split. Qed.

Lemma keeps_alloc_kept o : keeps (kept s0) (alloc o) (is_new s0).
Proof.
  intros s Hk. simpl.
  assert (Hfresh : heap s !! fresh (dom (heap s)) = None)
    by (apply not_elem_of_dom, is_fresh).
  assert (Hnew : heap s0 !! fresh (dom (heap s)) = None).
  { destruct Hk as [_ Hsub]. eapply lookup_weaken_None; done. }
  split; [|done]. apply kept_set_heap; [done|].
  apply insert_subseteq_r; [done|apply Hk].
Qed.

Lemma keeps_setitem_kept v k x :
  is_new s0 v → keeps (kept s0) (setitem v k x) (λ _, True).
Proof.
  intros Hv s Hk. unfold setitem. destruct v as [| | | | |l]; try done.
  destruct (heap s !! l) as [[kvs|xs]|]; try done.
  split; [|done]. apply kept_set_heap; [done|].
  apply insert_subseteq_r; [done|apply Hk].
Qed.

Lemma keeps_alloc_isolated o :
  Forall (is_new s0) (obj_vals o) → keeps (isolated s0) (alloc o) (is_new s0).
Proof.
  intros Ho s [Hk Hsep]. pose proof (keeps_alloc_kept o s Hk) as Hkept.
  simpl in *. destruct Hkept as [Hkept Hnew]. split; [|done]. split; [done|].
  intros l o' Hl Hl0. simpl in Hl. apply lookup_insert_Some in Hl as [[_ <-]|[_ Hl]];
    [done|by eapply Hsep].
Qed.

Lemma is_new_dict_set k x kvs :
  is_new s0 x → Forall (is_new s0) kvs.*2 → Forall (is_new s0) (dict_set k x kvs).*2.
Proof.
  intros Hx. induction kvs as [|[k' y] kvs IH]; simpl.
  - intros _. by repeat constructor.
  - intros [Hy Hkvs]%Forall_cons. destruct (String.eqb k k'); simpl.
    + by constructor.
    + constructor; [done|by apply IH].
Qed.

Lemma keeps_setitem_isolated v k x :
  is_new s0 v → is_new s0 x → keeps (isolated s0) (setitem v k x) (λ _, True).
Proof.
  intros Hv Hx s [Hk Hsep]. pose proof (keeps_setitem_kept v k x Hv s Hk) as Hkept.
  unfold setitem in *. destruct v as [| | | | |l]; try done.
  destruct (heap s !! l) as [[kvs|xs]|] eqn:Hl; try done.
  destruct Hkept as [Hkept _]. split; [|done]. split; [done|].
  intros l' o' Hl' Hl0. simpl in Hl'.
  apply lookup_insert_Some in Hl' as [[<- <-]|[_ Hl']]; [|by eapply Hsep].
  simpl. apply is_new_dict_set; [done|]. by apply (Hsep l (ODict kvs)).
Qed.

Lemma dict_get_elem {A} k (kvs : list (string * A)) x :
  dict_get k kvs = Some x → x ∈ kvs.*2.
Proof.
  induction kvs as [|[k' y] kvs IH]; simpl; [done|].
  destruct (String.eqb k k'); [intros [= ->]; by left|]. intros H. right. by apply IH.
Qed.

Lemma keeps_getitem_new v k :
  is_new s0 v → keeps (isolated s0) (getitem v k) (is_new s0).
Proof.
  intros Hv. apply keeps_reads. intros s x [_ Hsep] Hget.
  unfold getitem_in in Hget. destruct v as [| | | | |l]; try done.
  destruct (heap s !! l) as [[kvs|xs]|] eqn:Hl; try done.
  destruct (dict_get k kvs) as [y|] eqn:Hy; try done. injection Hget as ->.
  specialize (Hsep l _ Hl Hv). simpl in Hsep.
  eapply Forall_forall in Hsep; [done|]. by eapply dict_get_elem.
Qed.

Lemma keeps_getitem I v k : keeps I (getitem v k) (λ _, True).
Proof. by apply keeps_reads. Qed.

Lemma keeps_truthy I v : keeps I (truthy v) (λ _, True).
Proof. by apply keeps_reads. Qed.

Lemma keeps_iter_new v :
  is_new s0 v → keeps (isolated s0) (iter v) (Forall (is_new s0)).
Proof.
  intros Hv. apply keeps_reads. intros s xs [_ Hsep] Hiter.
  unfold iter_in in Hiter. destruct v as [| | | |x|l]; try done.
  - injection Hiter as <-. apply Forall_fmap, Forall_true. done.
  - destruct (heap s !! l) as [[kvs|ys]|] eqn:Hl; try done; injection Hiter as <-.
    + apply Forall_fmap, Forall_true. done.
    + by apply (Hsep l (OList ys)).
Qed.

End FrameFacts.

(** ** Snapshots and [deepcopy] *)

Section CopyFacts.
Import Anon.

Lemma snapshot_mono n h h' v t :
  h ⊆ h' → snapshot n h v = Some t → snapshot n h' v = Some t.
Proof.
  intros Hsub. revert v t. induction n as [|n IH]; intros v t.
  - by destruct v.
  - destruct v as [| | | | |l]; try done. simpl.
    destruct (h !! l) as [o|] eqn:Hl; [|done].
    rewrite (lookup_weaken _ _ _ _ Hl Hsub). destruct o as [kvs|xs].
    + assert (Hf : ∀ ts, snapshot_fields (snapshot n h) kvs = Some ts →
                         snapshot_fields (snapshot n h') kvs = Some ts).
      { clear Hl. induction kvs as [|[k x] kvs IHk]; intros ts; simpl; [done|].
        destruct (snapshot n h x) as [tx|] eqn:Hx; [|done].
        rewrite (IH _ _ Hx).
        destruct (snapshot_fields (snapshot n h) kvs) as [ts'|]; [|done].
        by rewrite (IHk _ eq_refl). }
      destruct (snapshot_fields (snapshot n h) kvs) as [ts|]; [|done].
      by rewrite (Hf _ eq_refl).
    + assert (Hf : ∀ ts, snapshot_list (snapshot n h) xs = Some ts →
                         snapshot_list (snapshot n h') xs = Some ts).
      { clear Hl. induction xs as [|x xs IHx]; intros ts; simpl; [done|].
        destruct (snapshot n h x) as [tx|] eqn:Hx; [|done].
        rewrite (IH _ _ Hx).
        destruct (snapshot_list (snapshot n h) xs) as [ts'|]; [|done].
        by rewrite (IHx _ eq_refl). }
      destruct (snapshot_list (snapshot n h) xs) as [ts|]; [|done].
      by rewrite (Hf _ eq_refl).
Qed.

Lemma snapshot_fields_mono n h h' kvs ts :
  h ⊆ h' → snapshot_fields (snapshot n h) kvs = Some ts →
  snapshot_fields (snapshot n h') kvs = Some ts.
Proof.
  intros Hsub. revert ts. induction kvs as [|[k x] kvs IH]; intros ts; simpl; [done|].
  destruct (snapshot n h x) as [tx|] eqn:Hx; [|done].
  rewrite (snapshot_mono _ _ _ _ _ Hsub Hx).
  destruct (snapshot_fields (snapshot n h) kvs) as [ts'|]; [|done].
  by rewrite (IH _ eq_refl).
Qed.

Lemma snapshot_list_mono n h h' xs ts :
  h ⊆ h' → snapshot_list (snapshot n h) xs = Some ts →
  snapshot_list (snapshot n h') xs = Some ts.
Proof.
  intros Hsub. revert ts. induction xs as [|x xs IH]; intros ts; simpl; [done|].
  destruct (snapshot n h x) as [tx|] eqn:Hx; [|done].
  rewrite (snapshot_mono _ _ _ _ _ Hsub Hx).
  destruct (snapshot_list (snapshot n h) xs) as [ts'|]; [|done].
  by rewrite (IH _ eq_refl).
Qed.

Variable s0 : state.

Lemma copy_list_ok copy xs h xs' h' :
  copy_ok s0 copy → copy_list copy xs h = Some (xs', h') →
  h ⊆ h'
  ∧ (heap s0 ⊆ h → sep s0 h → sep s0 h' ∧ Forall (is_new s0) xs')
  ∧ (∀ m ts, snapshot_list (snapshot m h) xs = Some ts →
             snapshot_list (snapshot m h') xs' = Some ts).
Proof.
  intros Hcopy. revert h xs' h'. induction xs as [|x xs IH]; intros h xs' h'; simpl.
  { intros [= <- <-]. split_and!; [done| |done]. by intros _ ?. }
  destruct (copy x h) as [[x' h1]|] eqn:Hx; [|done].
  destruct (copy_list copy xs h1) as [[rest h2]|] eqn:Hrest; [|done].
  intros [= <- <-]. apply Hcopy in Hx as (Hsub1 & Hsep1 & Hsnap1).
  apply IH in Hrest as (Hsub2 & Hsep2 & Hsnap2). split_and!.
  - by etrans.
  - intros H0 Hsep. destruct (Hsep1 H0 Hsep) as [Hs1 Hn1].
    destruct (Hsep2 ltac:(by etrans) Hs1) as [Hs2 Hn2]. split; [done|].
    by constructor.
  - intros m ts. simpl.
    destruct (snapshot m h x) as [t|] eqn:Ht; [|done].
    rewrite (snapshot_mono _ _ _ _ _ Hsub2 (Hsnap1 _ _ Ht)).
    destruct (snapshot_list (snapshot m h) xs) as [ts'|] eqn:Hts; [|done].
    by rewrite (Hsnap2 _ _ (snapshot_list_mono _ _ _ _ _ Hsub1 Hts)).
Qed.

Lemma copy_fields_ok copy kvs h kvs' h' :
  copy_ok s0 copy → copy_fields copy kvs h = Some (kvs', h') →
  h ⊆ h'
  ∧ (heap s0 ⊆ h → sep s0 h → sep s0 h' ∧ Forall (is_new s0) kvs'.*2)
  ∧ (∀ m ts, snapshot_fields (snapshot m h) kvs = Some ts →
             snapshot_fields (snapshot m h') kvs' = Some ts).
Proof.
  intros Hcopy. revert h kvs' h'.
  induction kvs as [|[k x] kvs IH]; intros h kvs' h'; simpl.
  { intros [= <- <-]. split_and!; [done| |done]. by intros _ ?. }
  destruct (copy x h) as [[x' h1]|] eqn:Hx; [|done].
  destruct (copy_fields copy kvs h1) as [[rest h2]|] eqn:Hrest; [|done].
  intros [= <- <-]. apply Hcopy in Hx as (Hsub1 & Hsep1 & Hsnap1).
  apply IH in Hrest as (Hsub2 & Hsep2 & Hsnap2). split_and!.
  - by etrans.
  - intros H0 Hsep. destruct (Hsep1 H0 Hsep) as [Hs1 Hn1].
    destruct (Hsep2 ltac:(by etrans) Hs1) as [Hs2 Hn2]. split; [done|].
    by constructor.
  - intros m ts. simpl.
    destruct (snapshot m h x) as [t|] eqn:Ht; [|done].
    rewrite (snapshot_mono _ _ _ _ _ Hsub2 (Hsnap1 _ _ Ht)).
    destruct (snapshot_fields (snapshot m h) kvs) as [ts'|] eqn:Hts; [|done].
    by rewrite (Hsnap2 _ _ (snapshot_fields_mono _ _ _ _ _ Hsub1 Hts)).
Qed.

Lemma insert_fresh_sep (h : gmap loc obj) o :
  heap s0 ⊆ h → sep s0 h → Forall (is_new s0) (obj_vals o) →
  sep s0 (<[fresh (dom h) := o]> h) ∧ is_new s0 (VRef (fresh (dom h))).
Proof.
  intros H0 Hsep Ho. split.
  - intros l o' Hl Hl0. apply lookup_insert_Some in Hl as [[_ <-]|[_ Hl]];
      [done|by eapply Hsep].
  - simpl. eapply lookup_weaken_None; [|done]. apply not_elem_of_dom, is_fresh.
Qed.

Lemma deepcopy_in_ok n : copy_ok s0 (deepcopy_in n).
Proof.
  induction n as [|n IH]; intros v h v' h'.
  - destruct v; try done; intros [= <- <-]; split_and!; try done; by intros _ ?.
  - destruct v as [| | | | |l].
    1-5: intros [= <- <-]; split_and!; try done; by intros _ ?.
    simpl. destruct (h !! l) as [[kvs|xs]|] eqn:Hl; [| |done].
    + destruct (copy_fields (deepcopy_in n) kvs h) as [[kvs' h1]|] eqn:Hcopy; [|done].
      intros [= <- <-]. apply copy_fields_ok in Hcopy as (Hsub & Hsep & Hsnap); [|done].
      assert (Hfresh : h1 !! fresh (dom h1) = None) by apply not_elem_of_dom, is_fresh.
      split_and!.
      * etrans; [done|]. by apply insert_subseteq.
      * intros H0 Hs. destruct (Hsep H0 Hs) as [Hs1 Hn1].
        apply insert_fresh_sep; [by etrans|done|done].
      * intros [|m] t; [done|]. simpl. rewrite Hl, lookup_insert_eq.
        destruct (snapshot_fields (snapshot m h) kvs) as [ts|] eqn:Hts; [|done].
        intros [= <-].
        erewrite snapshot_fields_mono; [done|by apply insert_subseteq|].
        by apply Hsnap.
    + destruct (copy_list (deepcopy_in n) xs h) as [[xs' h1]|] eqn:Hcopy; [|done].
      intros [= <- <-]. apply copy_list_ok in Hcopy as (Hsub & Hsep & Hsnap); [|done].
      assert (Hfresh : h1 !! fresh (dom h1) = None) by apply not_elem_of_dom, is_fresh.
      split_and!.
      * etrans; [done|]. by apply insert_subseteq.
      * intros H0 Hs. destruct (Hsep H0 Hs) as [Hs1 Hn1].
        apply insert_fresh_sep; [by etrans|done|done].
      * intros [|m] t; [done|]. simpl. rewrite Hl, lookup_insert_eq.
        destruct (snapshot_list (snapshot m h) xs) as [ts|] eqn:Hts; [|done].
        intros [= <-].
        erewrite snapshot_list_mono; [done|by apply insert_subseteq|].
        by apply Hsnap.
Qed.

Lemma keeps_deepcopy n v : keeps (isolated s0) (deepcopy n v) (is_new s0).
Proof.
  intros s [[Hl H0] Hsep]. unfold deepcopy.
  destruct (deepcopy_in n v (heap s)) as [[v' h']|] eqn:Hcopy; [|done].
  apply deepcopy_in_ok in Hcopy as (Hsub & Hok & _).
  destruct (Hok H0 Hsep) as [Hsep' Hnew]. split; [|done]. split; [|done].
  split; [done|]. simpl. by etrans.
Qed.

End CopyFacts.

(** ** The transforms keep every object of the caller *)

Section TransformFrames.
Import Anon.
Variable s0 : state.

(** One step of a transform under [kept s0]. *)
Ltac kept_op :=
  first
    [ apply keeps_alloc_kept
    | apply keeps_setitem_kept; assumption
    | apply keeps_getitem
    | apply keeps_truthy
    | apply keeps_random_id, kept_stable
    | apply keeps_random_uuid, kept_stable
    | apply keeps_faker_first_name, kept_stable
    | apply keeps_faker_last_name, kept_stable
    | apply keeps_faker_date_between, kept_stable
    | apply keeps_synthetic_email ].

Ltac kept_walk :=
  lazymatch goal with
  | |- keeps _ (mret _) _ => apply keeps_ret; try done
  | |- keeps _ (_ ≫= _) _ => eapply keeps_bind; [kept_walk|intros ? ?; kept_walk]
  | |- keeps _ (if ?b then _ else _) _ => destruct b; kept_walk
  | |- keeps _ _ _ => kept_op
  end.

Lemma anonymize_user_kept user :
  keeps (kept s0) (anonymize_user user) (is_new s0).
Proof. unfold anonymize_user. kept_walk. Qed.

Lemma anonymize_patient_kept patient :
  keeps (kept s0) (anonymize_patient patient) (is_new s0).
Proof. unfold anonymize_patient. kept_walk. Qed.


Section ValueData.
Variable I : state → Prop.
Hypothesis I_stable : stable I.

Ltac stable_op :=
  first
    [ apply keeps_lift_any
    | apply keeps_random_random, I_stable
    | apply keeps_random_uuid, I_stable
    | apply keeps_raise
    | apply keeps_cut ].

Ltac stable_walk :=
  lazymatch goal with
  | |- keeps _ (mret _) _ => apply keeps_ret; try done
  | |- keeps _ (_ ≫= _) _ => eapply keeps_bind; [stable_walk|intros ? ?; stable_walk]
  | |- keeps _ (if ?b then _ else _) _ => destruct b; stable_walk
  | |- keeps _ (match ?x with _ => _ end) _ => destruct x; stable_walk
  | |- keeps _ _ _ => stable_op
  end.

Lemma keeps_scale_value value noise_scale :
  keeps I (_scale_value value noise_scale) (λ _, True).
Proof. unfold _scale_value. stable_walk. Qed.

Lemma keeps_scale_content noise_scale content :
  keeps I (scale_content noise_scale content) (λ _, True).
Proof.
  unfold scale_content.
  eapply keeps_bind; [apply keeps_lift_any|]. intros present _.
  destruct present; [|by apply keeps_ret].
  eapply keeps_bind; [apply keeps_lift_any|]. intros original _.
  eapply keeps_bind; [apply keeps_scale_value|]. intros new_value _.
  apply keeps_lift_any.
Qed.

Lemma keeps_scale_body noise_scale items :
  keeps I (scale_body noise_scale items) (λ _, True).
Proof.
  induction items as [|[field content] items IH]; simpl.
  - by apply keeps_ret.
  - eapply keeps_bind; [apply keeps_scale_content|]. intros content' _.
    eapply keeps_bind; [apply IH|]. intros rest' _. by apply keeps_ret.
Qed.

Lemma keeps_replace_uuid field value_data :
  keeps I (replace_uuid field value_data) (λ _, True).
Proof. unfold replace_uuid. stable_walk. Qed.

Lemma keeps_anonymize_value_data noise_scale value_data :
  keeps I (anonymize_value_data noise_scale value_data) (λ _, True).
Proof.
  unfold anonymize_value_data.
  eapply keeps_bind; [apply keeps_lift_any|]. intros body _.
  destruct body; try apply keeps_raise.
  destruct value_data; try apply keeps_raise.
  eapply keeps_bind; [apply keeps_scale_body|]. intros items' _.
  eapply keeps_bind; [apply keeps_replace_uuid|]. intros vd _.
  apply keeps_replace_uuid.
Qed.

Lemma keeps_decode_attachment b64 loads data :
  keeps I (decode_attachment b64 loads data) (λ _, True).
Proof.
  unfold decode_attachment. destruct data; try apply keeps_raise.
  destruct (_ ≫= _); [by apply keeps_ret|apply keeps_raise].
Qed.

End ValueData.

Lemma anonymize_observation_isolated b64d b64e loads dumps fuel observation noise_scale :
  keeps (isolated s0)
    (anonymize_observation b64d b64e loads dumps fuel observation noise_scale)
    (is_new s0).
Proof.
  unfold anonymize_observation.
  eapply keeps_bind; [apply keeps_deepcopy|]. intros obs Hobs.
  eapply keeps_bind; [apply keeps_getitem_new; assumption|]. intros id _.
  eapply keeps_bind; [apply keeps_random_id, isolated_stable|]. intros new_id _.
  eapply keeps_bind; [apply keeps_setitem_isolated; [assumption|done]|]. intros _ _.
  eapply keeps_bind.
  { eapply keeps_bind; [apply keeps_getitem_new; assumption|]. intros ids Hids.
    by apply keeps_iter_new. }
  intros identifiers Hidentifiers.
  eapply keeps_bind.
  { apply keeps_for_each. intros identifier Hin.
    eapply keeps_bind; [apply keeps_random_uuid, isolated_stable|]. intros u _.
    apply keeps_setitem_isolated; [|done].
    by eapply Forall_forall in Hidentifiers. }
  intros _ _.
  eapply keeps_bind.
  { eapply keeps_bind; [apply keeps_getitem_new; assumption|]. intros subject Hsubject.
    by apply keeps_getitem_new. }
  intros reference _.
  destruct reference; try apply keeps_raise.
  destruct (Py.partition "/" s) as [[kind m] id_text].
  eapply keeps_bind; [apply keeps_lift_any|]. intros id' _.
  eapply keeps_bind; [apply keeps_random_id, isolated_stable|]. intros new_id' _.
  eapply keeps_bind; [apply keeps_getitem_new; assumption|]. intros subject Hsubject.
  eapply keeps_bind; [apply keeps_setitem_isolated; [assumption|done]|]. intros _ _.
  eapply keeps_bind.
  { eapply keeps_bind; [apply keeps_getitem_new; assumption|]. intros va Hva.
    by apply keeps_getitem_new. }
  intros data _.
  eapply keeps_bind; [apply keeps_decode_attachment|]. intros value_data _.
  eapply keeps_bind; [apply keeps_anonymize_value_data, isolated_stable|].
  intros value_data' _.
  eapply keeps_bind; [apply keeps_getitem_new; assumption|]. intros attachment Hatt.
  eapply keeps_bind; [apply keeps_setitem_isolated; [assumption|done]|]. intros _ _.
  by apply keeps_ret.
Qed.

End TransformFrames.

(** ** Returning runs, step by step *)

Import Anon.

Lemma reads_inv {A} (f : gmap loc obj → outcome A) s a s' :
  reads f s = (Ret a, s') → s' = s ∧ f (heap s) = Ret a.
Proof. unfold reads. by intros [= -> ->]. Qed.

Lemma getitem_inv v k s x s' :
  getitem v k s = (Ret x, s') →
  s' = s ∧ ∃ l kvs, v = VRef l ∧ heap s !! l = Some (ODict kvs) ∧ dict_get k kvs = Some x.
Proof.
  intros [-> H]%reads_inv. split; [done|]. unfold getitem_in in H.
  destruct v as [| | | | |l]; try done.
  destruct (heap s !! l) as [[kvs|xs]|] eqn:Hl; try done.
  destruct (dict_get k kvs) as [y|] eqn:Hy; try done. injection H as ->.
  by exists l, kvs.
Qed.

Lemma setitem_inv v k x s u s' :
  setitem v k x s = (Ret u, s') →
  ∃ l kvs, v = VRef l ∧ heap s !! l = Some (ODict kvs)
           ∧ s' = set_heap (<[l := ODict (dict_set k x kvs)]> (heap s)) s.
Proof.
  unfold setitem. destruct v as [| | | | |l]; try done.
  destruct (heap s !! l) as [[kvs|xs]|] eqn:Hl; try done. intros [= _ <-]. eauto.
Qed.

Lemma alloc_inv o s v s' :
  alloc o s = (Ret v, s') →
  v = VRef (fresh (dom (heap s)))
  ∧ s' = set_heap (<[fresh (dom (heap s)) := o]> (heap s)) s.
Proof. by intros [= <- <-]. Qed.

Lemma faker_first_name_inv s n s' :
  faker_first_name s = (Ret n, s') →
  ∃ rest, first_names s = n :: rest
    ∧ s' = State (heap s) (_jhe_id_cache s) (_reverse_id_cache s) (uuid_n s)
             (randint_tape s) (random_tape s) rest (last_names s) (dates s).
Proof. unfold faker_first_name. destruct (first_names s); [done|]. intros [= <- <-]. eauto. Qed.

Lemma faker_last_name_inv s n s' :
  faker_last_name s = (Ret n, s') →
  ∃ rest, last_names s = n :: rest
    ∧ s' = State (heap s) (_jhe_id_cache s) (_reverse_id_cache s) (uuid_n s)
             (randint_tape s) (random_tape s) (first_names s) rest (dates s).
Proof. unfold faker_last_name. destruct (last_names s); [done|]. intros [= <- <-]. eauto. Qed.

Lemma faker_date_between_inv s d s' :
  faker_date_between s = (Ret d, s') →
  ∃ rest, dates s = d :: rest
    ∧ s' = State (heap s) (_jhe_id_cache s) (_reverse_id_cache s) (uuid_n s)
             (randint_tape s) (random_tape s) (first_names s) (last_names s) rest.
Proof. unfold faker_date_between. destruct (dates s); [done|]. intros [= <- <-]. eauto. Qed.

Lemma random_uuid_inv s u s' :
  _random_uuid s = (Ret u, s') →
  u = "u-u-i-d-" +:+ Py.str_of_int (uuid_n s + 1)
  ∧ s' = State (heap s) (_jhe_id_cache s) (_reverse_id_cache s) (uuid_n s + 1)
           (randint_tape s) (random_tape s) (first_names s) (last_names s) (dates s).
Proof. by intros [= <- <-]. Qed.

Lemma synthetic_email_inv first last s e s' :
  synthetic_email first last s = (Ret e, s') →
  s' = s ∧ ∃ a b, str_of_val first = Some a ∧ str_of_val last = Some b
    ∧ e = Py.lower (a +:+ "." +:+ b +:+ "@example.edu").
Proof.
  unfold synthetic_email.
  destruct (str_of_val first) as [a|], (str_of_val last) as [b|]; try done.
  intros [= <- <-]. split; [done|]. by exists a, b.
Qed.

Lemma mret_inv {A} (a b : A) s s' : mret (M := M) a s = (Ret b, s') → b = a ∧ s' = s.
Proof. by intros [= <- <-]. Qed.

Ltac peel H :=
  repeat
    match type of H with
    | (_ ≫= _) _ = (Ret _, _) =>
        let H1 := fresh "Hop" in
        apply bind_Ret_inv in H as (? & ? & H1 & H)
    end.

Lemma lookup_insert_fresh (h : gmap loc obj) l o o' :
  h !! l = Some o → <[fresh (dom h) := o']> h !! l = Some o.
Proof.
  intros Hl. rewrite lookup_insert_ne; [done|]. intros <-.
  apply (is_fresh (dom h)), elem_of_dom. eauto.
Qed.

(** Bring the inverted step [H] into the context, state by state. *)
Ltac heap_norm :=
  repeat first
    [ progress cbn [heap _jhe_id_cache _reverse_id_cache uuid_n randint_tape
                    random_tape first_names last_names dates set_heap] in *
    | progress simpl (dict_set _ _ _) in *
    | progress simpl (dict_get _ _) in *
    | progress simpl (str_of_val _) in *
    | rewrite insert_insert_eq in *
    | rewrite lookup_insert_eq in *
    | match goal with
      | H : <[?i := _]> _ !! ?j = _, Hne : ?i ≠ ?j |- _ =>
          rewrite (lookup_insert_ne _ _ _ _ Hne) in H
      | H : <[fresh (dom ?h) := ?o']> ?h !! ?l = _, Hl : ?h !! ?l = Some ?o |- _ =>
          rewrite (lookup_insert_fresh h l o o' Hl) in H
      end ].

Ltac step_inv H :=
  lazymatch type of H with
  | alloc _ _ = _ => apply alloc_inv in H as [-> ->]
  | getitem _ _ _ = _ =>
      let l := fresh "l" in let kvs := fresh "kvs" in
      let Hl := fresh "Hl" in let Hk := fresh "Hk" in
      apply getitem_inv in H as (-> & l & kvs & ? & Hl & Hk)
  | setitem _ _ _ _ = _ =>
      let l := fresh "l" in let kvs := fresh "kvs" in let Hl := fresh "Hl" in
      apply setitem_inv in H as (l & kvs & ? & Hl & ->)
  | faker_first_name _ = _ =>
      let Ht := fresh "Hfirst" in apply faker_first_name_inv in H as (? & Ht & ->)
  | faker_last_name _ = _ =>
      let Ht := fresh "Hlast" in apply faker_last_name_inv in H as (? & Ht & ->)
  | faker_date_between _ = _ =>
      let Ht := fresh "Hdate" in apply faker_date_between_inv in H as (? & Ht & ->)
  | _random_uuid _ = _ => apply random_uuid_inv in H as [-> ->]
  | synthetic_email _ _ _ = _ =>
      apply synthetic_email_inv in H as (-> & ? & ? & ? & ? & ->)
  | reads _ _ = _ => apply reads_inv in H as [-> H]
  | truthy _ _ = _ => apply reads_inv in H as [-> H]
  | mret _ _ = _ => apply mret_inv in H as [-> ->]
  end; heap_norm; simplify_eq.

Ltac step_random_id H :=
  let text := fresh "text" in
  let Htext := fresh "Htext" in let Hcache := fresh "Hcache" in
  let Hold := fresh "Hold" in let Hj := fresh "Hjhe" in let Hr := fresh "Hrev" in
  apply random_id_state in H
    as (text & ? & ? & ? & -> & Htext & Hcache & Hold & Hj & Hr);
  heap_norm; simplify_eq.

(** Invert every step of a returning run, in program order. *)
Ltac run_inv :=
  repeat
    match goal with
    | H : (_ ≫= _) ?si = (Ret _, ?so) |- _ =>
        lazymatch goal with
        | H' : _ = (Ret _, si) |- _ => fail
        | _ => peel H
        end
    | H : (if ?b then _ else _) ?si = (Ret _, ?so) |- _ =>
        lazymatch goal with
        | H' : _ = (Ret _, si) |- _ => fail
        | _ => destruct b
        end
    | H : _random_id _ _ _ ?si = (Ret _, ?so) |- _ =>
        lazymatch goal with
        | H' : _ = (Ret _, si) |- _ => fail
        | _ => step_random_id H
        end
    | H : _ ?si = (Ret _, ?so) |- _ =>
        lazymatch goal with
        | H' : _ = (Ret _, si) |- _ => fail
        | _ => step_inv H
        end
    end.

Lemma anonymize_user_inv user s out s' :
  anonymize_user user s = (Ret out, s') →
  ∃ kvs p idv text fn fns ln lns v,
    user = VRef p ∧ heap s !! p = Some (ODict kvs) ∧ dict_get "id" kvs = Some idv
    ∧ first_names s = fn :: fns ∧ last_names s = ln :: lns
    ∧ str_of_val idv = Some text
    ∧ _jhe_id_cache s' !! ("User/" +:+ text) = Some v
    ∧ (∀ v0, _jhe_id_cache s !! ("User/" +:+ text) = Some v0 → v0 = v)
    ∧ out = VRef (fresh (dom (heap s)))
    ∧ heap s' = <[fresh (dom (heap s)) :=
                   ODict [("firstName", VStr fn); ("lastName", VStr ln);
                          ("email", VStr (Py.lower (fn +:+ "." +:+ ln +:+ "@example.edu")));
                          ("patient", VNone); ("id", VInt v)]]> (heap s).
Proof.
  unfold anonymize_user. intros H. peel H.
  step_inv Hop. step_inv Hop0. step_inv Hop1. step_inv Hop2. step_inv Hop3.
  step_inv Hop4. step_inv Hop5. step_inv Hop6. step_inv Hop7. step_inv Hop8.
  step_inv Hop9.
  apply lookup_insert_Some in Hl as [[? ?]|[Hne Hl]]; [by simplify_eq|].
  run_inv.
  eexists _, _, _, _, _, _, _, _, _. split_and!; try done.
Qed.

Lemma truthy_in_mono h h' v b :
  h ⊆ h' → truthy_in h v = Ret b → truthy_in h' v = Ret b.
Proof.
  intros Hsub. destruct v as [| | | | |l]; try done. simpl.
  destruct (h !! l) as [o|] eqn:Hl; [|done].
  by rewrite (lookup_weaken _ _ _ _ Hl Hsub).
Qed.

Lemma truthy_in_fresh h o v b b' :
  truthy_in h v = Ret b → truthy_in (<[fresh (dom h) := o]> h) v = Ret b' → b' = b.
Proof.
  intros Hb Hb'. eapply truthy_in_mono in Hb.
  - rewrite Hb in Hb'. by injection Hb'.
  - apply insert_subseteq, not_elem_of_dom, is_fresh.
Qed.

Lemma anonymize_patient_inv patient s out s' :
  anonymize_patient patient s = (Ret out, s') →
  ∃ p kvs org phone mail ident idv uidv b1 b2 b3 fn fns ln lns d ds t1 t2 v1 v2,
    out = VRef (fresh (dom (heap s)))
    ∧ heap s' = <[fresh (dom (heap s)) :=
                   ODict (patient_fields org fn ln d (uuid_n s) v1 v2 b1 b2 b3)]> (heap s)
    ∧ patient = VRef p ∧ heap s !! p = Some (ODict kvs)
    ∧ dict_get "organizationId" kvs = Some org
    ∧ dict_get "telecomPhone" kvs = Some phone
    ∧ dict_get "telecomEmail" kvs = Some mail
    ∧ dict_get "identifier" kvs = Some ident
    ∧ dict_get "id" kvs = Some idv
    ∧ dict_get "jheUserId" kvs = Some uidv
    ∧ (∀ b, truthy_in (heap s) phone = Ret b → b1 = b)
    ∧ (∀ b, truthy_in (heap s) mail = Ret b → b2 = b)
    ∧ (∀ b, truthy_in (heap s) ident = Ret b → b3 = b)
    ∧ first_names s = fn :: fns ∧ last_names s = ln :: lns ∧ dates s = d :: ds
    ∧ str_of_val idv = Some t1 ∧ str_of_val uidv = Some t2
    ∧ _jhe_id_cache s' !! ("Patient/" +:+ t1) = Some v1
    ∧ _jhe_id_cache s' !! ("User/" +:+ t2) = Some v2
    ∧ (∀ v0, _jhe_id_cache s !! ("Patient/" +:+ t1) = Some v0 → v0 = v1)
    ∧ (∀ v0, _jhe_id_cache s !! ("User/" +:+ t2) = Some v0 → v0 = v2).
Proof.
  unfold anonymize_patient. intros H. run_inv.
  all: lazymatch type of Hop6 with _ = Ret ?b1 =>
       lazymatch type of Hop9 with _ = Ret ?b2 =>
       lazymatch type of Hop14 with _ = Ret ?b3 =>
         eexists _, _, _, _, _, _, _, _, b1, b2, b3, _, _, _, _, _, _, _, _, _, _
       end end end.
  all: split_and!; try done.
  all: try (intros b Hb; by eapply truthy_in_fresh).
  all: try (by eapply lookup_weaken).
  all: intros v0 Hv0; match goal with
       | Hold : ∀ v, _ !! _ = Some v → v = _ |- _ =>
           eapply Hold, lookup_weaken; done
       end.
Qed.

Lemma patient_fields_id org fn ln d n v1 v2 b1 b2 b3 :
  dict_get "id" (patient_fields org fn ln d n v1 v2 b1 b2 b3) = Some (VInt v1)
  ∧ dict_get "jheUserId" (patient_fields org fn ln d n v1 v2 b1 b2 b3) = Some (VInt v2)
  ∧ dict_get "organizationId" (patient_fields org fn ln d n v1 v2 b1 b2 b3) = Some org.
Proof. by destruct b1, b2, b3. Qed.

(** ** Claims about the transforms *)

Section TransformClaims.
Import Anon.

Lemma kept_refl s : kept s s.
Proof. split; [apply later_refl|done]. Qed.

Lemma isolated_refl s : isolated s s.
Proof. split; [apply kept_refl|]. intros l o Hl Hl'. congruence. Qed.

Lemma kept_unmodified s s' record : kept s s' → unmodified s s' record.
Proof. intros [_ Hsub]. split; [done|]. intros n t. by apply snapshot_mono. Qed.

Lemma keeps_run {A} (I : state → Prop) (m : M A) φ s :
  keeps I m φ → I s → I (m s).2.
Proof. intros Hm Hs. specialize (Hm s Hs). by destruct (m s) as [[a|e|] s']; [destruct Hm|..]. Qed.

(** C7. Each of the three transforms leaves the caller's record as it was,
    whether it returns or raises: every object that existed before the
    call is unchanged after it, so the record, with all its nested lists
    and dicts, unfolds to the same tree as before. *)
Theorem transforms_leave_input_unmodified
    b64d b64e loads dumps fuel (record : val) noise_scale s :
  unmodified s (anonymize_user record s).2 record
  ∧ unmodified s (anonymize_patient record s).2 record
  ∧ unmodified s
      (anonymize_observation b64d b64e loads dumps fuel record noise_scale s).2 record.
Proof.
  split_and!; apply kept_unmodified.
  - apply (keeps_run _ _ _ _ (anonymize_user_kept s record)), kept_refl.
  - apply (keeps_run _ _ _ _ (anonymize_patient_kept s record)), kept_refl.
  - apply (keeps_run _ _ _ _
             (anonymize_observation_isolated s b64d b64e loads dumps fuel record noise_scale)),
      isolated_refl.
Qed.

(** The observation of the test data, before and after a run. *)
Example bp_record_unmodified :
  let s' := (anonymize_observation Testdata.base64_decodebytes
               Testdata.base64_encodebytes Testdata.json_loads Testdata.json_dumps
               5 (VRef 10%positive) (1 # 5) Testdata.start).2 in
  snapshot 5 (heap s') (VRef 10%positive) = snapshot 5 (heap Testdata.start) (VRef 10%positive)
  ∧ is_Some (snapshot 5 (heap Testdata.start) (VRef 10%positive))
  ∧ snapshot 5 (heap s') (VRef 27%positive) ≠ snapshot 5 (heap Testdata.start) (VRef 10%positive).
Proof. vm_compute. split_and!; [done|by eexists|done]. Qed.

(** C8, amended. For a patient record with a phone number, an email
    address and an identifier, the returned record has the input's
    [organizationId]; each other field holds a synthetic value, chosen
    without looking at the input's value of that field: the generated names,
    the email address derived from them, the generated date, the
    placeholder phone number, the next [u-u-i-d-n], and the cache's ids for
    [id] and [jheUserId]. *)
Theorem anonymize_patient_fields p kvs org phone mail ident s out s' :
  heap s !! p = Some (ODict kvs) →
  dict_get "organizationId" kvs = Some org →
  dict_get "telecomPhone" kvs = Some phone →
  dict_get "telecomEmail" kvs = Some mail →
  dict_get "identifier" kvs = Some ident →
  truthy_in (heap s) phone = Ret true →
  truthy_in (heap s) mail = Ret true →
  truthy_in (heap s) ident = Ret true →
  anonymize_patient (VRef p) s = (Ret out, s') →
  ∃ l fn ln d idv uidv t1 t2 v1 v2,
    out = VRef l ∧ heap s !! l = None
    ∧ head (first_names s) = Some fn ∧ head (last_names s) = Some ln
    ∧ head (dates s) = Some d
    ∧ heap s' !! l = Some (ODict
        [("organizationId", org); ("nameGiven", VStr fn); ("nameFamily", VStr ln);
         ("telecomPhone", VStr "(510) 555-1234");
         ("telecomEmail", VStr (Py.lower (fn +:+ "." +:+ ln +:+ "@example.edu")));
         ("birthDate", VStr (strftime_ymd d));
         ("identifier", VStr ("u-u-i-d-" +:+ Py.str_of_int (uuid_n s + 1)));
         ("id", VInt v1); ("jheUserId", VInt v2)])
    ∧ dict_get "id" kvs = Some idv ∧ str_of_val idv = Some t1
    ∧ dict_get "jheUserId" kvs = Some uidv ∧ str_of_val uidv = Some t2
    ∧ _jhe_id_cache s' !! ("Patient/" +:+ t1) = Some v1
    ∧ _jhe_id_cache s' !! ("User/" +:+ t2) = Some v2.
Proof.
  intros Hp Horg Hphone Hmail Hident Hb1 Hb2 Hb3 Hrun.
  apply anonymize_patient_inv in Hrun
    as (p' & kvs' & org' & phone' & mail' & ident' & idv & uidv & b1 & b2 & b3
        & fn & fns & ln & lns & d & ds & t1 & t2 & v1 & v2
        & -> & Hheap & [= <-] & Hp' & Horg' & Hphone' & Hmail' & Hident' & Hid & Huid
        & H1 & H2 & H3 & Hfn & Hln & Hd & Ht1 & Ht2 & Hc1 & Hc2 & _).
  simplify_eq. rewrite (H1 _ Hb1), (H2 _ Hb2), (H3 _ Hb3) in Hheap.
  exists (fresh (dom (heap s))), fn, ln, d, idv, uidv, t1, t2, v1, v2.
  split_and!; try done.
  - apply not_elem_of_dom, is_fresh.
  - by rewrite Hfn.
  - by rewrite Hln.
  - by rewrite Hd.
  - by rewrite Hheap, lookup_insert_eq.
Qed.

Lemma anonymize_patient_fields_witness :
  ∃ l fn ln d idv uidv t1 t2 v1 v2,
    (anonymize_patient (VRef 2%positive) Testdata.start).1 = Ret (VRef l)
    ∧ heap Testdata.start !! l = None
    ∧ head (first_names Testdata.start) = Some fn
    ∧ head (last_names Testdata.start) = Some ln
    ∧ head (dates Testdata.start) = Some d
    ∧ heap (anonymize_patient (VRef 2%positive) Testdata.start).2 !! l = Some (ODict
        [("organizationId", VInt 20026); ("nameGiven", VStr fn); ("nameFamily", VStr ln);
         ("telecomPhone", VStr "(510) 555-1234");
         ("telecomEmail", VStr (Py.lower (fn +:+ "." +:+ ln +:+ "@example.edu")));
         ("birthDate", VStr (strftime_ymd d));
         ("identifier", VStr ("u-u-i-d-" +:+ Py.str_of_int (uuid_n Testdata.start + 1)));
         ("id", VInt v1); ("jheUserId", VInt v2)])
    ∧ dict_get "id" [("id", VInt 45439)] = Some idv ∧ str_of_val idv = Some t1
    ∧ dict_get "jheUserId" [("jheUserId", VInt 19259)] = Some uidv
    ∧ str_of_val uidv = Some t2
    ∧ _jhe_id_cache (anonymize_patient (VRef 2%positive) Testdata.start).2
        !! ("Patient/" +:+ t1) = Some v1
    ∧ _jhe_id_cache (anonymize_patient (VRef 2%positive) Testdata.start).2
        !! ("User/" +:+ t2) = Some v2.
Proof.
  destruct (anonymize_patient_fields 2%positive (obj_fields Testdata.patient) (VInt 20026) (VStr "(801) 555-1233")
              (VStr "heather.williams@example.edu") (VStr "some-external-id")
              Testdata.start
              (VRef 19%positive) (anonymize_patient (VRef 2%positive) Testdata.start).2)
    as (l & fn & ln & d & idv & uidv & t1 & t2 & v1 & v2 & Hout & H);
    [by vm_compute..|].
  exists l, fn, ln, d, idv, uidv, t1, t2, v1, v2.
  injection Hout as <-. destruct H as (? & ? & ? & ? & ? & ? & ? & ? & ? & ? & ?).
  split_and!; done.
Defined.

(** C8 as stated fails: a patient whose phone number already is the
    placeholder gets the very same phone number back. *)
Lemma anonymize_patient_phone_unchanged :
  (anonymize_patient (VRef 4%positive) Testdata.start).1 = Ret (VRef 19%positive)
  ∧ getitem_in (heap Testdata.start) (VRef 4%positive) "telecomPhone"
    = Ret (VStr "(510) 555-1234")
  ∧ getitem_in (heap (anonymize_patient (VRef 4%positive) Testdata.start).2) (VRef 19%positive)
      "telecomPhone"
    = getitem_in (heap Testdata.start) (VRef 4%positive) "telecomPhone"
  ∧ truthy_in (heap Testdata.start) (VStr "(510) 555-1234") = Ret true.
Proof. by vm_compute. Qed.

End TransformClaims.

(** ** Rounding *)

Section RoundingFacts.
Import Py Anon.

(** Linear arithmetic over [Q] with integers in it. *)
Ltac qlra :=
  rewrite ?inject_Z_plus in *;
  change (inject_Z 1) with 1%Q in *; change (inject_Z (-1)) with (-1)%Q in *;
  repeat match goal with
         | |- context [inject_Z ?z] =>
             let f := fresh "f" in set (f := inject_Z z) in *; clearbody f
         | _ : context [inject_Z ?z] |- _ =>
             let f := fresh "f" in set (f := inject_Z z) in *; clearbody f
         end;
  lra.

Lemma round_half_even_near (x : Q) :
  (inject_Z (round_half_even x) - (1 # 2) <= x)%Q
  ∧ (x <= inject_Z (round_half_even x) + (1 # 2))%Q.
Proof.
  unfold round_half_even. cbv zeta.
  pose proof (Qfloor_le x) as Hle. pose proof (Qlt_floor x) as Hlt.
  destruct (Qlt_le_dec (x - inject_Z (Qfloor x)) (1 # 2)) as [H1|H1]; [split; qlra|].
  destruct (Qlt_le_dec (1 # 2) (x - inject_Z (Qfloor x))) as [H2|H2]; [split; qlra|].
  destruct (Z.even (Qfloor x)); split; qlra.
Qed.

Lemma round_half_even_le_int (x : Q) (n : Z) :
  (x <= inject_Z n)%Q → round_half_even x ≤ n.
Proof.
  intros Hx. destruct (round_half_even_near x) as [Hlo _].
  assert (H : (inject_Z (round_half_even x) < inject_Z (n + 1))%Q) by qlra.
  rewrite <-Zlt_Qlt in H. lia.
Qed.

Lemma round_half_even_ge_int (x : Q) (n : Z) :
  (inject_Z n <= x)%Q → n ≤ round_half_even x.
Proof.
  intros Hx. destruct (round_half_even_near x) as [_ Hhi].
  assert (H : (inject_Z n < inject_Z (round_half_even x + 1))%Q) by qlra.
  rewrite <-Zlt_Qlt in H. lia.
Qed.

Lemma round_half_even_proper (x y : Q) :
  (x == y)%Q → round_half_even x = round_half_even y.
Proof.
  intros Hxy. unfold round_half_even. cbv zeta. rewrite (Qfloor_comp _ _ Hxy).
  destruct (Qlt_le_dec (x - inject_Z (Qfloor y)) (1 # 2)),
    (Qlt_le_dec (y - inject_Z (Qfloor y)) (1 # 2)); try qlra; [done|].
  destruct (Qlt_le_dec (1 # 2) (x - inject_Z (Qfloor y))),
    (Qlt_le_dec (1 # 2) (y - inject_Z (Qfloor y))); try qlra; done.
Qed.

Lemma round_half_even_mono (x y : Q) :
  (x <= y)%Q → round_half_even x ≤ round_half_even y.
Proof.
  intros Hxy. destruct (Qlt_le_dec x y) as [Hlt|Hge].
  - destruct (round_half_even_near x) as [Hx _], (round_half_even_near y) as [_ Hy].
    assert (H : (inject_Z (round_half_even x) < inject_Z (round_half_even y + 1))%Q)
      by qlra.
    rewrite <-Zlt_Qlt in H. lia.
  - rewrite (round_half_even_proper x y); [lia|]. lra.
Qed.

Lemma Qdiv_le_int (a : Q) (u n : Z) :
  0 < u → (a <= inject_Z (n * u))%Q → (a / inject_Z u <= inject_Z n)%Q.
Proof.
  intros Hu Ha. apply Qle_shift_div_r.
  - change 0%Q with (inject_Z 0). by rewrite <-Zlt_Qlt.
  - by rewrite <-inject_Z_mult.
Qed.

Lemma Qdiv_ge_int (a : Q) (u n : Z) :
  0 < u → (inject_Z (n * u) <= a)%Q → (inject_Z n <= a / inject_Z u)%Q.
Proof.
  intros Hu Ha. apply Qle_shift_div_l.
  - change 0%Q with (inject_Z 0). by rewrite <-Zlt_Qlt.
  - by rewrite <-inject_Z_mult.
Qed.

Lemma Qdiv_le_mono (a b : Q) (u : Z) :
  0 < u → (a <= b)%Q → (a / inject_Z u <= b / inject_Z u)%Q.
Proof.
  intros Hu Hab. apply Qmult_le_compat_r; [done|]. apply Qinv_le_0_compat.
  change 0%Q with (inject_Z 0). rewrite <-Zle_Qle. lia.
Qed.

Lemma spacing_pos a : 0 < spacing a.
Proof. unfold spacing. apply Z.pow_pos_nonneg; lia. Qed.

Lemma round_ulps_nonneg (a : Q) : (0 <= a)%Q → 0 ≤ round_ulps a.
Proof.
  intros Ha. unfold round_ulps. pose proof (spacing_pos a) as Hu.
  apply Z.mul_nonneg_nonneg; [|lia]. apply round_half_even_ge_int.
  apply Qdiv_ge_int; [done|]. by rewrite Z.mul_0_l.
Qed.

(** Rounding keeps the order. *)
Lemma round_ulps_mono (a b : Q) :
  (0 <= a)%Q → (a <= b)%Q → round_ulps a ≤ round_ulps b.
Proof.
  intros Ha Hab. unfold round_ulps, spacing.
  assert (Hna : 0 ≤ Qfloor a).
  { change 0 with (Qfloor 0). by apply Qfloor_resp_le. }
  assert (Hnab : Qfloor a ≤ Qfloor b) by by apply Qfloor_resp_le.
  pose proof (Z.log2_le_mono _ _ Hnab) as He.
  pose proof (Z.log2_nonneg (Qfloor a)) as Hea.
  set (na := Qfloor a) in *. set (nb := Qfloor b) in *.
  set (ea := Z.log2 na) in *. set (eb := Z.log2 nb) in *.
  destruct (decide (Z.max 0 (ea - 52) = Z.max 0 (eb - 52))) as [->|Hne].
  - assert (Hu : 0 < 2 ^ Z.max 0 (eb - 52)) by (apply Z.pow_pos_nonneg; lia).
    apply Z.mul_le_mono_nonneg_r; [lia|].
    by apply round_half_even_mono, Qdiv_le_mono.
  - assert (Hlt : ea < eb ∧ 52 < eb) by lia. destruct Hlt as [Hlt Heb].
    rewrite (Z.max_r 0 (eb - 52)) by lia.
    set (ka := Z.max 0 (ea - 52)).
    assert (Hka : 0 ≤ ka ≤ eb) by lia.
    assert (Hua : 0 < 2 ^ ka) by (apply Z.pow_pos_nonneg; lia).
    assert (Hub : 0 < 2 ^ (eb - 52)) by (apply Z.pow_pos_nonneg; lia).
    trans (2 ^ eb).
    + replace (2 ^ eb) with (2 ^ (eb - ka) * 2 ^ ka)
        by (rewrite <-Z.pow_add_r by lia; f_equal; lia).
      apply Z.mul_le_mono_nonneg_r; [lia|].
      apply round_half_even_le_int, Qdiv_le_int; [done|].
      rewrite <-Z.pow_add_r by lia. replace (eb - ka + ka) with eb by lia.
      pose proof (Qlt_floor a) as Hfl. fold na in Hfl.
      assert (Hn1 : na + 1 ≤ 2 ^ eb).
      { destruct (decide (na = 0)) as [->|Hn0].
        - pose proof (Z.pow_pos_nonneg 2 eb). lia.
        - pose proof (Z.log2_spec na ltac:(lia)) as [_ Hhi]. fold ea in Hhi.
          assert (2 ^ Z.succ ea ≤ 2 ^ eb) by (apply Z.pow_le_mono_r; lia). lia. }
      rewrite Zle_Qle in Hn1. apply Qlt_le_weak. eapply Qlt_le_trans; [exact Hfl|done].
    + replace (2 ^ eb) with (2 ^ 52 * 2 ^ (eb - 52)) at 1
        by (rewrite <-Z.pow_add_r by lia; f_equal; lia).
      apply Z.mul_le_mono_nonneg_r; [lia|].
      apply round_half_even_ge_int, Qdiv_ge_int; [done|].
      rewrite <-Z.pow_add_r by lia. replace (52 + (eb - 52)) with eb by lia.
      assert (Hnb : 0 < nb).
      { destruct (decide (0 < nb)); [done|].
        pose proof (Z.log2_nonpos nb ltac:(lia)) as Hz. fold eb in Hz. lia. }
      pose proof (Z.log2_spec nb Hnb) as [Hlo _]. fold eb in Hlo.
      rewrite Zle_Qle in Hlo. eapply Qle_trans; [exact Hlo|]. apply Qfloor_le.
Qed.

Lemma ulps_pos : 0 < ulps.
Proof. unfold ulps. by apply Z.pow_pos_nonneg. Qed.

Lemma round64_spec (x : Q) :
  ∃ m : Q, (m == inject_Z (round_ulps (Qabs x * inject_Z ulps)) / inject_Z ulps)%Q
           ∧ round64 x = if Qlt_le_dec x 0 then (- m)%Q else m.
Proof. eexists. split; [apply Qred_correct|done]. Qed.

Lemma round64_mono (x y : Q) : (x <= y)%Q → (round64 x <= round64 y)%Q.
Proof.
  intros Hxy. pose proof ulps_pos as HU.
  assert (HUq : (0 < inject_Z ulps)%Q).
  { change 0%Q with (inject_Z 0). by rewrite <-Zlt_Qlt. }
  assert (Hmag : ∀ a b, (0 <= a)%Q → (a <= b)%Q →
            (inject_Z (round_ulps (a * inject_Z ulps)) / inject_Z ulps
             <= inject_Z (round_ulps (b * inject_Z ulps)) / inject_Z ulps)%Q).
  { intros a b Ha Hab. apply Qdiv_le_mono; [done|]. rewrite <-Zle_Qle.
    apply round_ulps_mono.
    - apply Qmult_le_0_compat; [done|by apply Qlt_le_weak].
    - apply Qmult_le_compat_r; [done|by apply Qlt_le_weak]. }
  assert (Hpos : ∀ a, (0 <= a)%Q →
            (0 <= inject_Z (round_ulps (a * inject_Z ulps)) / inject_Z ulps)%Q).
  { intros a Ha. apply Qle_shift_div_l; [done|]. rewrite Qmult_0_l.
    change 0%Q with (inject_Z 0). rewrite <-Zle_Qle. apply round_ulps_nonneg.
    apply Qmult_le_0_compat; [done|by apply Qlt_le_weak]. }
  destruct (round64_spec x) as (mx & Hmx & ->), (round64_spec y) as (my & Hmy & ->).
  destruct (Qlt_le_dec x 0) as [Hx|Hx], (Qlt_le_dec y 0) as [Hy|Hy].
  - apply Qopp_le_compat. rewrite Hmx, Hmy.
    pose proof (Qabs_neg x ltac:(lra)) as Ex. pose proof (Qabs_neg y ltac:(lra)) as Ey.
    apply Hmag; [apply Qabs_nonneg|lra].
  - rewrite Hmx, Hmy.
    pose proof (Hpos (Qabs x) (Qabs_nonneg x)). pose proof (Hpos (Qabs y) (Qabs_nonneg y)).
    lra.
  - lra.
  - rewrite Hmx, Hmy.
    pose proof (Qabs_pos x ltac:(lra)) as Ex. pose proof (Qabs_pos y ltac:(lra)) as Ey.
    apply Hmag; [apply Qabs_nonneg|lra].
Qed.

Lemma of_Q_Fin (x y : Q) :
  of_Q x = Fin y ↔ y = round64 x ∧ (Qabs (round64 x) < inject_Z (2 ^ 1024))%Q.
Proof.
  unfold of_Q. cbv zeta. destruct (Qlt_le_dec (Qabs (round64 x)) _) as [H|H].
  - split; [by intros [= <-]|by intros [-> _]].
  - split; [done|]. intros [_ H']. lra.
Qed.

(** A result between two results that are finite is finite, and rounds to
    a float between theirs. *)
Lemma of_Q_between (a b x a' b' : Q) :
  between a b x → of_Q a = Fin a' → of_Q b = Fin b' →
  ∃ x', of_Q x = Fin x' ∧ between a' b' x'.
Proof.
  intros Hx [-> Ha]%of_Q_Fin [-> Hb]%of_Q_Fin. exists (round64 x).
  apply Qabs_Qlt_condition in Ha, Hb.
  assert (Hbetween : between (round64 a) (round64 b) (round64 x)).
  { destruct Hx as [[H1 H2]|[H1 H2]]; [left|right]; split; by apply round64_mono. }
  split; [|done]. apply of_Q_Fin. split; [done|]. apply Qabs_Qlt_condition.
  set (T := inject_Z (2 ^ 1024)) in *. clearbody T.
  destruct Hbetween as [[H1 H2]|[H1 H2]]; split; lra.
Qed.

Lemma between_scale (c a b x : Q) : between a b x → between (c * a) (c * b) (c * x).
Proof.
  intros Hx. destruct (Qlt_le_dec c 0) as [Hc|Hc].
  - assert (Hle : ∀ p q, (p <= q)%Q → (c * q <= c * p)%Q).
    { intros p q Hpq.
      assert (0 <= (- c) * (q - p))%Q by (apply Qmult_le_0_compat; lra). lra. }
    destruct Hx as [[H1 H2]|[H1 H2]]; [right|left]; split; by apply Hle.
  - assert (Hle : ∀ p q, (p <= q)%Q → (c * p <= c * q)%Q).
    { intros p q Hpq.
      assert (0 <= c * (q - p))%Q by (apply Qmult_le_0_compat; lra). lra. }
    destruct Hx as [[H1 H2]|[H1 H2]]; [left|right]; split; by apply Hle.
Qed.

Lemma between_scale_r (c a b x : Q) : between a b x → between (a * c) (b * c) (x * c).
Proof.
  intros Hx%(between_scale c). unfold between in *.
  rewrite !(Qmult_comm _ c). done.
Qed.

Lemma between_shift (c a b x : Q) : between a b x → between (c + a) (c + b) (c + x).
Proof. unfold between. intros [[? ?]|[? ?]]; [left|right]; split; lra. Qed.

Lemma fmul_Fin_l a b y : fmul a b = Fin y → ∃ x, a = Fin x.
Proof. destruct a, b; simpl; try done; eauto. by destruct (Qeq_bool _ _). Qed.

Lemma fadd_Fin_r a b y : fadd a b = Fin y → ∃ x, b = Fin x.
Proof. destruct a, b; simpl; try done; eauto. by destruct (Bool.eqb _ _). Qed.

End RoundingFacts.

(** ** The noise model *)

Section NoiseFacts.
Import Anon.

(** The noisy value is monotone in the offset: between two offsets for
    which it is finite, it is finite and lies between their values. *)
Lemma noisy_at_between (round_value noise_scale a b x lo hi : Q) :
  between a b x →
  noisy_at (Py.Fin round_value) (Py.Fin a) (Py.Fin noise_scale) = Py.Fin lo →
  noisy_at (Py.Fin round_value) (Py.Fin b) (Py.Fin noise_scale) = Py.Fin hi →
  ∃ y, noisy_at (Py.Fin round_value) (Py.Fin x) (Py.Fin noise_scale) = Py.Fin y
       ∧ between lo hi y.
Proof.
  unfold noisy_at. intros Hx Hlo Hhi.
  destruct (fadd_Fin_r _ _ _ Hlo) as (na & Hna), (fadd_Fin_r _ _ _ Hhi) as (nb & Hnb).
  rewrite Hna in Hlo. rewrite Hnb in Hhi.
  destruct (fmul_Fin_l _ _ _ Hna) as (ta & Hta), (fmul_Fin_l _ _ _ Hnb) as (tb & Htb).
  rewrite Hta in Hna. rewrite Htb in Hnb. simpl in *.
  destruct (of_Q_between _ _ _ _ _ (between_scale round_value _ _ _ Hx) Hta Htb)
    as (tx & -> & Htx).
  cbn [Py.fmul].
  destruct (of_Q_between _ _ _ _ _ (between_scale_r noise_scale _ _ _ Htx) Hna Hnb)
    as (nx & -> & Hnx).
  cbn [Py.fadd].
  apply (of_Q_between _ _ _ _ _ (between_shift round_value _ _ _ Hnx) Hlo Hhi).
Qed.

Lemma offset_between (r : Q) :
  (0 <= r)%Q → (r < 1)%Q →
  ∃ offset, Py.fsub (Py.Fin r) (Py.Fin (1 # 2)) = Py.Fin offset
            ∧ between (- (1 # 2)) (1 # 2) offset.
Proof.
  intros Hr0 Hr1. simpl.
  apply (of_Q_between (- (1 # 2)) (1 # 2)); [left; split; lra|by vm_compute..].
Qed.

(** Truncation moves a value toward zero by less than one. *)
Lemma trunc_toward_zero (y : Q) :
  between 0 y (inject_Z (Py.trunc y))
  ∧ (y - 1 < inject_Z (Py.trunc y))%Q ∧ (inject_Z (Py.trunc y) < y + 1)%Q.
Proof.
  unfold Py.trunc, between. destruct (Qlt_le_dec y 0) as [Hneg|Hpos].
  - pose proof (Qle_ceiling y) as Hle. pose proof (Qceiling_lt y) as Hlt.
    assert (Hc : (Qceiling y <= 0)%Z).
    { change 0%Z with (Qceiling 0). apply Qceiling_resp_le. lra. }
    rewrite Zle_Qle in Hc. unfold Z.sub in Hlt. rewrite inject_Z_plus in Hlt.
    set (n := inject_Z (Qceiling y)) in *. clearbody n.
    cbv [inject_Z Z.opp] in Hlt, Hc.
    split_and!; [right; split; lra|lra|lra].
  - pose proof (Qfloor_le y) as Hle. pose proof (Qlt_floor y) as Hlt.
    assert (Hf : (0 <= Qfloor y)%Z).
    { change 0%Z with (Qfloor 0). apply Qfloor_resp_le. lra. }
    rewrite Zle_Qle in Hf. rewrite inject_Z_plus in Hlt.
    set (n := inject_Z (Qfloor y)) in *. clearbody n.
    cbv [inject_Z] in Hlt, Hf.
    split_and!; [left; split; lra|lra|lra].
Qed.

Lemma noisy_between (round_value noise_scale r lo hi : Q) :
  (0 <= r)%Q → (r < 1)%Q →
  noisy_at (Py.Fin round_value) (Py.Fin (- (1 # 2))) (Py.Fin noise_scale) = Py.Fin lo →
  noisy_at (Py.Fin round_value) (Py.Fin (1 # 2)) (Py.Fin noise_scale) = Py.Fin hi →
  ∃ y, noisy round_value r noise_scale = Py.Fin y ∧ between lo hi y.
Proof.
  intros Hr0 Hr1 Hlo Hhi. unfold noisy.
  destruct (offset_between r Hr0 Hr1) as (offset & -> & Hoffset).
  by eapply noisy_at_between.
Qed.

(** C6, amended. The arithmetic is that of binary64. For every noise scale
    and every draw [r] of [random.random()] with [0 <= r < 1], the noisy
    value lies between the two values the formula
    [round_value + round_value * offset * noise_scale] takes for the
    offsets [-0.5] and [0.5], which are [round(v, -1) * (1 - s/2)] and
    [round(v, -1) * (1 + s/2)] as the formula rounds them, whenever these
    two are finite. A fractional input yields this noisy value, a
    fractional output; an integer input yields an integer output, the
    noisy value truncated toward zero, which is less than one away from it
    and between [0] and it. Whenever the call returns, the output has the
    kind of the input. *)
Theorem scale_value_bounds noise_scale r rest s :
  random_tape s = r :: rest → (0 <= r)%Q → (r < 1)%Q →
  (∀ x round_value lo hi,
     Py.round_tens_float x = Ret round_value →
     noisy_at (Py.Fin round_value) (Py.Fin (- (1 # 2))) (Py.Fin noise_scale) = Py.Fin lo →
     noisy_at (Py.Fin round_value) (Py.Fin (1 # 2)) (Py.Fin noise_scale) = Py.Fin hi →
     ∃ y, (_scale_value (JFloat x) noise_scale s).1 = Ret (JFloat y)
          ∧ between lo hi y)
  ∧ (∀ z round_value lo hi,
       Py.float_of_int (Py.round_tens z) = Ret round_value →
       noisy_at (Py.Fin round_value) (Py.Fin (- (1 # 2))) (Py.Fin noise_scale) = Py.Fin lo →
       noisy_at (Py.Fin round_value) (Py.Fin (1 # 2)) (Py.Fin noise_scale) = Py.Fin hi →
       ∃ y, (_scale_value (JInt z) noise_scale s).1 = Ret (JInt (Py.trunc y))
            ∧ between lo hi y
            ∧ between 0 y (inject_Z (Py.trunc y))
            ∧ (y - 1 < inject_Z (Py.trunc y))%Q ∧ (inject_Z (Py.trunc y) < y + 1)%Q)
  ∧ (∀ x out s', _scale_value (JFloat x) noise_scale s = (Ret out, s') →
                 ∃ y, out = JFloat y)
  ∧ (∀ z out s', _scale_value (JInt z) noise_scale s = (Ret out, s') →
                 ∃ n, out = JInt n).
Proof.
  intros Htape Hr0 Hr1. split_and!.
  3: { intros x out s'. unfold _scale_value.
       intros (rv & s1 & _ & (r' & s2 & _ & H)%bind_Ret_inv)%bind_Ret_inv.
       destruct (noisy rv r' noise_scale) as [y| |]; try done.
       apply mret_inv in H as [-> _]. by exists y. }
  3: { intros z out s'. unfold _scale_value.
       intros (r' & s1 & _ & (rv & s2 & _ & (n & s3 & _ & H)%bind_Ret_inv)%bind_Ret_inv)
                %bind_Ret_inv.
       apply mret_inv in H as [-> _]. by exists n. }
  - intros x round_value lo hi Hround Hlo Hhi.
    destruct (noisy_between _ _ r _ _ Hr0 Hr1 Hlo Hhi) as (y & Hy & Hbetween).
    exists y. split; [|done].
    unfold _scale_value. rewrite bind_unfold. unfold lift at 1. rewrite Hround.
    rewrite bind_unfold. unfold random_random. rewrite Htape. by rewrite Hy.
  - intros z round_value lo hi Hround Hlo Hhi.
    destruct (noisy_between _ _ r _ _ Hr0 Hr1 Hlo Hhi) as (y & Hy & Hbetween).
    exists y. split; [|split; [done|apply trunc_toward_zero]].
    unfold _scale_value. rewrite bind_unfold. unfold random_random. rewrite Htape.
    rewrite bind_unfold. unfold lift at 1. rewrite Hround.
    rewrite bind_unfold. unfold lift at 1. by rewrite Hy.
Qed.

Lemma scale_value_bounds_witness :
  (∃ y, (_scale_value (JFloat (13 # 2)) (1 # 4) Testdata.noise_state).1 = Ret (JFloat y)
        ∧ between (35 # 4) (45 # 4) y)
  ∧ (∃ y, (_scale_value (JInt 120) (1 # 4) Testdata.noise_state).1 = Ret (JInt (Py.trunc y))
          ∧ between 105 135 y ∧ Py.trunc y = 106).
Proof.
  destruct (scale_value_bounds (1 # 4) (1 # 16) [] Testdata.noise_state)
    as (Hfloat & Hint & _); [reflexivity|done|done|].
  split.
  - apply (Hfloat (13 # 2) 10%Q); by vm_compute.
  - destruct (Hint 120 120%Q 105%Q 135%Q) as (y & Hrun & Hy & _); [by vm_compute..|].
    exists y. split_and!; [done..|].
    assert (Hval : (_scale_value (JInt 120) (1 # 4) Testdata.noise_state).1
                   = Ret (JInt 106)) by by vm_compute.
    rewrite Hrun in Hval. by injection Hval.
Defined.

(** C6 as stated fails. For the integer [10], the scale [0.25] and the draw
    [0.0625] the noisy value is [8.90625], the cast gives [8], and the
    lower bound is [10 * (1 - 0.125) = 8.75]. For the float [10.0],
    the scale [0.3] and the draw [1 - 2^-53] the operations round up to
    [11.5], above [10 * (1 + s/2)] for the float [s] that [0.3] is. *)
Lemma scale_value_outside_bounds :
  (_scale_value (JInt 10) (1 # 4) Testdata.noise_state).1 = Ret (JInt 8)
  ∧ (inject_Z 8 < inject_Z (Py.round_tens 10) * (1 - (1 # 4) / 2))%Q
  ∧ (inject_Z 8 < inject_Z (Py.round_tens 10) * (1 + (1 # 4) / 2))%Q
  ∧ cast_like (JInt 10) (JInt 8) = JInt 8
  ∧ Py.round_tens_float 10 = Ret 10%Q
  ∧ (_scale_value (JFloat 10) (Py.round64 (3 # 10)) Testdata.last_draw_state).1
    = Ret (JFloat (23 # 2))
  ∧ (10 * (1 - Py.round64 (3 # 10) / 2) < 23 # 2)%Q
  ∧ (10 * (1 + Py.round64 (3 # 10) / 2) < 23 # 2)%Q.
Proof. by vm_compute. Qed.

End NoiseFacts.

(** ** Observations, step by step *)

Section ObservationFacts.
Import Anon.

Lemma dict_get_set_eq {A} k (x : A) kvs : dict_get k (dict_set k x kvs) = Some x.
Proof.
  induction kvs as [|[k' y] kvs IH]; simpl.
  - by rewrite String.eqb_refl.
  - destruct (String.eqb k k') eqn:Hk; simpl; by rewrite Hk.
Qed.

Lemma dict_get_set_ne {A} k k' (x : A) kvs :
  k' ≠ k → dict_get k' (dict_set k x kvs) = dict_get k' kvs.
Proof.
  intros Hne. induction kvs as [|[k0 y] kvs IH]; simpl.
  - by apply String.eqb_neq in Hne as ->.
  - destruct (String.eqb k k0) eqn:Hk; simpl.
    + apply String.eqb_eq in Hk as <-. by apply String.eqb_neq in Hne as ->.
    + by rewrite IH.
Qed.

Lemma getitem_in_set_eq h l kvs k x :
  getitem_in (<[l := ODict (dict_set k x kvs)]> h) (VRef l) k = Ret x.
Proof. simpl. by rewrite lookup_insert_eq, dict_get_set_eq. Qed.

(** A write under the key [k] is not seen by reads under other keys. *)
Lemma getitem_in_set_ne h l kvs k x v k' :
  h !! l = Some (ODict kvs) → k' ≠ k →
  getitem_in (<[l := ODict (dict_set k x kvs)]> h) v k' = getitem_in h v k'.
Proof.
  intros Hl Hne. destruct v as [| | | | |l']; try done. simpl.
  destruct (decide (l' = l)) as [->|Hl'].
  - by rewrite lookup_insert_eq, Hl, dict_get_set_ne.
  - by rewrite lookup_insert_ne.
Qed.

Lemma for_each_rel {A} (R : state → state → Prop) (xs : list A) body :
  (∀ s, R s s) → (∀ s1 s2 s3, R s1 s2 → R s2 s3 → R s1 s3) →
  (∀ x s, R s (body x s).2) →
  ∀ s, R s (for_each xs body s).2.
Proof.
  intros Hrefl Htrans Hbody. induction xs as [|x xs IH]; intros s; simpl; [done|].
  rewrite bind_unfold. specialize (Hbody x s).
  destruct (body x s) as [[[]|e|] s1]; simpl in *; eauto.
Qed.

(** The loop over the identifiers writes under ["value"] only and leaves
    the caches alone. *)
Lemma identifier_loop identifiers s :
  let s' := (for_each identifiers (λ identifier,
               u ← _random_uuid; setitem identifier "value" (VStr u)) s).2 in
  (∀ v k, k ≠ "value" → getitem_in (heap s') v k = getitem_in (heap s) v k)
  ∧ _jhe_id_cache s' = _jhe_id_cache s
  ∧ _reverse_id_cache s' = _reverse_id_cache s.
Proof.
  revert s.
  apply (for_each_rel (λ s s',
    (∀ v k, k ≠ "value" → getitem_in (heap s') v k = getitem_in (heap s) v k)
    ∧ _jhe_id_cache s' = _jhe_id_cache s
    ∧ _reverse_id_cache s' = _reverse_id_cache s)).
  - done.
  - intros s1 s2 s3 (Hg1 & Hj1 & Hr1) (Hg2 & Hj2 & Hr2). split_and!; try congruence.
    intros v k Hk. by rewrite Hg2, Hg1.
  - intros identifier s. rewrite bind_unfold. simpl. unfold setitem.
    destruct identifier as [| | | | |l]; try done. simpl.
    destruct (heap s !! l) as [[kvs|xs]|] eqn:Hl; try done. simpl.
    split_and!; try done. intros v k Hk. by apply getitem_in_set_ne.
Qed.

Lemma snapshot_getitem m h v t k x tx :
  snapshot m h v = Some t → getitem_in h v k = Ret x → Json.getitem t k = Ret tx →
  snapshot (pred m) h x = Some tx.
Proof.
  destruct v as [| | | | |l]; try done. destruct m as [|m]; [done|]. simpl.
  destruct (h !! l) as [[kvs|xs]|]; try done.
  destruct (dict_get k kvs) as [y|] eqn:Hy; [|done]. intros Hsnap [= ->].
  destruct (snapshot_fields (snapshot m h) kvs) as [ts|] eqn:Hts; [|done].
  injection Hsnap as <-. simpl.
  destruct (dict_get k ts) as [ty|] eqn:Hty; [|done]. intros [= ->].
  revert ts Hts Hty. induction kvs as [|[k0 y] kvs IH]; intros ts; [done|]. simpl in *.
  destruct (snapshot m h y) as [t0|] eqn:Ht0; [|done].
  destruct (snapshot_fields (snapshot m h) kvs) as [ts0|]; [|done].
  intros [= <-]. simpl. destruct (String.eqb k k0); [naive_solver|]. by apply IH.
Qed.

Lemma snapshot_str m h v x : snapshot m h v = Some (JStr x) → v = VStr x.
Proof.
  destruct v as [| | | | |l].
  1-5: destruct m; simpl; by intros [= <-].
  destruct m as [|m]; [done|]. simpl.
  destruct (h !! l) as [[kvs|xs]|]; [| |done].
  - by destruct (snapshot_fields _ _).
  - by destruct (snapshot_list _ _).
Qed.

Lemma value_data_quiet noise_scale value_data s :
  heap (anonymize_value_data noise_scale value_data s).2 = heap s
  ∧ later s (anonymize_value_data noise_scale value_data s).2.
Proof.
  apply (keeps_run (λ s', heap s' = heap s ∧ later s s') _ (λ _, True)).
  - apply keeps_anonymize_value_data. intros s1 s2 Hh Hl [Hh1 Hl1].
    split; [congruence|by eapply later_trans].
  - split; [done|apply later_refl].
Qed.

Lemma reads2_inv {A B} (f : gmap loc obj → outcome A) (g : A → gmap loc obj → outcome B)
    s b s' :
  (reads f ≫= λ a, reads (g a)) s = (Ret b, s') →
  s' = s ∧ ∃ a, f (heap s) = Ret a ∧ g a (heap s) = Ret b.
Proof.
  intros (a & s1 & [-> Hf]%reads_inv & [-> Hg]%reads_inv)%bind_Ret_inv. eauto.
Qed.

Lemma lift_inv {A} (o : outcome A) s a s' : lift o s = (Ret a, s') → s' = s ∧ o = Ret a.
Proof. by intros [= -> ->]. Qed.

Section WithCodec.
Variable base64_decodebytes : string → option string.
Variable base64_encodebytes : string → string.
Variable json_loads : string → option json.
Variable json_dumps : json → string.

Lemma decode_attachment_inv data s value_data s' :
  decode_attachment base64_decodebytes json_loads data s = (Ret value_data, s') → s' = s.
Proof.
  unfold decode_attachment. destruct data; try done.
  destruct (_ ≫= _); [|done]. by intros [= _ <-].
Qed.

Ltac next H a s Hop := apply bind_Ret_inv in H as (a & s & Hop & H).

(** What a returning call of [anonymize_observation] has done with the
    subject reference. *)
Lemma anonymize_observation_reference fuel observation noise_scale s out s'
    m t tsub reference :
  anonymize_observation base64_decodebytes base64_encodebytes json_loads json_dumps
    fuel observation noise_scale s = (Ret out, s') →
  snapshot m (heap s) observation = Some t →
  Json.getitem t "subject" = Ret tsub →
  Json.getitem tsub "reference" = Ret (JStr reference) →
  ∃ kind sep text n v subject,
    Py.partition "/" reference = (kind, sep, text)
    ∧ Py.int text = Ret n
    ∧ _jhe_id_cache s' !! (kind +:+ "/" +:+ Py.str_of_int n) = Some v
    ∧ (∀ v0, _jhe_id_cache s !! (kind +:+ "/" +:+ Py.str_of_int n) = Some v0 → v0 = v)
    ∧ getitem_in (heap s') out "subject" = Ret subject
    ∧ getitem_in (heap s') subject "reference"
      = Ret (VStr (kind +:+ "/" +:+ Py.str_of_int v)).
Proof.
  unfold anonymize_observation. intros H Hsnap Hsub Href.
  next H obs s1 Hcopy. unfold deepcopy in Hcopy.
  destruct (deepcopy_in fuel observation (heap s)) as [[obs' h1]|] eqn:Hdc; [|done].
  injection Hcopy as <- <-.
  apply (deepcopy_in_ok s) in Hdc as (_ & _ & Hsnap1). apply Hsnap1 in Hsnap.
  clear Hsnap1.
  next H idv s2 Hid. apply reads_inv in Hid as [-> _].
  next H new_id s3 Hnew.
  apply random_id_state in Hnew as (idtext & jhe & rev & tape & -> & _ & _ & _ & Hj & _).
  next H u s4 Hset. apply setitem_inv in Hset as (l & kvs & -> & Hl & ->). simpl in Hl.
  next H identifiers s5 Hids. apply reads2_inv in Hids as [-> _].
  next H u' s6 Hloop.
  match type of Hloop with for_each ?ids _ ?s2 = _ =>
    pose proof (identifier_loop ids s2) as (Hget & Hj2 & _) end.
  rewrite Hloop in Hget, Hj2. simpl in Hget, Hj2. clear Hloop.
  assert (Hget1 : ∀ v k, k ≠ "value" → k ≠ "id" →
            getitem_in (heap s6) v k = getitem_in h1 v k).
  { intros v k Hk1 Hk2. rewrite Hget by done. by apply getitem_in_set_ne. }
  clear Hget.
  next H refv s7 Hread. apply reads2_inv in Hread as (-> & subject & Hsubject & Hreference).
  pose proof Hsubject as Hsubject1. pose proof Hreference as Hreference1.
  rewrite Hget1 in Hsubject1, Hreference1 by done.
  pose proof (snapshot_getitem _ _ _ _ _ _ _ Hsnap Hsubject1 Hsub) as Hsnap2.
  pose proof (snapshot_getitem _ _ _ _ _ _ _ Hsnap2 Hreference1 Href) as Hsnap3.
  apply snapshot_str in Hsnap3 as ->.
  destruct (Py.partition "/" reference) as [[kind sep] text] eqn:Hpart.
  next H n s8 Hint. apply lift_inv in Hint as [-> Hint].
  next H v s9 Hnew.
  apply random_id_state in Hnew
    as (ntext & jhe2 & rev2 & tape2 & -> & [= <-] & Hcache & Hold & _ & _).
  next H subject2 s10 Hsubject2. apply reads_inv in Hsubject2 as [-> Hsubject2].
  assert (subject2 = subject) as -> by (simpl in Hsubject2, Hsubject; congruence).
  clear Hsubject2.
  next H u2 s11 Hset. apply setitem_inv in Hset as (ls & kvss & -> & Hls & ->).
  simpl in Hls.
  next H data s12 Hdata. apply reads2_inv in Hdata as [-> _].
  next H value_data s13 Hdecode. apply decode_attachment_inv in Hdecode as ->.
  next H value_data' s14 Hanon.
  match type of Hanon with anonymize_value_data ?ns ?vd ?s3 = _ =>
    pose proof (value_data_quiet ns vd s3) as [Hheap [Hlater _]] end.
  rewrite Hanon in Hheap, Hlater. simpl in Hheap, Hlater. clear Hanon.
  next H attachment s15 Hattachment. apply reads_inv in Hattachment as [-> _].
  next H u3 s16 Hset. apply setitem_inv in Hset as (la & kvsa & -> & Hla & ->).
  apply mret_inv in H as [-> ->]. 
  exists kind, sep, text, n, v, (VRef ls).
  cbn [heap _jhe_id_cache set_heap] in *. rewrite Hheap in Hla |- *.
  split_and!; try done.
  - by eapply lookup_weaken.
  - intros v0 Hv0. apply Hold. rewrite Hj2. by eapply lookup_weaken.
  - rewrite (getitem_in_set_ne _ _ _ _ _ _ _ Hla) by done.
    by rewrite (getitem_in_set_ne _ _ _ _ _ _ _ Hls).
  - rewrite (getitem_in_set_ne _ _ _ _ _ _ _ Hla) by done.
    apply getitem_in_set_eq.
Qed.

Lemma subject_reference_tree (t : json) reference :
  (Json.getitem t "subject" ≫= λ subject, Json.getitem subject "reference")
    = Ret (JStr reference) →
  ∃ tsub, Json.getitem t "subject" = Ret tsub
          ∧ Json.getitem tsub "reference" = Ret (JStr reference).
Proof. destruct (Json.getitem t "subject") as [tsub| |] eqn:Ht; [|done..]. eauto. Qed.

Lemma patient_reference_parts N :
  Py.partition "/" ("Patient/" +:+ Py.str_of_int N) = ("Patient", "/", Py.str_of_int N).
Proof. by apply (partition_no_sep "/" "Patient"). Qed.

(** C2. The identifier mapping is stable. A call of [_random_id] that
    returned [v] for a pair returns [v] for that pair in every later state
    of the caches, whatever the range asked for; each of the three
    transforms only adds cache entries, so every state reached by further
    calls, in any order, is such a later state. In particular, a patient
    record with id [N] and an observation whose subject reference is
    ["Patient/N"] get the same synthetic id, whichever of the two is
    anonymized first. *)
Theorem identifier_mapping_stable :
  (∀ id kind start start' s v s' s'',
     _random_id id kind start s = (Ret v, s') → later s' s'' →
     _random_id id kind start' s'' = (Ret v, s''))
  ∧ (∀ record fuel noise_scale s,
       later s (anonymize_user record s).2
       ∧ later s (anonymize_patient record s).2
       ∧ later s (anonymize_observation base64_decodebytes base64_encodebytes
                    json_loads json_dumps fuel record noise_scale s).2)
  ∧ (∀ N patient s new_patient s1 s2 m t fuel observation noise_scale
       new_observation s3,
       getitem_in (heap s) patient "id" = Ret (VInt N) →
       anonymize_patient patient s = (Ret new_patient, s1) →
       later s1 s2 →
       snapshot m (heap s2) observation = Some t →
       (Json.getitem t "subject" ≫= λ subject, Json.getitem subject "reference")
         = Ret (JStr ("Patient/" +:+ Py.str_of_int N)) →
       anonymize_observation base64_decodebytes base64_encodebytes json_loads
         json_dumps fuel observation noise_scale s2 = (Ret new_observation, s3) →
       ∃ v, getitem_in (heap s1) new_patient "id" = Ret (VInt v)
            ∧ subject_reference (heap s3) new_observation
              = Ret (VStr ("Patient/" +:+ Py.str_of_int v)))
  ∧ (∀ N patient s new_observation s1 s2 m t fuel observation noise_scale
       new_patient s3,
       snapshot m (heap s) observation = Some t →
       (Json.getitem t "subject" ≫= λ subject, Json.getitem subject "reference")
         = Ret (JStr ("Patient/" +:+ Py.str_of_int N)) →
       anonymize_observation base64_decodebytes base64_encodebytes json_loads
         json_dumps fuel observation noise_scale s = (Ret new_observation, s1) →
       later s1 s2 →
       getitem_in (heap s2) patient "id" = Ret (VInt N) →
       anonymize_patient patient s2 = (Ret new_patient, s3) →
       ∃ v, getitem_in (heap s3) new_patient "id" = Ret (VInt v)
            ∧ subject_reference (heap s1) new_observation
              = Ret (VStr ("Patient/" +:+ Py.str_of_int v))).
Proof.
  split_and!.
  - intros id kind start start' s v s' s''. apply random_id_stable.
  - intros record fuel noise_scale s. split_and!.
    + apply (keeps_run _ _ _ _ (anonymize_user_kept s record)), kept_refl.
    + apply (keeps_run _ _ _ _ (anonymize_patient_kept s record)), kept_refl.
    + apply (keeps_run _ _ _ _
               (anonymize_observation_isolated s _ _ _ _ fuel record noise_scale)),
        isolated_refl.
  - intros N patient s new_patient s1 s2 m t fuel observation noise_scale
      new_observation s3 Hid Hpatient [Hlater _] Hsnap Href Hobservation.
    apply anonymize_patient_inv in Hpatient
      as (p & kvs & org & phone & mail & ident & idv & uidv & b1 & b2 & b3
          & fn & fns & ln & lns & d & ds & t1 & t2 & v1 & v2
          & -> & Hheap & -> & Hp & _ & _ & _ & _ & Hidv & _ & _ & _ & _ & _ & _ & _
          & Ht1 & _ & Hc1 & _).
    simpl in Hid. rewrite Hp, Hidv in Hid. injection Hid as ->.
    injection Ht1 as <-.
    apply subject_reference_tree in Href as (tsub & Hsub & Href).
    destruct (anonymize_observation_reference _ _ _ _ _ _ _ _ _ _ Hobservation
                Hsnap Hsub Href)
      as (kind & sep & text & n & v & subject & Hpart & Hint & _ & Hold & Hs & Hr).
    rewrite patient_reference_parts in Hpart. injection Hpart as <- <- <-.
    rewrite int_str_of_int in Hint. injection Hint as <-.
    rewrite <-(Hold v1) in Hr by (by eapply lookup_weaken).
    exists v1. split.
    + simpl. rewrite Hheap, lookup_insert_eq.
      by destruct (patient_fields_id org fn ln d (uuid_n s) v1 v2 b1 b2 b3) as [-> _].
    + unfold subject_reference. by rewrite Hs.
  - intros N patient s new_observation s1 s2 m t fuel observation noise_scale
      new_patient s3 Hsnap Href Hobservation [Hlater _] Hid Hpatient.
    apply anonymize_patient_inv in Hpatient
      as (p & kvs & org & phone & mail & ident & idv & uidv & b1 & b2 & b3
          & fn & fns & ln & lns & d & ds & t1 & t2 & v1 & v2
          & -> & Hheap & -> & Hp & _ & _ & _ & _ & Hidv & _ & _ & _ & _ & _ & _ & _
          & Ht1 & _ & _ & _ & Hold1 & _).
    simpl in Hid. rewrite Hp, Hidv in Hid. injection Hid as ->.
    injection Ht1 as <-.
    apply subject_reference_tree in Href as (tsub & Hsub & Href).
    destruct (anonymize_observation_reference _ _ _ _ _ _ _ _ _ _ Hobservation
                Hsnap Hsub Href)
      as (kind & sep & text & n & v & subject & Hpart & Hint & Hc & _ & Hs & Hr).
    rewrite patient_reference_parts in Hpart. injection Hpart as <- <- <-.
    rewrite int_str_of_int in Hint. injection Hint as <-.
    rewrite (Hold1 v) in Hr by (by eapply lookup_weaken).
    exists v1. split.
    + simpl. rewrite Hheap, lookup_insert_eq.
      by destruct (patient_fields_id org fn ln d (uuid_n s2) v1 v2 b1 b2 b3) as [-> _].
    + unfold subject_reference. by rewrite Hs.
Qed.

End WithCodec.

Lemma identifier_mapping_stable_witness :
  let s1 := (anonymize_patient (VRef 2%positive) Testdata.visit).2 in
  let s3 := (anonymize_observation Testdata.base64_decodebytes
               Testdata.base64_encodebytes Testdata.json_loads Testdata.json_dumps
               3 (VRef 20%positive) (1 # 5) s1).2 in
  ∃ v, getitem_in (heap s1) (VRef 25%positive) "id" = Ret (VInt v)
       ∧ subject_reference (heap s3) (VRef 30%positive)
         = Ret (VStr ("Patient/" +:+ Py.str_of_int v)).
Proof.
  destruct (identifier_mapping_stable Testdata.base64_decodebytes
              Testdata.base64_encodebytes Testdata.json_loads Testdata.json_dumps)
    as (_ & _ & H & _).
  intros s1 s3.
  refine (H 45439 (VRef 2%positive) Testdata.visit (VRef 25%positive) s1 s1 3%nat
            (default JNull (snapshot 3 (heap s1) (VRef 20%positive))) 3%nat
            (VRef 20%positive) (1 # 5) (VRef 30%positive) s3 _ _ _ _ _ _);
    [by vm_compute|by vm_compute|apply later_refl|by vm_compute..].
Defined.

End ObservationFacts.

(** ** The structure of the returned records *)

Section ShapeFacts.
Import Anon.

Lemma snapshot_scalar m h v : scalar v → snapshot m h v = to_json v.
Proof. by destruct m, v. Qed.

Lemma str_of_val_scalar v text : str_of_val v = Some text → scalar v.
Proof. by destruct v. Qed.

Lemma snapshot_getitem_ex m h v t k x :
  snapshot m h v = Some t → getitem_in h v k = Ret x →
  ∃ tx, Json.getitem t k = Ret tx ∧ snapshot (pred m) h x = Some tx.
Proof.
  destruct v as [| | | | |l]; try done. destruct m as [|m]; [done|]. simpl.
  destruct (h !! l) as [[kvs|xs]|]; try done.
  destruct (dict_get k kvs) as [y|] eqn:Hy; [|done]. intros Hsnap [= ->].
  destruct (snapshot_fields (snapshot m h) kvs) as [ts|] eqn:Hts; [|done].
  injection Hsnap as <-. simpl.
  enough (∃ tx, dict_get k ts = Some tx ∧ snapshot m h x = Some tx) as (tx & -> & ?)
    by eauto.
  revert ts Hts Hy. induction kvs as [|[k0 y] kvs IH]; intros ts; [done|]. simpl.
  destruct (snapshot m h y) as [t0|] eqn:Ht0; [|done].
  destruct (snapshot_fields (snapshot m h) kvs) as [ts0|]; [|done].
  intros [= <-]. simpl. destruct (String.eqb k k0); [naive_solver|]. by apply IH.
Qed.

Lemma snapshot_iter m h v tv xs :
  snapshot m h v = Some tv → iter_in h v = Ret xs →
  ∃ txs, Json.iter tv = Ret txs
         ∧ Forall2 (λ x tx, snapshot (pred m) h x = Some tx) xs txs.
Proof.
  destruct v as [| | | | x|l]; try done.
  - rewrite snapshot_scalar by done. intros [= <-] [= <-]. eexists. split; [done|].
    induction (chars x) as [|c cs IH]; constructor; [|done].
    by rewrite snapshot_scalar.
  - destruct m as [|m]; [done|]. simpl.
    destruct (h !! l) as [[kvs|ys]|]; try done.
    + destruct (snapshot_fields (snapshot m h) kvs) as [ts|] eqn:Hts; [|done].
      intros [= <-] [= <-]. eexists. split; [done|].
      revert ts Hts. induction kvs as [|[k0 y] kvs IH]; intros ts.
      * intros [= <-]. constructor.
      * simpl. destruct (snapshot m h y) as [t0|]; [|done].
        destruct (snapshot_fields (snapshot m h) kvs) as [ts0|]; [|done].
        intros [= <-]. rewrite !fmap_cons. constructor; [|by apply IH].
        by rewrite snapshot_scalar.
    + destruct (snapshot_list (snapshot m h) ys) as [ts|] eqn:Hts; [|done].
      intros [= <-] [= <-]. eexists. split; [done|].
      revert ts Hts. induction ys as [|y ys IH]; intros ts.
      * intros [= <-]. constructor.
      * simpl. destruct (snapshot m h y) as [t0|] eqn:Ht0; [|done].
        destruct (snapshot_list (snapshot m h) ys) as [ts0|]; [|done].
        intros [= <-]. constructor; [done|by apply IH].
Qed.

Lemma snapshot_getitem_rev m h x tx k tv :
  snapshot m h x = Some tx → Json.getitem tx k = Ret tv →
  ∃ l kvs sv, x = VRef l ∧ h !! l = Some (ODict kvs) ∧ dict_get k kvs = Some sv
              ∧ snapshot (pred m) h sv = Some tv.
Proof.
  destruct x as [| | | | |l].
  1-5: rewrite snapshot_scalar by done; by intros [= <-].
  destruct m as [|m]; [done|]. simpl.
  destruct (h !! l) as [[kvs|ys]|] eqn:Hl; try done.
  - destruct (snapshot_fields (snapshot m h) kvs) as [ts|] eqn:Hts; [|done].
    intros [= <-]. simpl. destruct (dict_get k ts) as [ty|] eqn:Hty; [|done].
    intros [= ->]. exists l, kvs.
    enough (∃ sv, dict_get k kvs = Some sv ∧ snapshot m h sv = Some tv) as (sv & ? & ?)
      by (by exists sv).
    clear Hl. revert ts Hts Hty. induction kvs as [|[k0 y] kvs IH]; intros ts.
    + by intros [= <-].
    + simpl. destruct (snapshot m h y) as [t0|] eqn:Ht0; [|done].
      destruct (snapshot_fields (snapshot m h) kvs) as [ts0|]; [|done].
      intros [= <-]. simpl. destruct (String.eqb k k0); [naive_solver|]. by apply IH.
  - destruct (snapshot_list (snapshot m h) ys); [|done]. by intros [= <-].
Qed.

Lemma leaf_scalar m h sv tv : snapshot m h sv = Some tv → Json.leaf tv = true → scalar sv.
Proof.
  destruct sv as [| | | | |l]; try done. destruct m as [|m]; [done|]. simpl.
  destruct (h !! l) as [[kvs|ys]|]; try done.
  - destruct (snapshot_fields _ _); [|done]. by intros [= <-].
  - destruct (snapshot_list _ _); [|done]. by intros [= <-].
Qed.

Lemma iter_in_set h l kvs k old x v :
  h !! l = Some (ODict kvs) → dict_get k kvs = Some old →
  iter_in (<[l := ODict (dict_set k x kvs)]> h) v = iter_in h v.
Proof.
  intros Hl Hget. destruct v as [| | | | |l']; try done. simpl.
  destruct (decide (l' = l)) as [->|Hne]; [|by rewrite lookup_insert_ne].
  rewrite lookup_insert_eq, Hl. f_equal. clear Hl. revert Hget.
  induction kvs as [|[k0 y] kvs IH]; [done|]. simpl.
  destruct (String.eqb k k0); [done|]. intros Hget. rewrite !fmap_cons. simpl.
  by rewrite IH.
Qed.

Section Slots.
Variable allowed : loc → string → Prop.

Lemma kept_obj_refl l o : kept_obj allowed l o o.
Proof.
  destruct o as [kvs|xs]; simpl; [|done].
  induction kvs; constructor; [by split; [|left]|done].
Qed.

Lemma kept_obj_trans l o1 o2 o3 :
  kept_obj allowed l o1 o2 → kept_obj allowed l o2 o3 → kept_obj allowed l o1 o3.
Proof.
  destruct o1 as [kvs1|xs1], o2 as [kvs2|xs2], o3 as [kvs3|xs3]; simpl; try done;
    [|congruence].
  intros H12. revert kvs3. induction H12 as [|kv1 kv2 ? ? [Hk Hv] ? IH]; intros kvs3 H23.
  - by inversion H23.
  - inversion H23 as [|? kv3 ? ? [Hk' Hv']]; subst. constructor; [|by apply IH].
    split; [congruence|]. rewrite Hk in *.
    destruct Hv as [->|(? & ? & ?)], Hv' as [<-|(? & ? & ?)]; eauto.
Qed.

Lemma rewritten_only_refl h : rewritten_only allowed h h.
Proof. intros l o Hl. exists o. split; [done|apply kept_obj_refl]. Qed.

Lemma rewritten_only_trans h1 h2 h3 :
  rewritten_only allowed h1 h2 → rewritten_only allowed h2 h3 →
  rewritten_only allowed h1 h3.
Proof.
  intros H12 H23 l o1 Hl. destruct (H12 l o1 Hl) as (o2 & Hl2 & Ho12).
  destruct (H23 l o2 Hl2) as (o3 & Hl3 & Ho23). exists o3.
  split; [done|by eapply kept_obj_trans].
Qed.

(** Overwriting a scalar by a scalar in an allowed slot. *)
Lemma rewritten_only_set h l kvs k old x :
  h !! l = Some (ODict kvs) → dict_get k kvs = Some old → scalar old → scalar x →
  allowed l k →
  rewritten_only allowed h (<[l := ODict (dict_set k x kvs)]> h).
Proof.
  intros Hl Hget Hold Hx Hallowed l' o Hl'. destruct (decide (l' = l)) as [->|Hne].
  - rewrite lookup_insert_eq. eexists. split; [done|]. rewrite Hl in Hl'.
    injection Hl' as <-. simpl. clear Hl. revert Hget.
    induction kvs as [|[k' y] kvs IH]; [done|]. simpl.
    destruct (String.eqb k k') eqn:Hk.
    + apply String.eqb_eq in Hk as <-. intros [= ->].
      constructor; [by split; [|right]|]. apply (kept_obj_refl l (ODict kvs)).
    + intros Hget. constructor; [by split; [|left]|by apply IH].
  - rewrite lookup_insert_ne by done. exists o. split; [done|apply kept_obj_refl].
Qed.

Lemma rewritten_only_dict_get h h' l kvs k v :
  rewritten_only allowed h h' → h !! l = Some (ODict kvs) → dict_get k kvs = Some v →
  ∃ kvs' v', h' !! l = Some (ODict kvs') ∧ dict_get k kvs' = Some v'
             ∧ (v = v' ∨ (allowed l k ∧ scalar v ∧ scalar v')).
Proof.
  intros Hkept Hl Hget.
  destruct (Hkept l _ Hl) as ([kvs'|xs'] & Hl' & Ho); [|by simpl in Ho].
  exists kvs'. simpl in Ho.
  enough (∃ v', dict_get k kvs' = Some v'
                ∧ (v = v' ∨ (allowed l k ∧ scalar v ∧ scalar v'))) as (v' & ? & ?)
    by eauto.
  clear Hl Hl'. revert Hget.
  induction Ho as [|[k1 v1] [k2 v2] ? ? [Hk Hv] ? IH]; [done|]. simpl in *. subst.
  destruct (String.eqb k k2) eqn:Hkk; [|done].
  apply String.eqb_eq in Hkk as <-. intros [= ->]. eauto.
Qed.

Lemma scalar_kept (v v' : val) l k :
  v = v' ∨ (allowed l k ∧ scalar v ∧ scalar v') → scalar v → scalar v'.
Proof. intros [<-|(_ & _ & ?)]; done. Qed.

(** The loop over the identifiers writes a scalar over a scalar under
    ["value"] when every entry has one there. *)
Lemma identifier_loop_rewritten h1 identifiers s u s' :
  for_each identifiers (λ identifier,
    u ← _random_uuid; setitem identifier "value" (VStr u)) s = (Ret u, s') →
  rewritten_only allowed h1 (heap s) →
  Forall (λ x, ∃ l kvs sv, x = VRef l ∧ h1 !! l = Some (ODict kvs)
                           ∧ dict_get "value" kvs = Some sv ∧ scalar sv
                           ∧ allowed l "value") identifiers →
  rewritten_only allowed h1 (heap s').
Proof.
  revert s. induction identifiers as [|x rest IH]; intros s.
  { by intros [= _ <-]. }
  simpl. intros (u1 & s1 & Hbody & Hrest)%bind_Ret_inv Hkept Hall.
  apply Forall_cons in Hall as [(l & kvs & sv & -> & Hl & Hsv & Hscalar & Hallowed) Hall].
  apply bind_Ret_inv in Hbody as (uu & s0 & [-> ->]%random_uuid_inv & Hset).
  apply setitem_inv in Hset as (l' & kvs' & [= <-] & Hl' & ->). simpl in Hl'.
  destruct (rewritten_only_dict_get _ _ _ _ _ _ Hkept Hl Hsv)
    as (kvs2 & sv2 & Hl2 & Hsv2 & Hk).
  rewrite Hl' in Hl2. injection Hl2 as <-.
  apply (IH _ Hrest); [|done]. simpl.
  eapply rewritten_only_trans; [done|].
  eapply rewritten_only_set; [done|done| |done|done]. by eapply scalar_kept.
Qed.

End Slots.

Lemma rewritten_only_weaken (allowed allowed' : loc → string → Prop) h h' :
  (∀ l k, allowed l k → allowed' l k) →
  rewritten_only allowed h h' → rewritten_only allowed' h h'.
Proof.
  intros Hsub Hkept l o Hl. destruct (Hkept l o Hl) as (o' & Hl' & Ho).
  exists o'. split; [done|]. destruct o as [kvs|xs], o' as [kvs'|xs']; try done.
  simpl in *. eapply Forall2_impl; [done|]. intros kv kv' [Hk Hv]. split; [done|].
  destruct Hv as [?|(? & ? & ?)]; eauto.
Qed.

Lemma redact_leaf (t : json) : Json.leaf t = true → Json.redact t = t.
Proof. by destruct t. Qed.

Lemma leaf_to_json v t : to_json v = Some t → Json.leaf t = true.
Proof. destruct v; simpl; try done; by intros [= <-]. Qed.

(** What is rewritten under the identifying keys only is not seen in the
    redacted tree. *)
Lemma rewritten_only_snapshot h h' :
  rewritten_only (λ _ k, Json.identifying k = true) h h' →
  ∀ m v t, snapshot m h v = Some t →
    ∃ t', snapshot m h' v = Some t' ∧ Json.redact t' = Json.redact t.
Proof.
  intros Hkept m. induction m as [|m IH]; intros v t.
  - destruct v as [| | | | |l]; try done; simpl; intros [= <-]; by eexists.
  - destruct v as [| | | | |l]; try (simpl; intros [= <-]; by eexists).
    simpl. destruct (h !! l) as [o|] eqn:Hl; [|done].
    destruct (Hkept l o Hl) as (o' & -> & Ho).
    destruct o as [kvs|xs], o' as [kvs'|xs']; try done; simpl in Ho.
    + destruct (snapshot_fields (snapshot m h) kvs) as [ts|] eqn:Hts; [|done].
      intros [= <-].
      assert (∃ ts', snapshot_fields (snapshot m h') kvs' = Some ts'
                     ∧ (λ kv, (kv.1, if Json.identifying kv.1 && Json.leaf kv.2 then JNull
                                     else Json.redact kv.2)) <$> ts'
                       = (λ kv, (kv.1, if Json.identifying kv.1 && Json.leaf kv.2 then JNull
                                       else Json.redact kv.2)) <$> ts)
        as (ts' & -> & Heq).
      { clear Hl. revert ts Hts.
        induction Ho as [|[k1 v1] [k2 v2] ? ? [Hk Hv] ? IHo]; intros ts.
        - intros [= <-]. by exists [].
        - simpl in *. subst.
          destruct (snapshot m h v1) as [t1|] eqn:Ht1; [|done].
          destruct (snapshot_fields (snapshot m h) l0) as [ts1|]; [|done].
          intros [= <-]. destruct (IHo _ eq_refl) as (ts2 & -> & Hts2).
          destruct Hv as [<-|(Hid & Hs1 & Hs2)].
          + destruct (IH _ _ Ht1) as (t2 & -> & Ht2).
            eexists. split; [done|]. rewrite !fmap_cons. cbn [fst snd].
            rewrite Hts2. do 2 f_equal.
            destruct (Json.identifying k2); simpl; [|done].
            destruct (Json.leaf t1) eqn:Hleaf1.
            * rewrite (redact_leaf t1) in Ht2 by done.
              destruct t2; simpl in *; try done; by subst.
            * destruct (Json.leaf t2) eqn:Hleaf2; [|done].
              rewrite (redact_leaf t2) in Ht2 by done. subst t2.
              destruct t1; simpl in *; done.
          + rewrite snapshot_scalar in Ht1 by done.
            rewrite (snapshot_scalar _ _ v2) by done.
            destruct (to_json v2) as [t2|] eqn:Ht2; [|by destruct v2].
            eexists. split; [done|]. rewrite !fmap_cons. cbn [fst snd].
            rewrite Hts2, Hid. simpl.
            by rewrite (leaf_to_json _ _ Ht1), (leaf_to_json _ _ Ht2). }
      eexists. split; [done|]. simpl. by rewrite Heq.
    + subst xs'. destruct (snapshot_list (snapshot m h) xs) as [ts|] eqn:Hts; [|done].
      intros [= <-].
      assert (∃ ts', snapshot_list (snapshot m h') xs = Some ts'
                     ∧ Json.redact <$> ts' = Json.redact <$> ts) as (ts' & -> & Heq).
      { clear Hl. revert ts Hts. induction xs as [|v1 xs IHo]; intros ts.
        - intros [= <-]. by exists [].
        - simpl in *.
          destruct (snapshot m h v1) as [t1|] eqn:Ht1; [|done].
          destruct (snapshot_list (snapshot m h) xs) as [ts1|]; [|done].
          intros [= <-]. destruct (IH _ _ Ht1) as (t2 & -> & Ht2).
          destruct (IHo _ eq_refl) as (ts2 & -> & Hts2).
          eexists. split; [done|]. rewrite !fmap_cons. by rewrite Ht2, Hts2. }
      eexists. split; [done|]. simpl. by rewrite Heq.
Qed.

Section WithCodec.
Variable base64_decodebytes : string → option string.
Variable base64_encodebytes : string → string.
Variable json_loads : string → option json.
Variable json_dumps : json → string.

Lemma decode_attachment_str data s value_data s' :
  decode_attachment base64_decodebytes json_loads data s = (Ret value_data, s') →
  scalar data.
Proof. unfold decode_attachment. by destruct data. Qed.

Ltac next H a s Hop := apply bind_Ret_inv in H as (a & s & Hop & H).

(** A returning call of [anonymize_observation] on a record whose
    identifiers have a leaf under ["value"] has made a copy of the record
    and has written new scalars over scalars in four kinds of slots of the
    copy, and nowhere else. *)
Lemma anonymize_observation_rewrites fuel observation noise_scale s out s' m t :
  anonymize_observation base64_decodebytes base64_encodebytes json_loads json_dumps
    fuel observation noise_scale s = (Ret out, s') →
  snapshot m (heap s) observation = Some t →
  Json.identifier_values t = true →
  ∃ h1, deepcopy_in fuel observation (heap s) = Some (out, h1)
        ∧ rewritten_only (observation_slot h1 out) h1 (heap s').
Proof.
  unfold anonymize_observation. intros H Hsnap Hvalues.
  next H obs s1 Hcopy. unfold deepcopy in Hcopy.
  destruct (deepcopy_in fuel observation (heap s)) as [[obs' h1]|] eqn:Hdc; [|done].
  injection Hcopy as <- <-. exists h1.
  apply (deepcopy_in_ok s) in Hdc as (_ & _ & Hsnap1). apply Hsnap1 in Hsnap.
  clear Hsnap1.
  enough (rewritten_only (observation_slot h1 obs') h1 (heap s') ∧ out = obs')
    as [Hkept ->] by done.
  set (W := observation_slot h1 obs').
  next H idv s2 Hid. apply getitem_inv in Hid as (-> & l & kvs & -> & Hl & Hidv).
  simpl in Hl.
  next H new_id s3 Hnew.
  apply random_id_state in Hnew
    as (idtext & jhe & rev & tape & -> & Hscalar%str_of_val_scalar & _).
  next H u s4 Hset. apply setitem_inv in Hset as (l' & kvs' & [= <-] & Hl' & ->).
  simpl in Hl'. rewrite Hl in Hl'. injection Hl' as <-.
  assert (Hkept2 : rewritten_only W h1 (<[l := ODict (dict_set "id" (VInt new_id) kvs)]> h1)).
  { eapply rewritten_only_set; [done|done|done|done|]. by left. }
  next H identifiers s5 Hids.
  apply reads2_inv in Hids as (-> & idsv & Hidsv & Hiter).
  cbn [heap set_heap] in Hidsv, Hiter.
  rewrite (getitem_in_set_ne _ _ _ _ _ _ _ Hl) in Hidsv by done.
  rewrite (iter_in_set _ _ _ _ _ _ _ Hl Hidv) in Hiter.
  destruct (snapshot_getitem_ex _ _ _ _ _ _ Hsnap Hidsv) as (tids & Htids & Hsnap2).
  destruct (snapshot_iter _ _ _ _ _ Hsnap2 Hiter) as (txs & Htxs & Hall).
  unfold Json.identifier_values in Hvalues. rewrite Htids in Hvalues.
  simpl in Hvalues. rewrite Htxs in Hvalues.
  assert (Hentries : Forall (λ x, ∃ l kvs sv, x = VRef l ∧ h1 !! l = Some (ODict kvs)
                              ∧ dict_get "value" kvs = Some sv ∧ scalar sv) identifiers).
  { clear - Hall Hvalues. induction Hall as [|x tx xs txs' Hx Hxs IH]; [done|].
    simpl in Hvalues. apply andb_true_iff in Hvalues as [Hv Hvs].
    constructor; [|by apply IH].
    destruct (Json.getitem tx "value") as [tv| |] eqn:Htv; try done.
    destruct (snapshot_getitem_rev _ _ _ _ _ _ Hx Htv) as (lx & kvsx & sv & -> & ? & ? & Hs).
    exists lx, kvsx, sv. split_and!; try done. by eapply leaf_scalar. }
  assert (Hentries' : Forall (λ x, ∃ l kvs sv, x = VRef l ∧ h1 !! l = Some (ODict kvs)
                               ∧ dict_get "value" kvs = Some sv ∧ scalar sv
                               ∧ W l "value") identifiers).
  { apply Forall_forall. intros x Hx.
    destruct (proj1 (Forall_forall _ _) Hentries x Hx) as (lx & kvsx & sv & -> & ? & ? & ?).
    exists lx, kvsx, sv. split_and!; try done.
    right. right. right. exists identifiers. split_and!; try done.
    by rewrite Hidsv. }
  next H u' s6 Hloop.
  match type of Hloop with for_each ?ids _ ?s2 = _ =>
    pose proof (identifier_loop ids s2) as (Hget & _) end.
  rewrite Hloop in Hget. cbn [heap set_heap snd] in Hget.
  assert (Hget1 : ∀ v k, k ≠ "value" → k ≠ "id" →
            getitem_in (heap s6) v k = getitem_in h1 v k).
  { intros v k Hk1 Hk2. rewrite Hget by done. by apply getitem_in_set_ne. }
  clear Hget.
  apply (identifier_loop_rewritten W h1) in Hloop; [|done..]. clear Hkept2.
  next H refv s7 Hread.
  apply reads2_inv in Hread as (-> & subject & Hsubject & Hreference).
  destruct refv as [| | | | reference|]; try done.
  destruct (Py.partition "/" reference) as [[kind sep] text] eqn:Hpart.
  next H n s8 Hint. apply lift_inv in Hint as [-> Hint].
  next H v s9 Hnew.
  apply random_id_state in Hnew as (ntext & jhe2 & rev2 & tape2 & -> & _).
  next H subject2 s10 Hsubject2. apply reads_inv in Hsubject2 as [-> Hsubject2].
  assert (subject2 = subject) as -> by (simpl in Hsubject2, Hsubject; congruence).
  clear Hsubject2.
  next H u2 s11 Hset. apply setitem_inv in Hset as (ls & kvss & -> & Hls & ->).
  pose proof Hsubject as Hsubject1. rewrite Hget1 in Hsubject1 by done.
  simpl in Hls, Hreference. rewrite Hls in Hreference.
  destruct (dict_get "reference" kvss) as [old|] eqn:Hold; [|done].
  injection Hreference as ->.
  assert (Hkept7 : rewritten_only W (heap s6)
            (<[ls := ODict (dict_set "reference"
                              (VStr (kind +:+ "/" +:+ Py.str_of_int v)) kvss)]> (heap s6))).
  { eapply rewritten_only_set; [done|done|done|done|]. right. by left. }
  next H data s12 Hdata. apply reads2_inv in Hdata as (-> & va & Hva & Hdata).
  next H value_data s13 Hdecode.
  pose proof (decode_attachment_str _ _ _ _ Hdecode) as Hstr.
  apply decode_attachment_inv in Hdecode as ->.
  next H value_data' s14 Hanon.
  match type of Hanon with anonymize_value_data ?ns ?vd ?s3 = _ =>
    pose proof (value_data_quiet ns vd s3) as [Hheap _] end.
  rewrite Hanon in Hheap. simpl in Hheap. clear Hanon.
  next H attachment s15 Hattachment. apply reads_inv in Hattachment as [-> Hattachment].
  cbn [heap set_heap] in Hva, Hdata, Hattachment. rewrite Hheap in Hattachment.
  assert (attachment = va) as -> by congruence. clear Hattachment.
  next H u3 s16 Hset. apply setitem_inv in Hset as (la & kvsa & -> & Hla & ->).
  pose proof Hva as Hva1.
  rewrite (getitem_in_set_ne _ _ _ _ _ _ _ Hls) in Hva1 by done.
  rewrite Hget1 in Hva1 by done.
  rewrite Hheap in Hla. simpl in Hdata. rewrite Hla in Hdata.
  destruct (dict_get "data" kvsa) as [old|] eqn:Hold'; [|done].
  injection Hdata as ->.
  apply mret_inv in H as [-> ->]. split; [|done]. cbn [heap set_heap].
  rewrite Hheap.
  eapply rewritten_only_trans; [done|]. eapply rewritten_only_trans; [done|].
  eapply rewritten_only_set; [done|done|done|done|]. right. right. by left.
Qed.

(** Seen as trees: outside the leaves under the four identifying keys,
    nothing has changed. *)
Lemma anonymize_observation_redact fuel observation noise_scale s out s' m t :
  anonymize_observation base64_decodebytes base64_encodebytes json_loads json_dumps
    fuel observation noise_scale s = (Ret out, s') →
  snapshot m (heap s) observation = Some t →
  Json.identifier_values t = true →
  ∃ t', snapshot m (heap s') out = Some t' ∧ Json.redact t' = Json.redact t.
Proof.
  intros Hrun Hsnap Hvalues.
  destruct (anonymize_observation_rewrites _ _ _ _ _ _ _ _ Hrun Hsnap Hvalues)
    as (h1 & Hdc & Hkept).
  apply (deepcopy_in_ok s) in Hdc as (_ & _ & Hsnap1). apply Hsnap1 in Hsnap.
  eapply rewritten_only_snapshot; [|done].
  eapply rewritten_only_weaken; [|done].
  intros l k [[_ ->]|[[_ ->]|[[_ ->]|(? & _ & _ & ->)]]]; done.
Qed.

(** C9, amended. What the returned record looks like. The user
    transform returns a record with exactly the keys [firstName],
    [lastName], [email], [patient], [id], whatever the keys of the input.
    The patient transform returns a record with the input's
    [organizationId] and with the keys [organizationId], [nameGiven],
    [nameFamily], [birthDate], [id], [jheUserId], and [telecomPhone],
    [telecomEmail], [identifier] exactly when the input's value under
    that key is truthy; it has no other key. The observation transform
    returns a record with the keys and the nesting of the input, which
    differs from the input at most in the leaves under the keys [id],
    [value], [reference] and [data], provided every entry of the input's
    [identifier] list has a leaf under ["value"]. *)
Theorem transforms_output_structure :
  (∀ user s out s',
     anonymize_user user s = (Ret out, s') →
     keys_in (heap s') out = Some ["firstName"; "lastName"; "email"; "patient"; "id"])
  ∧ (∀ patient s out s',
       anonymize_patient patient s = (Ret out, s') →
       ∃ keys, keys_in (heap s') out = Some keys
         ∧ getitem_in (heap s') out "organizationId"
           = getitem_in (heap s) patient "organizationId"
         ∧ (∀ k, k ∈ ["organizationId"; "nameGiven"; "nameFamily"; "birthDate";
                      "id"; "jheUserId"] → k ∈ keys)
         ∧ (∀ k, k ∈ keys →
                 k ∈ ["organizationId"; "nameGiven"; "nameFamily"; "telecomPhone";
                      "telecomEmail"; "birthDate"; "identifier"; "id"; "jheUserId"])
         ∧ (∀ k x b, k ∈ ["telecomPhone"; "telecomEmail"; "identifier"] →
                     getitem_in (heap s) patient k = Ret x →
                     truthy_in (heap s) x = Ret b →
                     (k ∈ keys ↔ b = true)))
  ∧ (∀ fuel observation noise_scale s out s' m t,
       anonymize_observation base64_decodebytes base64_encodebytes json_loads
         json_dumps fuel observation noise_scale s = (Ret out, s') →
       snapshot m (heap s) observation = Some t →
       Json.identifier_values t = true →
       ∃ t', snapshot m (heap s') out = Some t' ∧ Json.redact t' = Json.redact t).
Proof.
  split_and!.
  - intros user s out s' Hrun.
    apply anonymize_user_inv in Hrun
      as (kvs & p & idv & text & fn & fns & ln & lns & v & _ & _ & _ & _ & _ & _ & _ & _
          & -> & ->).
    simpl. by rewrite lookup_insert_eq.
  - intros patient s out s' Hrun.
    apply anonymize_patient_inv in Hrun
      as (p & kvs & org & phone & mail & ident & idv & uidv & b1 & b2 & b3
          & fn & fns & ln & lns & d & ds & t1 & t2 & v1 & v2
          & -> & -> & -> & Hp & Horg & Hphone & Hmail & Hident & _ & _
          & H1 & H2 & H3 & _).
    eexists. split; [simpl; by rewrite lookup_insert_eq|].
    split_and!.
    + simpl. rewrite lookup_insert_eq, Hp, Horg.
      by destruct (patient_fields_id org fn ln d (uuid_n s) v1 v2 b1 b2 b3) as (_ & _ & ->).
    + intros k Hk. destruct b1, b2, b3; simpl;
        repeat (apply elem_of_cons in Hk as [->|Hk]; [set_solver|]);
        by apply elem_of_nil in Hk.
    + intros k Hk. destruct b1, b2, b3; simpl in Hk;
        repeat (apply elem_of_cons in Hk as [->|Hk]; [set_solver|]);
        by apply elem_of_nil in Hk.
    + intros k x b Hk Hx Hb. simpl in Hx. rewrite Hp in Hx.
      repeat (apply elem_of_cons in Hk as [->|Hk]); [| | |by apply elem_of_nil in Hk].
      * rewrite Hphone in Hx. injection Hx as <-. rewrite <-(H1 _ Hb).
        destruct b1, b2, b3; simpl; set_solver.
      * rewrite Hmail in Hx. injection Hx as <-. rewrite <-(H2 _ Hb).
        destruct b1, b2, b3; simpl; set_solver.
      * rewrite Hident in Hx. injection Hx as <-. rewrite <-(H3 _ Hb).
        destruct b1, b2, b3; simpl; set_solver.
  - apply anonymize_observation_redact.
Qed.

End WithCodec.

Lemma transforms_output_structure_witness :
  let s' := (anonymize_observation Testdata.base64_decodebytes
               Testdata.base64_encodebytes Testdata.json_loads Testdata.json_dumps
               5 (VRef 10%positive) (1 # 5) Testdata.start).2 in
  ∃ t', snapshot 5 (heap s') (VRef 27%positive) = Some t'
        ∧ Some (Json.redact t')
          = Json.redact <$> snapshot 5 (heap Testdata.start) (VRef 10%positive).
Proof.
  destruct (transforms_output_structure Testdata.base64_decodebytes
              Testdata.base64_encodebytes Testdata.json_loads Testdata.json_dumps)
    as (_ & _ & H).
  intros s'.
  destruct (H 5%nat (VRef 10%positive) (1 # 5) Testdata.start (VRef 27%positive) s' 5%nat
              (default JNull (snapshot 5 (heap Testdata.start) (VRef 10%positive))))
    as (t' & Ht' & Hredact); [by vm_compute..|].
  exists t'. split; [done|]. by rewrite Hredact.
Defined.

(** C9 as stated fails. The patient of the [get_patient] example has the
    key [telecomPhone], with the value [None], and the returned record has
    no such key; an observation whose identifier has no ["value"] comes
    back with one. *)
Lemma anonymize_patient_drops_phone_key :
  (anonymize_patient (VRef 3%positive) Testdata.start).1 = Ret (VRef 19%positive)
  ∧ keys_in (heap Testdata.start) (VRef 3%positive)
    = Some ["id"; "jheUserId"; "identifier"; "nameFamily"; "nameGiven"; "birthDate";
            "telecomPhone"; "telecomEmail"; "organizationId"]
  ∧ keys_in (heap (anonymize_patient (VRef 3%positive) Testdata.start).2)
      (VRef 19%positive)
    = Some ["organizationId"; "nameGiven"; "nameFamily"; "telecomEmail"; "birthDate";
            "identifier"; "id"; "jheUserId"]
  ∧ (let r := anonymize_observation Testdata.base64_decodebytes
                Testdata.base64_encodebytes Testdata.json_loads Testdata.json_dumps
                3 (VRef 30%positive) (1 # 5) Testdata.unnamed_start in
     r.1 = Ret (VRef 39%positive)
     ∧ (Json.getitem (default JNull (snapshot 3 (heap Testdata.unnamed_start)
                                       (VRef 30%positive))) "identifier")
       = Ret (JArr [JObj [("system", JStr "https://commonhealth.org")]])
     ∧ (Json.getitem (default JNull (snapshot 3 (heap r.2) (VRef 39%positive)))
          "identifier")
       = Ret (JArr [JObj [("system", JStr "https://commonhealth.org");
                          ("value", JStr "u-u-i-d-1")]])).
Proof. by vm_compute. Qed.

End ShapeFacts.
